(** * EventLog: the bucket-chain index of [eventlog/service.go]

    A shallow embedding of the EventLog service (insertion contract,
    search, single-event fetch) and the properties of its bucket chain. *)

From Stdlib Require Import ZArith List Lia Bool.
From Stdlib Require Import Strings.String Strings.Byte.
From stdpp Require Import base option list gmap strings fin_maps pretty.

Local Open Scope Z_scope.

(** ** Byte slices *)

Abbreviation bytes := (list byte).

#[export] Instance byte_eq_dec : EqDecision byte := Byte.byte_eq_dec.
#[export] Instance byte_countable : Countable byte :=
  inj_countable Byte.to_N Byte.of_N Byte.of_to_N.

(** [[]byte(s)] for a Go string [s]. *)
Definition bytes_of_string (s : string) : bytes := list_byte_of_string s.

(** ** Signed 64-bit arithmetic ([int64], [time.Duration]) *)

Definition int64_min : Z := - 2 ^ 63.
Definition int64_max : Z := 2 ^ 63 - 1.
Definition in_int64 (z : Z) : Prop := int64_min <= z <= int64_max.

(** Two's-complement wrap-around of a mathematical integer. *)
Definition wrap64 (z : Z) : Z := (z + 2 ^ 63) mod 2 ^ 64 - 2 ^ 63.

(** [a - b] on [int64]. *)
Definition sub64 (a b : Z) : Z := wrap64 (a - b).

(** [time.Second], in nanoseconds. *)
Definition Second : Z := 1000000000.

(** ** Errors

    One constructor per [errors.New] of the service, the sentinel
    [errIndexMissing], the failures of the collaborators (decoding,
    ledger, proof), and two artefacts of the embedding: a Go panic and
    the exhaustion of the loop fuel. *)

Inductive error : Type :=
| ErrDeleteNotAllowed      (* delete tx not allowed *)
| ErrInvokeNotAllowed      (* invoke tx not allowed *)
| ErrExpectedSpawn         (* expected a spawn tx *)
| ErrExpectedEventArg      (* expected a named argument of event *)
| ErrTimestampTooLongAgo   (* event timestamp too long ago *)
| ErrTimestampInFuture     (* event timestamp is in the future *)
| ErrNotInclusionProof     (* not an inclusion proof *)
| ErrWrongKey              (* wrong key *)
| ErrNotEnoughValues       (* not enough values *)
| ErrSkipchainIDRequired   (* skipchain ID required *)
| ErrInvalidValue          (* invalid value *)
| errIndexMissing
| ErrCorruptChain          (* a bucket or event reference does not resolve *)
| ErrCollaborator (msg : string)
| ErrPanic
| ErrOutOfFuel.

#[export] Instance error_eq_dec : EqDecision error.
Proof. solve_decision. Defined.

Inductive result (A : Type) : Type :=
| Ok (a : A)
| Err (e : error).
Arguments Ok {A} a.
Arguments Err {A} e.

Definition bind {A B : Type} (r : result A) (k : A -> result B) : result B :=
  match r with
  | Ok a => k a
  | Err e => Err e
  end.

Notation "x <- r ;; k" := (bind r (fun x => k))
  (at level 100, r at next level, right associativity).

(** ** Data model *)

(** Modelled from the spec: an event has a signed 64-bit nanosecond
    timestamp [when], a short text label [topic] and an opaque payload
    [content]; the struct [Event] is declared outside the given sources,
    and the service reads its [When] and [Topic]. *)
Record Event : Type := mkEvent {
  When : Z;          (* int64, nanoseconds *)
  Topic : string;
  Content : bytes
}.

(** [bucket]: one link of the chain. [Prev] is the nil slice for the
    first bucket. *)
Record bucket : Type := mkBucket {
  Start : Z;                 (* int64, nanoseconds *)
  Prev : bytes;
  EventRefs : list bytes
}.

(** [omniledger.ObjectID]. *)
Record ObjectID : Type := mkObjectID {
  DarcID : bytes;
  InstanceID : bytes
}.

Record Argument : Type := mkArgument {
  Name : string;
  Value : bytes
}.

Abbreviation ArgumentList := (list Argument).

Module Spawn.
Record t : Type := mk { ContractID : string; Args : ArgumentList }.
End Spawn.

Module Invoke.
Record t : Type := mk { Command : string; Args : ArgumentList }.
End Invoke.

Module Delete.
Inductive t : Type := mk.
End Delete.

(** [omniledger.Instruction]: the three request kinds are nilable
    pointers. *)
Module Instruction.
Record t : Type := mk {
  ObjectID : ObjectID;
  Spawn : option Spawn.t;
  Invoke : option Invoke.t;
  Delete : option Delete.t
}.
End Instruction.

Inductive StateAction : Type := Create | Update | Remove.

Module StateChange.
Record t : Type := mk {
  Action : StateAction;
  ObjectID : bytes;
  ContractID : bytes;
  Value : bytes
}.
End StateChange.

Inductive Coin : Type := mkCoin (name : bytes) (value : Z).

(** A value held in a ledger record; the service only ever type-asserts
    byte slices. *)
Inductive value : Type :=
| VBytes (b : bytes)
| VOther.

(** [omniledger.CollectionView]: a read handle on the key/value state of
    one ledger instance. *)
Abbreviation View := (gmap bytes (list value)).

Abbreviation SkipBlockID := bytes.

Record SearchRequest : Type := mkSearchRequest {
  ID : SkipBlockID;
  ReqTopic : string;
  From : Z;
  To : Z
}.

Record SearchResponse : Type := mkSearchResponse {
  Events : list Event;
  Truncated : bool
}.

Record GetEventRequest : Type := mkGetEventRequest {
  SkipchainID : SkipBlockID;
  Key : bytes
}.

Record GetEventResponse : Type := mkGetEventResponse {
  RespEvent : Event
}.

(** The part of an [omniledger.Proof] that [GetEvent] looks at. *)
Record Proof : Type := mkProof {
  InclusionProofMatch : bool;
  KeyValue : result (bytes * list bytes)
}.

(** [Service]: only [bucketMaxAge] matters to the index. *)
Record Service : Type := mkService {
  bucketMaxAge : Z
}.

Definition contractName : string := "eventlog".

(** [newService]: the service starts with [bucketMaxAge] at five seconds. *)
Definition newService : Service := {| bucketMaxAge := 5 * Second |}.

(** ** Collaborators

    What the service calls but the given sources do not define: the
    protobuf codec, the omniledger helpers on instructions and
    identifiers, the skipchain identifier test, and [theEventLog], the
    identifier under which the package stores the head pointer. *)

Class Collaborators : Type := {
  decodeEvent : bytes -> result Event;
  encodeBucket : bucket -> result bytes;
  decodeBucket : bytes -> result bucket;
  Slice : ObjectID -> bytes;
  DeriveID : Instruction.t -> string -> ObjectID;
  GetContractState : View -> Instruction.t -> result string;
  ArgsSearch : ArgumentList -> string -> option bytes;
  IsNull : SkipBlockID -> bool;
  theEventLog : ObjectID
}.

Section EventLog.

Context `{Collaborators}.

(** [omniledger.NewStateChange]. *)
Definition NewStateChange (sa : StateAction) (objectID : ObjectID)
    (contractID : string) (val : bytes) : StateChange.t :=
  {| StateChange.Action := sa;
     StateChange.ObjectID := Slice objectID;
     StateChange.ContractID := bytes_of_string contractID;
     StateChange.Value := val |}.

(** ** Bucket store adapter *)

(** Modelled from the spec: the sentinel is the unique terminal node of
    the chain, the bucket whose [prev] is none; [isFirst] is declared
    outside the given sources. *)
Definition isFirst (b : bucket) : bool :=
  match Prev b with
  | [] => true
  | _ :: _ => false
  end.

(** Modelled from the spec: [get_bucket(address)] reads an arbitrary
    bucket by address and fails with [CorruptChain] when the reference
    does not resolve; [getBucketByID] is declared outside the given
    sources. *)
Definition getBucketByID (v : View) (id : bytes) : result bucket :=
  match v !! id with
  | None => Err ErrCorruptChain
  | Some [] => Err ErrPanic
  | Some (VBytes buf :: _) => decodeBucket buf
  | Some (VOther :: _) => Err ErrInvalidValue
  end.

(** Modelled from the spec: [get_head()] reads the head pointer, then the
    bucket it references, and signals [IndexMissing] when no head pointer
    exists yet; [getLatestBucket] is declared outside the given sources.
    The pointer is stored under [theEventLog.Slice()]. *)
Definition getLatestBucket (v : View) : result (bytes * bucket) :=
  match v !! Slice theEventLog with
  | None => Err errIndexMissing
  | Some [] => Err ErrPanic
  | Some (VBytes bucketID :: _) =>
      b <- getBucketByID v bucketID ;; Ok (bucketID, b)
  | Some (VOther :: _) => Err ErrInvalidValue
  end.

(** [getEventByID]. *)
Definition getEventByID (coll : View) (objID : bytes) : result Event :=
  match coll !! objID with
  | None => Err ErrCorruptChain
  | Some [] => Err ErrPanic
  | Some (VBytes newval :: _) => decodeEvent newval
  | Some (VOther :: _) => Err ErrInvalidValue
  end.

(** ** Event codec: [decodeAndCheckEvent]

    [now] is the value of [time.Now()], in nanoseconds since the epoch. *)
Definition decodeAndCheckEvent (now : Z) (eventBuf : bytes) : result Event :=
  event <- decodeEvent eventBuf ;;
  if When event <? now - 5 * Second then Err ErrTimestampTooLongAgo
  else if now <? When event then Err ErrTimestampInFuture
  else Ok event.

(** ** Bucket-chain writer: [contractFunction] *)

(** The backward walk: [for b != nil && !b.isFirst() { ... }]. *)
Fixpoint walkBack (fuel : nat) (v : View) (when : Z)
    (bID : bytes) (b : bucket) (isHead : bool)
    : result (bytes * bucket * bool) :=
  if isFirst b then Ok (bID, b, isHead)
  else if Start b <=? when then Ok (bID, b, isHead)
  else
    match fuel with
    | O => Err ErrOutOfFuel
    | S fuel' =>
        b' <- getBucketByID v (Prev b) ;;
        walkBack fuel' v when (Prev b) b' false
    end.

(** The body of [contractFunction] after the shape checks, as a
    computation that either yields the state changes or an error. *)
Definition insertEvent (s : Service) (now : Z) (fuel : nat) (v : View)
    (tx : Instruction.t) (spawn : Spawn.t) : result (list StateChange.t) :=
  cid <- GetContractState v tx ;;
  let scs := [] in
  match ArgsSearch (Spawn.Args spawn) "event" with
  | None => Err ErrExpectedEventArg
  | Some eventBuf =>
      event <- decodeAndCheckEvent now eventBuf ;;
      let scs := scs ++ [NewStateChange Create (Instruction.ObjectID tx) cid eventBuf] in
      latest <- match getLatestBucket v with
                | Ok (bID, b) => Ok (bID, Some b)
                | Err e => if decide (e = errIndexMissing) then Ok ([], None) else Err e
                end ;;
      stop <- match latest with
              | (bID, None) => Ok (bID, None, true)
              | (bID, Some b) =>
                  r <- walkBack fuel v (When event) bID b true ;;
                  let '(bID', b', isHead) := r in
                  Ok (bID', Some b', isHead)
              end ;;
      let '(bID, ob, isHead) := stop in
      if match ob with
         | None => true
         | Some b => isHead && (bucketMaxAge s <? sub64 (When event) (Start b))
         end
      then
        let newBid := DeriveID tx "bucket" in
        pre <- match ob with
               | None =>
                   let catchID := DeriveID tx "catch-all" in
                   let newb := {| Start := 0; Prev := []; EventRefs := [] |} in
                   buf <- encodeBucket newb ;;
                   Ok (scs ++ [NewStateChange Create catchID cid buf], Slice catchID)
               | Some _ => Ok (scs, bID)
               end ;;
        let '(scs, bID) := pre in
        let newb := {| Start := When event;
                       Prev := bID;
                       EventRefs := [Slice (Instruction.ObjectID tx)] |} in
        buf <- encodeBucket newb ;;
        let scs := scs ++ [NewStateChange Create newBid cid buf] in
        let action := match ob with None => Create | Some _ => Update end in
        Ok (scs ++ [NewStateChange action theEventLog cid (Slice newBid)])
      else
        match ob with
        | None => Err ErrPanic
        | Some b =>
            let b := {| Start := Start b;
                        Prev := Prev b;
                        EventRefs := EventRefs b ++ [Slice (Instruction.ObjectID tx)] |} in
            bucketBuf <- encodeBucket b ;;
            Ok (scs ++ [ {| StateChange.Action := Update;
                            StateChange.ObjectID := bID;
                            StateChange.ContractID := bytes_of_string contractName;
                            StateChange.Value := bucketBuf |} ])
        end
  end.

(** [contractFunction]: every error return is [nil, nil, err]; the
    success return is [scs, nil, nil]. *)
Definition contractFunction (s : Service) (now : Z) (fuel : nat) (v : View)
    (tx : Instruction.t) (c : list Coin)
    : list StateChange.t * list Coin * option error :=
  match Instruction.Delete tx with
  | Some _ => ([], [], Some ErrDeleteNotAllowed)
  | None =>
      match Instruction.Invoke tx with
      | Some _ => ([], [], Some ErrInvokeNotAllowed)
      | None =>
          match Instruction.Spawn tx with
          | None => ([], [], Some ErrExpectedSpawn)
          | Some spawn =>
              match insertEvent s now fuel v tx spawn with
              | Ok scs => (scs, [], None)
              | Err e => ([], [], Some e)
              end
          end
      end
  end.

(** ** Bucket-chain reader: [Search] *)

(** The backward walk of [Search] that selects the buckets overlapping
    the range. [bids] of the source only feeds a log message and is left
    out. When the predecessor does not resolve, the source has already
    assigned the result of [getBucketByID] to [b], and its error path
    evaluates [b.Prev] for the log message before it returns: on the nil
    bucket that comes with an error (as [getEventByID] returns on every
    error path) this dereference panics, so the lookup error is never
    returned. *)
Fixpoint walkBuckets (fuel : nat) (v : View) (from to : Z) (bEnd : Z)
    (b : bucket) (buckets : list bucket) : result (list bucket) :=
  if bEnd <? from then Ok buckets
  else
    let buckets := if to <? Start b then buckets else buckets ++ [b] in
    if isFirst b then Ok buckets
    else
      match fuel with
      | O => Err ErrOutOfFuel
      | S fuel' =>
          match getBucketByID v (Prev b) with
          | Ok b' => walkBuckets fuel' v from to (Start b) b' buckets
          | Err _ => Err ErrPanic
          end
      end.

(** The test applied to each event of a selected bucket. *)
Definition matches (from to : Z) (topic : string) (ev : Event) : bool :=
  (from <=? When ev) && (When ev <? to) &&
  ((topic =? "")%string || (topic =? Topic ev)%string).

(** The inner loop over one bucket's [EventRefs]; the boolean tells
    whether [break filter] was taken. *)
Fixpoint filterRefs (v : View) (from to : Z) (topic : string) (searchMax : Z)
    (refs : list bytes) (events : list Event) : result (list Event * bool) :=
  match refs with
  | [] => Ok (events, false)
  | e :: refs' =>
      ev <- getEventByID v e ;;
      if matches from to topic ev then
        let events := events ++ [ev] in
        if searchMax <=? Z.of_nat (length events) then Ok (events, true)
        else filterRefs v from to topic searchMax refs' events
      else filterRefs v from to topic searchMax refs' events
  end.

(** The outer loop, over the selected buckets taken from the last one
    collected to the first. *)
Fixpoint filterBuckets (v : View) (from to : Z) (topic : string) (searchMax : Z)
    (bs : list bucket) (events : list Event) : result (list Event * bool) :=
  match bs with
  | [] => Ok (events, false)
  | b :: bs' =>
      r <- filterRefs v from to topic searchMax (EventRefs b) events ;;
      let '(events, stop) := r in
      if stop then Ok (events, true)
      else filterBuckets v from to topic searchMax bs' events
  end.

(** [Search]. [omni] stands for [s.omni.GetCollectionView]; [now1] and
    [now2] are the two readings of [time.Now().UnixNano()]; [searchMax]
    is the package variable. *)
Definition Search (omni : SkipBlockID -> View) (searchMax : Z)
    (now1 now2 : Z) (fuel : nat) (req : SearchRequest) : result SearchResponse :=
  if IsNull (ID req) then Err ErrSkipchainIDRequired
  else
    let to := if To req =? 0 then now1 else To req in
    let v := omni (ID req) in
    match getLatestBucket v with
    | Err e =>
        if decide (e = errIndexMissing)
        then Ok {| Events := []; Truncated := false |}
        else Err e
    | Ok (id, b) =>
        let bEnd := now2 in
        buckets <- walkBuckets fuel v (From req) to bEnd b [] ;;
        r <- filterBuckets v (From req) to (ReqTopic req) searchMax (rev buckets) [] ;;
        let '(events, truncated) := r in
        Ok {| Events := events; Truncated := truncated |}
    end.

(** ** Single-event fetch: [GetEvent]

    [getProof] stands for [s.omni.GetProof]. *)
Definition GetEvent (getProof : SkipBlockID -> bytes -> result Proof)
    (req : GetEventRequest) : result GetEventResponse :=
  reply <- getProof (SkipchainID req) (Key req) ;;
  if negb (InclusionProofMatch reply) then Err ErrNotInclusionProof
  else
    kv <- KeyValue reply ;;
    let '(k, vs) := kv in
    if negb (bool_decide (k = Key req)) then Err ErrWrongKey
    else if (length vs <? 2)%nat then Err ErrNotEnoughValues
    else
      match vs with
      | [] => Err ErrPanic
      | v0 :: _ => e <- decodeEvent v0 ;; Ok {| RespEvent := e |}
      end.

End EventLog.

(** ** The ledger's side of an accepted transaction

    The ledger applies the state changes of an accepted transaction as one
    transition; a record holds the value and the contract identifier. *)

Definition applyStateChange (v : View) (sc : StateChange.t) : View :=
  match StateChange.Action sc with
  | Create | Update =>
      <[StateChange.ObjectID sc :=
          [VBytes (StateChange.Value sc); VBytes (StateChange.ContractID sc)]]> v
  | Remove => delete (StateChange.ObjectID sc) v
  end.

Definition applyStateChanges (v : View) (scs : list StateChange.t) : View :=
  fold_left applyStateChange scs v.

Section Runs.

Context `{Collaborators}.

(** One transaction through the contract: the view is unchanged when the
    contract returns an error. *)
Definition execute (s : Service) (fuel : nat) (v : View)
    (now : Z) (tx : Instruction.t) : View * option error :=
  match contractFunction s now fuel v tx [] with
  | (scs, _, None) => (applyStateChanges v scs, None)
  | (_, _, Some e) => (v, Some e)
  end.

(** A sequence of accepted insertions: each transaction comes with the
    clock reading of its validation, and every one of them is accepted. *)
Fixpoint accepted (s : Service) (fuel : nat) (v : View)
    (txs : list (Z * Instruction.t)) : option View :=
  match txs with
  | [] => Some v
  | (now, tx) :: txs' =>
      match execute s fuel v now tx with
      | (v', None) => accepted s fuel v' txs'
      | (_, Some _) => None
      end
  end.

(** ** The bucket chain as a list

    [is_chain v c]: in the view [v], [c] lists the buckets with their
    addresses from a bucket down to the first one, each linked to the next
    by [Prev]. *)
Fixpoint is_chain (v : View) (c : list (bytes * bucket)) : Prop :=
  match c with
  | [] => False
  | (id, b) :: c' =>
      getBucketByID v id = Ok b /\
      match c' with
      | [] => isFirst b = true
      | (id', _) :: _ => isFirst b = false /\ Prev b = id' /\ is_chain v c'
      end
  end.

(** [head_chain v c]: the head pointer of [v] names the first bucket of
    the chain [c]. *)
Definition head_chain (v : View) (c : list (bytes * bucket)) : Prop :=
  is_chain v c /\
  exists hid hb more, hd_error c = Some (hid, hb) /\
    v !! Slice theEventLog = Some (VBytes hid :: more).

(** [resolves v refs evs]: every reference of [refs] resolves in [v], to
    the events [evs] in the same order. *)
Definition resolves (v : View) (refs : list bytes) (evs : list Event) : Prop :=
  Forall2 (fun r e => getEventByID v r = Ok e) refs evs.

(** ** The reader, as the specification words it

    The buckets recorded as overlapping by the backward walk, in the order
    of collection (newest first): stop once [from > bEnd]; skip a bucket
    with [to < start]; the end of the next bucket is this one's start. *)
Fixpoint overlapping {A : Type} (start : A -> Z) (from to bEnd : Z)
    (c : list A) : list A :=
  match c with
  | [] => []
  | b :: c' =>
      if bEnd <? from then []
      else (if to <? start b then [] else [b])
             ++ overlapping start from to (start b) c'
  end.

(** The cap: collection stops as soon as the number of collected events
    reaches [searchMax], which is tested after each collected event. *)
Definition capCount (searchMax : Z) : nat := Z.to_nat (Z.max 1 searchMax).

Definition capped (searchMax : Z) (ms : list Event) : list Event * bool :=
  (firstn (capCount searchMax) ms, (capCount searchMax <=? length ms)%nat).

(** The outcome of the filter loops once [acc] has been collected and the
    events still to be examined are [evs]. *)
Definition collected (searchMax : Z) (acc ms : list Event)
    : result (list Event * bool) :=
  if (capCount searchMax <=? length acc + length ms)%nat
  then Ok (acc ++ firstn (capCount searchMax - length acc) ms, true)
  else Ok (acc ++ ms, false).

(** The effective upper bound of a request. *)
Definition upper (now1 : Z) (req : SearchRequest) : Z :=
  if To req =? 0 then now1 else To req.

(** ** The log as an abstract chain

    An entry is a bucket with its address and the events its references
    resolve to. The chain is listed from the head bucket down to the
    first one; the empty list is the empty log. *)

Definition entry_id (x : bytes * bucket * list Event) : bytes := x.1.1.
Definition entry_bucket (x : bytes * bucket * list Event) : bucket := x.1.2.
Definition entry_events (x : bytes * bucket * list Event) : list Event := x.2.

(** The links of a chain: each bucket names the next one, and only the
    last one is first. *)
Fixpoint linked (c : list (bytes * bucket)) : Prop :=
  match c with
  | [] => False
  | (id, b) :: c' =>
      match c' with
      | [] => isFirst b = true
      | (id', _) :: _ => isFirst b = false /\ Prev b = id' /\ linked c'
      end
  end.

(** [b.EventRefs = append(b.EventRefs, addr)]. *)
Definition addRef (b : bucket) (addr : bytes) : bucket :=
  {| Start := Start b; Prev := Prev b; EventRefs := EventRefs b ++ [addr] |}.

(** Append: the event goes to the most recent bucket that starts at or
    before it, or to the first bucket. *)
Fixpoint attach (e : Event) (addr : bytes)
    (L : list (bytes * bucket * list Event)) : list (bytes * bucket * list Event) :=
  match L with
  | [] => []
  | (id, b, evs) :: L' =>
      if isFirst b || (Start b <=? When e)
      then (id, addRef b addr, evs ++ [e]) :: L'
      else (id, b, evs) :: attach e addr L'
  end.

(** The three outcomes of an insertion: bootstrap, new head, append. *)
Definition place (maxAge : Z) (e : Event) (addr newBid catchID : bytes)
    (L : list (bytes * bucket * list Event)) : list (bytes * bucket * list Event) :=
  match L with
  | [] =>
      [ (newBid, {| Start := When e; Prev := catchID; EventRefs := [addr] |}, [e]);
        (catchID, {| Start := 0; Prev := []; EventRefs := [] |}, []) ]
  | (hid, hb, _) :: _ =>
      if (isFirst hb || (Start hb <=? When e))
         && (maxAge <? sub64 (When e) (Start hb))
      then (newBid, {| Start := When e; Prev := hid; EventRefs := [addr] |}, [e]) :: L
      else attach e addr L
  end.

(** [represents v L]: the view [v] stores the log [L]. Addresses of
    buckets are distinct, non-empty and differ from the head pointer's;
    event references resolve and are no bucket address. *)
Definition represents (v : View) (L : list (bytes * bucket * list Event)) : Prop :=
  match L with
  | [] => v !! Slice theEventLog = None
  | _ :: _ =>
      head_chain v (map fst L) /\
      NoDup (map entry_id L) /\
      ~ In [] (map entry_id L) /\
      ~ In (Slice theEventLog) (map entry_id L) /\
      Forall (fun x =>
                resolves v (EventRefs (entry_bucket x)) (entry_events x) /\
                Forall (fun r => ~ In r (map entry_id L) /\ r <> Slice theEventLog)
                  (EventRefs (entry_bucket x))) L
  end.

(** The addresses a transaction writes to are new to the view, distinct,
    and non-empty. *)
Definition fresh (v : View) (tx : Instruction.t) : Prop :=
  let addr := Slice (Instruction.ObjectID tx) in
  let newBid := Slice (DeriveID tx "bucket") in
  let catchID := Slice (DeriveID tx "catch-all") in
  v !! addr = None /\ v !! newBid = None /\ v !! catchID = None /\
  NoDup [Slice theEventLog; addr; newBid; catchID] /\
  newBid <> [] /\ catchID <> [].

(** The codec law the ledger relies on: every bucket encodes, and decodes
    back to itself. *)
Definition codec_roundtrip : Prop :=
  forall b : bucket, exists buf, encodeBucket b = Ok buf /\ decodeBucket buf = Ok b.

(** A run of transactions whose addresses are fresh at each step and whose
    clock readings lie in [[lo, hi]]. *)
Fixpoint fresh_run (s : Service) (fuel : nat) (lo hi : Z) (v : View)
    (txs : list (Z * Instruction.t)) : Prop :=
  match txs with
  | [] => True
  | (now, tx) :: txs' =>
      fresh v tx /\ lo <= now <= hi /\
      fresh_run s fuel lo hi (execute s fuel v now tx).1 txs'
  end.

(** The event carried by a spawn transaction, when it decodes. *)
Definition event_of (tx : Instruction.t) : option Event :=
  match Instruction.Spawn tx with
  | None => None
  | Some spawn =>
      match ArgsSearch (Spawn.Args spawn) "event" with
      | None => None
      | Some eventBuf =>
          match decodeEvent eventBuf with
          | Ok e => Some e
          | Err _ => None
          end
      end
  end.

(** The log after a run of accepted insertions, by [place]. *)
Fixpoint log_after (s : Service) (L : list (bytes * bucket * list Event))
    (txs : list (Z * Instruction.t)) : list (bytes * bucket * list Event) :=
  match txs with
  | [] => L
  | (_, tx) :: txs' =>
      match event_of tx with
      | None => log_after s L txs'
      | Some e =>
          log_after s
            (place (bucketMaxAge s) e (Slice (Instruction.ObjectID tx))
               (Slice (DeriveID tx "bucket")) (Slice (DeriveID tx "catch-all")) L)
            txs'
      end
  end.

(** The events a search examines, oldest overlapping bucket first. *)
Definition examined (from to now2 : Z) (L : list (bytes * bucket * list Event))
    : list Event :=
  concat (map entry_events
            (rev (overlapping (fun x => Start (entry_bucket x)) from to now2 L))).

(** All the matches of a search, before the cap. *)
Definition all_matches (from to now2 : Z) (topic : string)
    (L : list (bytes * bucket * list Event)) : list Event :=
  List.filter (matches from to topic) (examined from to now2 L).

(** The time order of a log: starts do not increase towards the first
    bucket, no event of a bucket is newer than the start of the next newer
    bucket, and no event of the head is newer than [bound]. *)
Fixpoint time_ordered (bound : Z) (L : list (bytes * bucket * list Event)) : Prop :=
  match L with
  | [] => True
  | x :: L' =>
      Forall (fun e => When e <= bound) (entry_events x) /\
      Start (entry_bucket x) <= bound /\
      time_ordered (Start (entry_bucket x)) L'
  end.

(** The timing invariant of a log built by insertions: time order,
    starts since the epoch, and the events of the head lying within
    [maxAge] of its start. *)
Definition timed (maxAge bound : Z) (L : list (bytes * bucket * list Event)) : Prop :=
  time_ordered bound L /\
  Forall (fun x => 0 <= Start (entry_bucket x)) L /\
  match L with
  | [] => True
  | x :: _ =>
      Forall (fun e => When e <= Start (entry_bucket x) + maxAge) (entry_events x)
  end.

(** The events of a list of entries, last entry first. *)
Definition events_of (X : list (bytes * bucket * list Event)) : list Event :=
  concat (map entry_events (rev X)).

(** A request re-issued from a later lower bound. *)
Definition reissue (req : SearchRequest) (from : Z) : SearchRequest :=
  {| ID := ID req; ReqTopic := ReqTopic req; From := from; To := To req |}.

(** A well-shaped spawn transaction: it carries an event that decodes and
    lies within the tolerance of the clock reading, and its contract
    resolves in every view. *)
Definition valid_spawn (now : Z) (tx : Instruction.t) (e : Event) : Prop :=
  exists spawn eventBuf,
    Instruction.Delete tx = None /\
    Instruction.Invoke tx = None /\
    Instruction.Spawn tx = Some spawn /\
    (forall v, exists cid, GetContractState v tx = Ok cid) /\
    ArgsSearch (Spawn.Args spawn) "event" = Some eventBuf /\
    decodeEvent eventBuf = Ok e /\
    now - 5 * Second <= When e <= now.

(** ** The specification's reading of truncation and paging *)

(** Oldest matching first: a sequence of events in timestamp order. *)
Definition oldest_first (evs : list Event) : Prop :=
  forall (i j : nat) a b,
    nth_error evs i = Some a -> nth_error evs j = Some b -> (i < j)%nat ->
    When a <= When b.

(** Truncation drops the newest matches, never the oldest: every match
    left out is at least as new as every match returned. *)
Definition drops_only_newest (all returned : list Event) : Prop :=
  forall d r, In d all -> ~ In d returned -> In r returned -> When r <= When d.

(** Paging: the second page is the slice of the matches that follows the
    first page. *)
Definition next_slice (cap : nat) (all page1 page2 : list Event) : Prop :=
  page2 = firstn cap (skipn (length page1) all).

End Runs.

(** ** A sample instance of the collaborators

    A small self-delimiting codec and concatenating identifiers, used to
    run the service on concrete logs. *)

Module Sample.

Definition b0 : byte := "000"%byte.
Definition b1 : byte := "001"%byte.
Definition b2 : byte := "002"%byte.

Fixpoint encPos (p : positive) : bytes :=
  match p with
  | xH => [b2]
  | xO p' => b0 :: encPos p'
  | xI p' => b1 :: encPos p'
  end.

Fixpoint decPos (l : bytes) : option (positive * bytes) :=
  match l with
  | [] => None
  | x :: r =>
      if Byte.eqb x b2 then Some (xH, r)
      else
        match decPos r with
        | None => None
        | Some (p, r') =>
            if Byte.eqb x b0 then Some (xO p, r')
            else if Byte.eqb x b1 then Some (xI p, r')
            else None
        end
  end.

Definition encZ (z : Z) : bytes :=
  match z with
  | Z0 => [b0]
  | Zpos p => b1 :: encPos p
  | Zneg p => b2 :: encPos p
  end.

Definition decZ (l : bytes) : option (Z * bytes) :=
  match l with
  | [] => None
  | x :: r =>
      if Byte.eqb x b0 then Some (Z0, r)
      else
        match decPos r with
        | None => None
        | Some (p, r') =>
            if Byte.eqb x b1 then Some (Zpos p, r')
            else if Byte.eqb x b2 then Some (Zneg p, r')
            else None
        end
  end.

Fixpoint encBytes (l : bytes) : bytes :=
  match l with
  | [] => [b0]
  | x :: l' => b1 :: x :: encBytes l'
  end.

Fixpoint decBytes (l : bytes) : option (bytes * bytes) :=
  match l with
  | t :: r =>
      if Byte.eqb t b0 then Some ([], r)
      else if Byte.eqb t b1 then
        match r with
        | x :: r' =>
            match decBytes r' with
            | Some (l', r'') => Some (x :: l', r'')
            | None => None
            end
        | [] => None
        end
      else None
  | [] => None
  end.

Definition encRef (l : bytes) : bytes :=
  flat_map (fun x => [b1; x]) l ++ [b2].

Definition encRefs (ll : list bytes) : bytes :=
  flat_map encRef ll ++ [b0].

Fixpoint decRefs (l : bytes) (cur : bytes) (acc : list bytes)
    : option (list bytes * bytes) :=
  match l with
  | t :: r =>
      if Byte.eqb t b0 then Some (acc, r)
      else if Byte.eqb t b2 then decRefs r [] (acc ++ [cur])
      else if Byte.eqb t b1 then
        match r with
        | x :: r' => decRefs r' (cur ++ [x]) acc
        | [] => None
        end
      else None
  | [] => None
  end.

Definition encodeBucket (b : bucket) : result bytes :=
  Ok (encZ (Start b) ++ encBytes (Prev b) ++ encRefs (EventRefs b)).

Definition decodeBucket (buf : bytes) : result bucket :=
  match decZ buf with
  | None => Err (ErrCollaborator "bucket start")
  | Some (st, r) =>
      match decBytes r with
      | None => Err (ErrCollaborator "bucket prev")
      | Some (pv, r') =>
          match decRefs r' [] [] with
          | Some (refs, []) => Ok {| Start := st; Prev := pv; EventRefs := refs |}
          | _ => Err (ErrCollaborator "bucket refs")
          end
      end
  end.

Definition encodeEvent (e : Event) : bytes :=
  encZ (When e) ++ encBytes (bytes_of_string (Topic e)) ++ encBytes (Content e).

Definition decodeEvent (buf : bytes) : result Event :=
  match decZ buf with
  | None => Err (ErrCollaborator "event when")
  | Some (w, r) =>
      match decBytes r with
      | None => Err (ErrCollaborator "event topic")
      | Some (tp, r') =>
          match decBytes r' with
          | Some (ct, []) =>
              Ok {| When := w; Topic := string_of_list_byte tp; Content := ct |}
          | _ => Err (ErrCollaborator "event content")
          end
      end
  end.

Definition Slice (oid : ObjectID) : bytes := DarcID oid ++ InstanceID oid.

Definition DeriveID (tx : Instruction.t) (what : string) : ObjectID :=
  {| DarcID := DarcID (Instruction.ObjectID tx);
     InstanceID := InstanceID (Instruction.ObjectID tx) ++ bytes_of_string what |}.

Definition GetContractState (v : View) (tx : Instruction.t) : result string :=
  match Instruction.Spawn tx with
  | Some sp => Ok (Spawn.ContractID sp)
  | None => Err (ErrCollaborator "no contract")
  end.

Fixpoint ArgsSearch (args : ArgumentList) (name : string) : option bytes :=
  match args with
  | [] => None
  | a :: args' =>
      if (Name a =? name)%string then Some (Value a) else ArgsSearch args' name
  end.

Definition IsNull (id : SkipBlockID) : bool :=
  match id with
  | [] => true
  | _ :: _ => false
  end.

Definition theEventLog : ObjectID := {| DarcID := [b0]; InstanceID := [b0] |}.

#[export] Instance collaborators : Collaborators :=
  Build_Collaborators decodeEvent encodeBucket decodeBucket Slice DeriveID
    GetContractState ArgsSearch IsNull theEventLog.

(** A spawn transaction carrying the event [e], sent to the object
    whose instance identifier is [n]. *)
Definition tx_of (n : byte) (e : Event) : Instruction.t :=
  {| Instruction.ObjectID := {| DarcID := [b1]; InstanceID := [n] |};
     Instruction.Spawn :=
       Some {| Spawn.ContractID := contractName;
               Spawn.Args := [ {| Name := "event"; Value := encodeEvent e |} ] |};
     Instruction.Invoke := None;
     Instruction.Delete := None |}.

Definition ev (t : Z) (topic : string) : Event :=
  {| When := t * Second; Topic := topic; Content := [] |}.

Definition service : Service := newService.

(** Three insertions at [t], [t + 3s] and [t + 7s], for [t = 5s]. *)
Definition aging_run : list (Z * Instruction.t) :=
  [ (5 * Second, tx_of "010" (ev 5 "a"));
    (8 * Second, tx_of "011" (ev 8 "a"));
    (12 * Second, tx_of "012" (ev 12 "b")) ].

(** Three insertions whose events arrive newest first: 13s, then 12s,
    then 11s, each within the tolerance of its clock reading. *)
Definition late_run : list (Z * Instruction.t) :=
  [ (13 * Second, tx_of "010" (ev 13 "a"));
    (14 * Second, tx_of "011" (ev 12 "a"));
    (15 * Second, tx_of "012" (ev 11 "a")) ].

(** A search over the whole log, any topic. *)
Definition whole : SearchRequest :=
  {| ID := [b1]; ReqTopic := ""; From := 0; To := 100 * Second |}.

(** The clock reading of the searches. *)
Definition search_time : Z := 20 * Second.

(** The three transactions of [aging_run], and the view after the
    first one. *)
Definition tx1 : Instruction.t := tx_of "010" (ev 5 "a").
Definition tx2 : Instruction.t := tx_of "011" (ev 8 "a").
Definition tx3 : Instruction.t := tx_of "012" (ev 12 "b").

Definition first_view : View := (execute service 3 ∅ (5 * Second) tx1).1.

(** The view after [late_run]. *)
Definition late_view : View :=
  match accepted service 3 ∅ late_run with
  | Some v => v
  | None => ∅
  end.

(** A deletion, and a proof that is no inclusion proof. *)
Definition deletion : Instruction.t :=
  {| Instruction.ObjectID := {| DarcID := [b1]; InstanceID := [b2] |};
     Instruction.Spawn := None;
     Instruction.Invoke := None;
     Instruction.Delete := Some Delete.mk |}.

Definition absence : Proof :=
  {| InclusionProofMatch := false; KeyValue := Err (ErrCollaborator "absent") |}.

End Sample.

(** ** The specification's error taxonomy *)

Inductive errorKind : Type :=
| UnsupportedOperation
| MalformedRequest
| TimestampInFuture
| TimestampTooOld
| IndexMissing
| OtherError.

Definition kindOf (e : error) : errorKind :=
  match e with
  | ErrDeleteNotAllowed | ErrInvokeNotAllowed => UnsupportedOperation
  | ErrExpectedSpawn | ErrExpectedEventArg => MalformedRequest
  | ErrTimestampInFuture => TimestampInFuture
  | ErrTimestampTooLongAgo => TimestampTooOld
  | errIndexMissing => IndexMissing
  | _ => OtherError
  end.

(** The state changes, and the error, of a contract result. *)
Definition changes (r : list StateChange.t * list Coin * option error)
    : list StateChange.t := r.1.1.

Definition failure (r : list StateChange.t * list Coin * option error)
    : option error := r.2.

(** ** Further vocabulary for the log *)

Section LogShapes.

Context `{Collaborators}.

(** [broken_chain v c err]: in the view [v], [c] lists buckets linked by
    [Prev], none of them first, and the predecessor named by the last one
    fails to resolve with [err]. *)
Fixpoint broken_chain (v : View) (c : list (bytes * bucket)) (err : error) : Prop :=
  match c with
  | [] => False
  | (id, b) :: c' =>
      getBucketByID v id = Ok b /\ isFirst b = false /\
      match c' with
      | [] => getBucketByID v (Prev b) = Err err
      | (id', _) :: _ => Prev b = id' /\ broken_chain v c' err
      end
  end.

(** The references a search reads, in the order it reads them. *)
Definition refs_read (from to now2 : Z) (c : list (bytes * bucket)) : list bytes :=
  concat (map EventRefs (rev (overlapping Start from to now2 (map snd c)))).

(** A first bucket starts at zero. *)
Definition first_zero (L : list (bytes * bucket * list Event)) : Prop :=
  Forall (fun x => isFirst (entry_bucket x) = true -> Start (entry_bucket x) = 0) L.

(** No event is older than the start of its bucket. *)
Definition lower_bounded (L : list (bytes * bucket * list Event)) : Prop :=
  Forall (fun x => Forall (fun e => Start (entry_bucket x) <= When e) (entry_events x)) L.

(** Two consecutive buckets, the older of which is not the last of the
    chain, start more than [maxAge] apart. *)
Fixpoint spaced (maxAge : Z) (L : list (bytes * bucket * list Event)) : Prop :=
  match L with
  | x :: L' =>
      match L' with
      | y :: _ :: _ =>
          Start (entry_bucket y) + maxAge < Start (entry_bucket x) /\ spaced maxAge L'
      | _ => True
      end
  | [] => True
  end.

(** Bucket starts do not increase from the head towards the first
    bucket. *)
Fixpoint starts_sorted (c : list (bytes * bucket)) : Prop :=
  match c with
  | (_, b) :: c' =>
      match c' with
      | (_, b') :: _ => Start b' <= Start b /\ starts_sorted c'
      | [] => True
      end
  | [] => True
  end.

(** The stored events with their addresses. *)
Definition stored_pairs (L : list (bytes * bucket * list Event)) : list (bytes * Event) :=
  flat_map (fun x => combine (EventRefs (entry_bucket x)) (entry_events x)) L.

(** [extends x x']: the bucket of [x'] is the bucket of [x], at the same
    address, with the same start and predecessor, and with references (and
    events) added at the end only. *)
Definition extends (x x' : bytes * bucket * list Event) : Prop :=
  entry_id x' = entry_id x /\
  Start (entry_bucket x') = Start (entry_bucket x) /\
  Prev (entry_bucket x') = Prev (entry_bucket x) /\
  (exists refs, EventRefs (entry_bucket x') = EventRefs (entry_bucket x) ++ refs) /\
  (exists evs, entry_events x' = entry_events x ++ evs).

(** [grows L L']: [L'] is [L] with buckets extended, behind newer buckets
    put in front. *)
Definition grows (L L' : list (bytes * bucket * list Event)) : Prop :=
  exists front rest, L' = front ++ rest /\ Forall2 extends L rest.

(** The events carried by the transactions of a run, in order. *)
Definition events_sent (txs : list (Z * Instruction.t)) : list Event :=
  omap (fun x => event_of x.2) txs.

(** The same events, each with the object address of its transaction. *)
Definition sent (txs : list (Z * Instruction.t)) : list (bytes * Event) :=
  omap (fun x => match event_of x.2 with
                 | Some e => Some (Slice (Instruction.ObjectID x.2), e)
                 | None => None
                 end) txs.

(** The shape insertions give to a log: the timing invariant, a first
    bucket starting at zero, no event before the start of its bucket, and
    buckets spaced by more than [maxAge]. *)
Definition shaped (maxAge bound : Z) (L : list (bytes * bucket * list Event)) : Prop :=
  timed maxAge bound L /\ first_zero L /\ lower_bounded L /\ spaced maxAge L.

End LogShapes.

(** ** Schnorr signatures

    The signature helpers of package [crypto], over the operations of an
    [abstract.Suite]: secrets with multiplication and subtraction, points
    with addition and multiplication by a secret ([Mul(nil, k)] multiplies
    the base point), the marshalling of a point, and the secret picked from
    the cipher seeded with a buffer and fed a message. *)

Module Schnorr.

Class Suite : Type := {
  Secret : Type;
  Point : Type;
  SecretMul : Secret -> Secret -> Secret;
  SecretSub : Secret -> Secret -> Secret;
  SecretEqual : Secret -> Secret -> bool;
  PointMul : option Point -> Secret -> Point;
  PointAdd : Point -> Point -> Point;
  PointMarshalBinary : Point -> result bytes;
  CipherPick : bytes -> bytes -> Secret
}.

Section Signatures.

Context `{Suite}.

(** [SchnorrSig]. *)
Record SchnorrSig : Type := mkSchnorrSig {
  Challenge : Secret;
  Response : Secret
}.

(** The outcome of [VerifySchnorr]: [nil], the error of the hash, or the
    error telling that the reconstructed challenge differs. *)
Inductive verdict : Type :=
| Valid
| HashFailed (e : error)
| SignatureNotValid.

(** [hash]. *)
Definition hash (r : Point) (msg : bytes) : result Secret :=
  rBuf <- PointMarshalBinary r ;;
  Ok (CipherPick rBuf msg).

(** [SignSchnorr]; [k] is the secret picked from [random.Stream]. *)
Definition SignSchnorr (k : Secret) (private : Secret) (msg : bytes)
    : result SchnorrSig :=
  let r := PointMul None k in
  e <- hash r msg ;;
  let xe := SecretMul private e in
  let s := SecretSub k xe in
  Ok {| Challenge := e; Response := s |}.

(** [VerifySchnorr]. *)
Definition VerifySchnorr (public : Point) (msg : bytes) (sig : SchnorrSig)
    : verdict :=
  let gs := PointMul None (Response sig) in
  let ye := PointMul (Some public) (Challenge sig) in
  let rv := PointAdd gs ye in
  match hash rv msg with
  | Err err => HashFailed err
  | Ok e => if negb (SecretEqual e (Challenge sig)) then SignatureNotValid else Valid
  end.

(** The law of the group the suite computes in: the base point raised to
    [k - x * e], combined with the public key of [x] raised to [e], is
    the base point raised to [k]. *)
Definition group_law : Prop :=
  forall k x e : Secret,
    PointAdd (PointMul None (SecretSub k (SecretMul x e)))
             (PointMul (Some (PointMul None x)) e)
    = PointMul None k.

(** [Equal] holds of a secret and itself. *)
Definition equal_refl : Prop := forall a : Secret, SecretEqual a a = true.

End Signatures.

(** A sample suite: the integers under addition, with one as base
    point. *)
Definition sample_suite : Suite :=
  {| Secret := Z;
     Point := Z;
     SecretMul := Z.mul;
     SecretSub := Z.sub;
     SecretEqual := Z.eqb;
     PointMul := fun p s => match p with None => s | Some q => q * s end;
     PointAdd := Z.add;
     PointMarshalBinary := fun p => Ok (Sample.encZ p);
     CipherPick := fun rBuf msg => Z.of_nat (length rBuf + 3 * length msg) |}.

End Schnorr.

(** ** Peer names of the tree tests

    [genLocalhostPeerNames] and [genLocalDiffPeerNames] of the test file:
    a slice of [n] strings filled index by index; [strconv.Itoa] is the
    decimal notation of an [int]. A negative [n] makes [make] panic. *)

Module PeerNames.

Definition prefix : string := "localhost:".

Definition Itoa (i : Z) : string := pretty i.

(** [p + i] on [int] (64 bits). *)
Definition add64 (a b : Z) : Z := wrap64 (a + b).

(** [make([]string, n)] followed by the loop [for i := range names]. *)
Definition fill (n : nat) (name : nat -> string) : list string :=
  foldl (fun names i => <[i := name i]> names) (replicate n ""%string) (seq 0 n).

Definition genLocalhostPeerNames (n p : Z) : option (list string) :=
  if n <? 0 then None
  else Some (fill (Z.to_nat n) (fun i => (prefix ++ Itoa (add64 p (Z.of_nat i)))%string)).

Definition genLocalDiffPeerNames (n p : Z) : option (list string) :=
  if n <? 0 then None
  else Some (fill (Z.to_nat n)
               (fun i => ("local" ++ Itoa (Z.of_nat i) ++ ":2000")%string)).

End PeerNames.

(** ** Sample stores

    Views derived from the sample runs: one with an event record missing,
    one with the record of the first bucket missing, the view after
    [aging_run], and the proof the ledger returns for a stored event. *)

Module SampleStores.
Import Sample.

(** The addresses of the two buckets of [late_view]. *)
Definition head : bytes := Slice (DeriveID (tx_of "010" (ev 13 "a")) "bucket").
Definition sentinel : bytes := Slice (DeriveID (tx_of "010" (ev 13 "a")) "catch-all").

(** The two buckets of [late_view]. *)
Definition head_bucket : bucket :=
  {| Start := 13 * Second; Prev := sentinel; EventRefs := [ [b1; "010"%byte] ] |}.
Definition sentinel_bucket : bucket :=
  {| Start := 0; Prev := []; EventRefs := [ [b1; "011"%byte]; [b1; "012"%byte] ] |}.

(** [late_view] without the record of the event sent last. *)
Definition no_event : View := delete [b1; "012"%byte] late_view.

(** [late_view] without the record of its first bucket. *)
Definition no_sentinel : View := delete sentinel late_view.

(** An insertion older than the head bucket of [late_view]. *)
Definition older : Instruction.t := tx_of "020" (ev 12 "c").

(** The view after [aging_run]. *)
Definition aging_view : View :=
  match accepted service 3 first_view (tl aging_run) with
  | Some v => v
  | None => ∅
  end.

(** The proof of the first event of [late_run]: the key and the two values
    of its record. *)
Definition inclusion : Proof :=
  {| InclusionProofMatch := true;
     KeyValue := Ok ([b1; "010"%byte],
                     [encodeEvent (ev 13 "a"); bytes_of_string contractName]) |}.

(** A proof that carries one value only. *)
Definition short : Proof :=
  {| InclusionProofMatch := true;
     KeyValue := Ok ([b1; "010"%byte], [encodeEvent (ev 13 "a")]) |}.

End SampleStores.

(** * Properties *)

Section Properties.

Context `{Collaborators}.

(** ** Contract entry point and timestamp validation *)

Lemma contractFunction_spawn s now fuel v tx spawn c :
  Instruction.Delete tx = None ->
  Instruction.Invoke tx = None ->
  Instruction.Spawn tx = Some spawn ->
  contractFunction s now fuel v tx c =
    match insertEvent s now fuel v tx spawn with
    | Ok scs => (scs, [], None)
    | Err e => ([], [], Some e)
    end.
Proof.
  intros Hd Hi Hs. unfold contractFunction. rewrite Hd, Hi, Hs. reflexivity.
Qed.

(** An error return carries no state change. *)
Lemma contractFunction_error_no_change s now fuel v tx c e :
  failure (contractFunction s now fuel v tx c) = Some e ->
  changes (contractFunction s now fuel v tx c) = [].
Proof.
  unfold contractFunction, failure, changes.
  destruct (Instruction.Delete tx); [reflexivity|].
  destruct (Instruction.Invoke tx); [reflexivity|].
  destruct (Instruction.Spawn tx); [|reflexivity].
  destruct (insertEvent s now fuel v tx t); simpl; [discriminate | reflexivity].
Qed.

Lemma execute_error_unchanged s fuel v now tx e :
  failure (contractFunction s now fuel v tx []) = Some e ->
  execute s fuel v now tx = (v, Some e).
Proof.
  unfold execute, failure.
  destruct (contractFunction s now fuel v tx []) as [[scs cs] [e'|]]; simpl;
    intros [= ->]; reflexivity.
Qed.

Lemma decodeAndCheckEvent_decoded now buf event :
  decodeEvent buf = Ok event ->
  decodeAndCheckEvent now buf =
    if When event <? now - 5 * Second then Err ErrTimestampTooLongAgo
    else if now <? When event then Err ErrTimestampInFuture
    else Ok event.
Proof. intros Hd. unfold decodeAndCheckEvent. rewrite Hd. reflexivity. Qed.

Lemma decodeAndCheckEvent_cases now buf event :
  decodeEvent buf = Ok event ->
  (When event < now - 5 * Second /\
     decodeAndCheckEvent now buf = Err ErrTimestampTooLongAgo) \/
  (now - 5 * Second <= When event /\ now < When event /\
     decodeAndCheckEvent now buf = Err ErrTimestampInFuture) \/
  (now - 5 * Second <= When event <= now /\
     decodeAndCheckEvent now buf = Ok event).
Proof.
  intros Hd. rewrite (decodeAndCheckEvent_decoded _ _ _ Hd).
  destruct (Z.ltb_spec (When event) (now - 5 * Second)); [left; auto|].
  destruct (Z.ltb_spec now (When event)); [right; left; auto|].
  right; right. split; [lia | reflexivity].
Qed.

Lemma insertEvent_rejected s now fuel v tx spawn eventBuf e :
  ArgsSearch (Spawn.Args spawn) "event" = Some eventBuf ->
  decodeAndCheckEvent now eventBuf = Err e ->
  exists e', insertEvent s now fuel v tx spawn = Err e'.
Proof.
  intros Ha Hr. unfold insertEvent.
  destruct (GetContractState v tx) as [cid|e0]; simpl; [|eauto].
  rewrite Ha, Hr. simpl. eauto.
Qed.

(** C5. Timestamp validation of a decoded event against the clock reading
    [now]: it fails with the in-the-future error exactly when
    [event.when > now], with the too-old error exactly when
    [event.when < now - 5s], and accepts the event otherwise (so
    [when = now - 1s] is accepted); a transaction whose event is rejected
    returns an error with no state change, and the ledger view is left as
    it was. *)
Theorem C5_timestamp_validation (now : Z) (eventBuf : bytes) (event : Event) :
  decodeEvent eventBuf = Ok event ->
  (decodeAndCheckEvent now eventBuf = Err ErrTimestampInFuture <-> now < When event) /\
  (decodeAndCheckEvent now eventBuf = Err ErrTimestampTooLongAgo
     <-> When event < now - 5 * Second) /\
  (decodeAndCheckEvent now eventBuf = Ok event
     <-> now - 5 * Second <= When event <= now) /\
  (When event = now - 1 * Second -> decodeAndCheckEvent now eventBuf = Ok event) /\
  (forall s fuel v tx spawn c,
     Instruction.Delete tx = None ->
     Instruction.Invoke tx = None ->
     Instruction.Spawn tx = Some spawn ->
     ArgsSearch (Spawn.Args spawn) "event" = Some eventBuf ->
     ~ (now - 5 * Second <= When event <= now) ->
     exists e, contractFunction s now fuel v tx c = ([], [], Some e) /\
               execute s fuel v now tx = (v, Some e)).
Proof.
  intros Hd.
  pose proof (decodeAndCheckEvent_cases now eventBuf event Hd) as Hc.
  unfold Second in *.
  repeat split.
  - intros Hr. destruct Hc as [[? Hc]|[[? [? Hc]]|[? Hc]]]; congruence || lia.
  - intros Hw. destruct Hc as [[? Hc]|[[? [? Hc]]|[? Hc]]]; assumption || lia.
  - intros Hr. destruct Hc as [[? Hc]|[[? [? Hc]]|[? Hc]]]; congruence || lia.
  - intros Hw. destruct Hc as [[? Hc]|[[? [? Hc]]|[? Hc]]]; assumption || lia.
  - destruct Hc as [[? Hc]|[[? [? Hc]]|[? Hc]]]; congruence || lia.
  - destruct Hc as [[? Hc]|[[? [? Hc]]|[? Hc]]]; congruence || lia.
  - intros Hw. destruct Hc as [[? Hc]|[[? [? Hc]]|[? Hc]]]; assumption || lia.
  - intros Hw.
    destruct Hc as [[? Hc]|[[? [? Hc]]|[? Hc]]]; assumption || lia.
  - intros s fuel v tx spawn c HD HI HS HA Hrej.
    assert (Hr : exists e0, decodeAndCheckEvent now eventBuf = Err e0).
    { destruct Hc as [[? Hc]|[[? [? Hc]]|[? Hc]]]; eauto. contradiction. }
    destruct Hr as [e0 Hr].
    destruct (insertEvent_rejected s now fuel v tx spawn eventBuf e0 HA Hr)
      as [e' He'].
    assert (Hcf : forall c', contractFunction s now fuel v tx c' = ([], [], Some e')).
    { intros c'. rewrite (contractFunction_spawn _ _ _ _ _ _ _ HD HI HS), He'.
      reflexivity. }
    exists e'. split; [apply Hcf|].
    apply execute_error_unchanged. rewrite Hcf. reflexivity.
Qed.

(** C6. The contract entry point fails with an unsupported-operation
    error for every transaction that is a deletion or an invocation, and
    with a malformed-request error for every other transaction that is
    not a creation (spawn) request, or that is one (with a resolvable
    contract) but lacks the named event argument; no failure of the entry
    point, of whatever kind, emits a state change. *)
Theorem C6_entry_point_shape (s : Service) (now : Z) (fuel : nat) (v : View)
    (tx : Instruction.t) (c : list Coin) :
  (Instruction.Delete tx <> None \/ Instruction.Invoke tx <> None ->
     exists e, contractFunction s now fuel v tx c = ([], [], Some e) /\
               kindOf e = UnsupportedOperation) /\
  (Instruction.Delete tx = None -> Instruction.Invoke tx = None ->
   Instruction.Spawn tx = None ->
     exists e, contractFunction s now fuel v tx c = ([], [], Some e) /\
               kindOf e = MalformedRequest) /\
  (forall spawn cid,
     Instruction.Delete tx = None -> Instruction.Invoke tx = None ->
     Instruction.Spawn tx = Some spawn ->
     GetContractState v tx = Ok cid ->
     ArgsSearch (Spawn.Args spawn) "event" = None ->
     exists e, contractFunction s now fuel v tx c = ([], [], Some e) /\
               kindOf e = MalformedRequest) /\
  (forall e, failure (contractFunction s now fuel v tx c) = Some e ->
     changes (contractFunction s now fuel v tx c) = [] /\
     execute s fuel v now tx = (v, Some e)).
Proof.
  split; [|split; [|split; [|intros e He; split]]].
  - intros Hk. unfold contractFunction.
    destruct (Instruction.Delete tx) as [d|].
    + exists ErrDeleteNotAllowed. split; reflexivity.
    + destruct (Instruction.Invoke tx) as [i|].
      * exists ErrInvokeNotAllowed. split; reflexivity.
      * destruct Hk as [Hk|Hk]; contradiction.
  - intros Hd Hi Hs. unfold contractFunction. rewrite Hd, Hi, Hs.
    exists ErrExpectedSpawn. split; reflexivity.
  - intros spawn cid Hd Hi Hs Hg Ha.
    rewrite (contractFunction_spawn _ _ _ _ _ _ _ Hd Hi Hs).
    unfold insertEvent. rewrite Hg. simpl. rewrite Ha.
    exists ErrExpectedEventArg. split; reflexivity.
  - eapply contractFunction_error_no_change; exact He.
  - apply execute_error_unchanged. exact He.
Qed.

(** ** Single-event fetch *)

(** C9. [GetEvent] returns a decoded event only if the proof is an
    inclusion proof and the key it carries equals the requested key (the
    event being the decoding of the first value); when the proof is not an
    inclusion match, or the carried key differs from the requested one,
    it fails with an error and no event. *)
Theorem C9_get_event_checks (getProof : SkipBlockID -> bytes -> result Proof)
    (req : GetEventRequest) :
  (forall resp, GetEvent getProof req = Ok resp ->
     exists reply vs v0,
       getProof (SkipchainID req) (Key req) = Ok reply /\
       InclusionProofMatch reply = true /\
       KeyValue reply = Ok (Key req, v0 :: vs) /\
       decodeEvent v0 = Ok (RespEvent resp)) /\
  (forall reply, getProof (SkipchainID req) (Key req) = Ok reply ->
     InclusionProofMatch reply = false ->
     GetEvent getProof req = Err ErrNotInclusionProof) /\
  (forall reply k vs, getProof (SkipchainID req) (Key req) = Ok reply ->
     InclusionProofMatch reply = true ->
     KeyValue reply = Ok (k, vs) ->
     k <> Key req ->
     GetEvent getProof req = Err ErrWrongKey).
Proof.
  unfold GetEvent. repeat split.
  - intros resp.
    destruct (getProof (SkipchainID req) (Key req)) as [reply|e]; simpl; [|discriminate].
    destruct (InclusionProofMatch reply) eqn:Hm; simpl; [|discriminate].
    destruct (KeyValue reply) as [[k vs]|e] eqn:Hkv; simpl; [|discriminate].
    destruct (bool_decide_reflect (k = Key req)) as [->|Hne]; simpl; [|discriminate].
    destruct (length vs <? 2)%nat; [discriminate|].
    destruct vs as [|v0 vs]; [discriminate|].
    destruct (decodeEvent v0) as [ev0|e] eqn:Hde; simpl; [|discriminate].
    intros [= <-]. exists reply, vs, v0. auto.
  - intros reply -> Hm. simpl. rewrite Hm. reflexivity.
  - intros reply k vs -> Hm Hkv Hne. simpl. rewrite Hm, Hkv. simpl.
    rewrite bool_decide_eq_false_2 by assumption. reflexivity.
Qed.

(** ** Search: the two early exits *)

(** C10. A search whose ledger instance identifier is null fails with
    the error [skipchain ID required], whatever the ledger states, the
    cap, the clock and the rest of the request are: no state is consulted
    and no result is produced. *)
Theorem C10_search_null_id (req : SearchRequest) :
  IsNull (ID req) = true ->
  forall (omni : SkipBlockID -> View) (searchMax now1 now2 : Z) (fuel : nat),
    Search omni searchMax now1 now2 fuel req = Err ErrSkipchainIDRequired.
Proof.
  intros Hn omni searchMax now1 now2 fuel. unfold Search. rewrite Hn. reflexivity.
Qed.

Lemma getLatestBucket_missing (v : View) :
  v !! Slice theEventLog = None -> getLatestBucket v = Err errIndexMissing.
Proof. intros Hv. unfold getLatestBucket. rewrite Hv. reflexivity. Qed.

(** C8. When the queried ledger instance has no head pointer, so that
    reading the head signals [errIndexMissing], a search returns the empty
    result (no event, not truncated) and no error. *)
Theorem C8_search_empty_log (omni : SkipBlockID -> View)
    (searchMax now1 now2 : Z) (fuel : nat) (req : SearchRequest) :
  IsNull (ID req) = false ->
  omni (ID req) !! Slice theEventLog = None ->
  getLatestBucket (omni (ID req)) = Err errIndexMissing /\
  Search omni searchMax now1 now2 fuel req = Ok {| Events := []; Truncated := false |}.
Proof.
  intros Hn Hv. pose proof (getLatestBucket_missing _ Hv) as Hl.
  split; [exact Hl|].
  unfold Search. rewrite Hn, Hl. reflexivity.
Qed.


(** ** The writer *)

Lemma is_chain_head v id b c :
  is_chain v ((id, b) :: c) -> getBucketByID v id = Ok b.
Proof. simpl. tauto. Qed.

Lemma is_chain_last_first v id b :
  is_chain v [(id, b)] -> isFirst b = true.
Proof. simpl. tauto. Qed.

(** The backward walk on a chain: it passes every bucket whose start
    exceeds [when] and stops at the first bucket that starts at or before
    [when], or at the first bucket of the chain. *)
Lemma walkBack_chain v when bID b post :
  forall pre fuel hid hb isHead,
    is_chain v (pre ++ (bID, b) :: post) ->
    hd_error (pre ++ (bID, b) :: post) = Some (hid, hb) ->
    Forall (fun x => when < Start x.2) pre ->
    Start b <= when \/ post = [] ->
    (length pre <= fuel)%nat ->
    walkBack fuel v when hid hb isHead =
      Ok (bID, b, match pre with [] => isHead | _ :: _ => false end).
Proof.
  induction pre as [|[id0 b0] pre IH]; intros fuel hid hb isHead Hc Hh Hpre Hstop Hf.
  - simpl in Hh. injection Hh as <- <-.
    assert (Hgo : isFirst b = true \/ Start b <= when).
    { destruct Hstop as [Hs| ->]; [right; exact Hs|left].
      eapply is_chain_last_first; exact Hc. }
    destruct fuel; simpl.
    + destruct (isFirst b); [reflexivity|].
      destruct (Z.leb_spec (Start b) when); [reflexivity|].
      destruct Hgo; [discriminate | lia].
    + destruct (isFirst b); [reflexivity|].
      destruct (Z.leb_spec (Start b) when); [reflexivity|].
      destruct Hgo; [discriminate | lia].
  - simpl in Hh, Hc. injection Hh as <- <-.
    simpl in Hf. destruct fuel as [|fuel]; [lia|].
    inversion Hpre as [|? ? Hlt Hpre']; subst. simpl in Hlt.
    destruct (pre ++ (bID, b) :: post) as [|[id1 b1] rest] eqn:Hrest.
    { destruct pre; discriminate. }
    destruct Hc as (_ & Hnf & Hprev & Hc).
    simpl. rewrite Hnf.
    destruct (Z.leb_spec (Start b0) when); [lia|].
    rewrite Hprev, (is_chain_head _ _ _ _ Hc). simpl.
    rewrite (IH fuel id1 b1 false Hc eq_refl Hpre' Hstop ltac:(lia)).
    destruct pre; reflexivity.
Qed.

Lemma getLatestBucket_head v c hid hb :
  head_chain v c -> hd_error c = Some (hid, hb) ->
  getLatestBucket v = Ok (hid, hb).
Proof.
  intros [Hc (hid' & hb' & more & Hh & Hp)] Hh'.
  rewrite Hh in Hh'. injection Hh' as -> ->.
  destruct c as [|[i b] c]; [discriminate|]. simpl in Hh. injection Hh as -> ->.
  unfold getLatestBucket. rewrite Hp, (is_chain_head _ _ _ _ Hc). reflexivity.
Qed.

(** Insertion into an empty log. *)
Lemma insertEvent_bootstrap s now fuel v tx spawn cid eventBuf e :
  GetContractState v tx = Ok cid ->
  ArgsSearch (Spawn.Args spawn) "event" = Some eventBuf ->
  decodeAndCheckEvent now eventBuf = Ok e ->
  getLatestBucket v = Err errIndexMissing ->
  insertEvent s now fuel v tx spawn =
    (sbuf <- encodeBucket {| Start := 0; Prev := []; EventRefs := [] |} ;;
     hbuf <- encodeBucket {| Start := When e;
                             Prev := Slice (DeriveID tx "catch-all");
                             EventRefs := [Slice (Instruction.ObjectID tx)] |} ;;
     Ok [ NewStateChange Create (Instruction.ObjectID tx) cid eventBuf;
          NewStateChange Create (DeriveID tx "catch-all") cid sbuf;
          NewStateChange Create (DeriveID tx "bucket") cid hbuf;
          NewStateChange Create theEventLog cid (Slice (DeriveID tx "bucket")) ]).
Proof.
  intros Hg Ha Hd Hl. unfold insertEvent.
  rewrite Hg. simpl. rewrite Ha, Hd. simpl. rewrite Hl. simpl.
  destruct (encodeBucket {| Start := 0; Prev := []; EventRefs := [] |}); simpl;
    [|reflexivity].
  destruct (encodeBucket _); reflexivity.
Qed.

(** Insertion into a non-empty log, in terms of the chain. *)
Lemma insertEvent_placement s now fuel v tx spawn cid eventBuf e pre bID b post :
  GetContractState v tx = Ok cid ->
  ArgsSearch (Spawn.Args spawn) "event" = Some eventBuf ->
  decodeAndCheckEvent now eventBuf = Ok e ->
  head_chain v (pre ++ (bID, b) :: post) ->
  Forall (fun x => When e < Start x.2) pre ->
  Start b <= When e \/ post = [] ->
  (length pre <= fuel)%nat ->
  insertEvent s now fuel v tx spawn =
    if bool_decide (pre = []) && (bucketMaxAge s <? sub64 (When e) (Start b))
    then
      buf <- encodeBucket {| Start := When e; Prev := bID;
                             EventRefs := [Slice (Instruction.ObjectID tx)] |} ;;
      Ok [ NewStateChange Create (Instruction.ObjectID tx) cid eventBuf;
           NewStateChange Create (DeriveID tx "bucket") cid buf;
           NewStateChange Update theEventLog cid (Slice (DeriveID tx "bucket")) ]
    else
      buf <- encodeBucket {| Start := Start b; Prev := Prev b;
                             EventRefs := EventRefs b ++ [Slice (Instruction.ObjectID tx)] |} ;;
      Ok [ NewStateChange Create (Instruction.ObjectID tx) cid eventBuf;
           {| StateChange.Action := Update;
              StateChange.ObjectID := bID;
              StateChange.ContractID := bytes_of_string contractName;
              StateChange.Value := buf |} ].
Proof.
  intros Hg Ha Hd Hhc Hpre Hstop Hf. unfold insertEvent.
  rewrite Hg. simpl. rewrite Ha, Hd. simpl.
  destruct (hd_error (pre ++ (bID, b) :: post)) as [[hid hb]|] eqn:Hh.
  2:{ destruct pre; discriminate. }
  rewrite (getLatestBucket_head _ _ _ _ Hhc Hh). simpl.
  rewrite (walkBack_chain v (When e) bID b post pre fuel hid hb true
             (proj1 Hhc) Hh Hpre Hstop Hf). simpl.
  destruct pre as [|x pre].
  - rewrite bool_decide_eq_true_2 by reflexivity. simpl.
    destruct (bucketMaxAge s <? sub64 (When e) (Start b)); simpl.
    + destruct (encodeBucket _); reflexivity.
    + destruct (encodeBucket _); reflexivity.
  - rewrite bool_decide_eq_false_2 by discriminate. simpl.
    destruct (encodeBucket _); reflexivity.
Qed.

(** C3. Inserting the first event into an empty log (no head pointer,
    signalled by [errIndexMissing]) emits exactly four creations, in this
    order: the event record; the sentinel bucket with start 0, no
    predecessor and no event reference; the first head bucket with start
    [e.when], predecessor the sentinel's address and the event's address
    as its only reference; and the head-pointer record naming the new
    head. *)
Theorem C3_bootstrap (s : Service) (now : Z) (fuel : nat) (v : View)
    (tx : Instruction.t) (spawn : Spawn.t) (c : list Coin)
    (cid : string) (eventBuf : bytes) (e : Event) (sbuf hbuf : bytes) :
  Instruction.Delete tx = None ->
  Instruction.Invoke tx = None ->
  Instruction.Spawn tx = Some spawn ->
  GetContractState v tx = Ok cid ->
  ArgsSearch (Spawn.Args spawn) "event" = Some eventBuf ->
  decodeAndCheckEvent now eventBuf = Ok e ->
  v !! Slice theEventLog = None ->
  encodeBucket {| Start := 0; Prev := []; EventRefs := [] |} = Ok sbuf ->
  encodeBucket {| Start := When e;
                  Prev := Slice (DeriveID tx "catch-all");
                  EventRefs := [Slice (Instruction.ObjectID tx)] |} = Ok hbuf ->
  getLatestBucket v = Err errIndexMissing /\
  contractFunction s now fuel v tx c =
    ([ NewStateChange Create (Instruction.ObjectID tx) cid eventBuf;
       NewStateChange Create (DeriveID tx "catch-all") cid sbuf;
       NewStateChange Create (DeriveID tx "bucket") cid hbuf;
       NewStateChange Create theEventLog cid (Slice (DeriveID tx "bucket")) ],
     [], None).
Proof.
  intros HD HI HS Hg Ha Hd Hp Hsb Hhb.
  pose proof (getLatestBucket_missing _ Hp) as Hl. split; [exact Hl|].
  rewrite (contractFunction_spawn _ _ _ _ _ _ _ HD HI HS).
  rewrite (insertEvent_bootstrap _ _ _ _ _ _ _ _ _ Hg Ha Hd Hl).
  rewrite Hsb. simpl. rewrite Hhb. reflexivity.
Qed.


(** ** The reader *)

Lemma walkBuckets_chain v from to :
  forall c id b fuel bEnd acc,
    is_chain v ((id, b) :: c) ->
    (length c <= fuel)%nat ->
    walkBuckets fuel v from to bEnd b acc =
      Ok (acc ++ overlapping Start from to bEnd (b :: map snd c)).
Proof.
  induction c as [|[id1 b1] c IH]; intros id b fuel bEnd acc Hc Hf.
  - apply is_chain_last_first in Hc.
    destruct fuel; simpl; rewrite Hc;
      destruct (bEnd <? from); rewrite ?app_nil_r; try reflexivity;
      destruct (to <? Start b); rewrite ?app_nil_r; reflexivity.
  - destruct Hc as (_ & Hnf & Hprev & Hc).
    simpl in Hf. destruct fuel as [|fuel]; [lia|].
    cbn [walkBuckets]. rewrite Hnf.
    cbn [overlapping map snd].
    destruct (bEnd <? from); [rewrite app_nil_r; reflexivity|].
    rewrite Hprev, (is_chain_head _ _ _ _ Hc).
    rewrite (IH id1 b1 fuel (Start b) _ Hc ltac:(lia)).
    cbn [map snd]. destruct (to <? Start b); cbn [app];
      rewrite <- ?app_assoc; reflexivity.
Qed.

Lemma cap_test searchMax (n : nat) :
  (0 < n)%nat ->
  (searchMax <=? Z.of_nat n) = (capCount searchMax <=? n)%nat.
Proof.
  intros Hn. unfold capCount.
  destruct (Z.leb_spec searchMax (Z.of_nat n));
    destruct (Nat.leb_spec (Z.to_nat (Z.max 1 searchMax)) n); lia.
Qed.

Lemma capCount_pos searchMax : (0 < capCount searchMax)%nat.
Proof. unfold capCount. lia. Qed.

Lemma filterRefs_resolved v from to topic searchMax :
  forall refs evs acc,
    resolves v refs evs ->
    (length acc < capCount searchMax)%nat ->
    filterRefs v from to topic searchMax refs acc =
      collected searchMax acc (List.filter (matches from to topic) evs).
Proof.
  unfold collected.
  induction refs as [|r refs IH]; intros evs acc Hr Hacc.
  - inversion Hr; subst. simpl.
    rewrite Nat.add_0_r, app_nil_r.
    destruct (Nat.leb_spec (capCount searchMax) (length acc)); [lia|reflexivity].
  - inversion Hr as [|? ev ? evs' Hev Hr']; subst.
    cbn [filterRefs List.filter]. rewrite Hev. cbn [bind].
    destruct (matches from to topic ev).
    + rewrite cap_test by (rewrite length_app; simpl; lia).
      rewrite length_app. cbn [length].
      destruct (Nat.leb_spec (capCount searchMax) (length acc + 1)) as [Hle|Hgt].
      * destruct (Nat.leb_spec (capCount searchMax)
                    (length acc + S (length (List.filter (matches from to topic) evs'))));
          [|lia].
        replace (capCount searchMax - length acc)%nat with 1%nat by lia.
        reflexivity.
      * rewrite (IH evs' (acc ++ [ev]) Hr') by (rewrite length_app; simpl; lia).
        rewrite length_app. cbn [length].
        replace (length acc + 1 + length (List.filter (matches from to topic) evs'))%nat
          with (length acc + S (length (List.filter (matches from to topic) evs')))%nat
          by lia.
        destruct (Nat.leb_spec (capCount searchMax)
                    (length acc + S (length (List.filter (matches from to topic) evs')))).
        -- replace (capCount searchMax - length acc)%nat
             with (S (capCount searchMax - (length acc + 1)))%nat by lia.
           cbn [firstn]. rewrite <- app_assoc. reflexivity.
        -- rewrite <- app_assoc. reflexivity.
    + apply IH; assumption.
Qed.

Lemma filterBuckets_resolved v from to topic searchMax :
  forall bs evss acc,
    Forall2 (fun b evs => resolves v (EventRefs b) evs) bs evss ->
    (length acc < capCount searchMax)%nat ->
    filterBuckets v from to topic searchMax bs acc =
      collected searchMax acc (List.filter (matches from to topic) (concat evss)).
Proof.
  induction bs as [|b bs IH]; intros evss acc Hr Hacc.
  - inversion Hr; subst. unfold collected. simpl.
    rewrite Nat.add_0_r, app_nil_r.
    destruct (Nat.leb_spec (capCount searchMax) (length acc)); [lia|reflexivity].
  - inversion Hr as [|? evs ? evss' Hev Hr']; subst.
    cbn [filterBuckets concat].
    rewrite (filterRefs_resolved v from to topic searchMax _ _ _ Hev Hacc).
    rewrite List.filter_app.
    set (ms1 := List.filter (matches from to topic) evs).
    set (ms2 := List.filter (matches from to topic) (concat evss')).
    unfold collected at 1.
    destruct (Nat.leb_spec (capCount searchMax) (length acc + length ms1)) as [Hle|Hgt];
      cbn [bind].
    + unfold collected. rewrite length_app.
      destruct (Nat.leb_spec (capCount searchMax)
                  (length acc + (length ms1 + length ms2))); [|lia].
      rewrite firstn_app.
      replace (capCount searchMax - length acc - length ms1)%nat with 0%nat by lia.
      cbn [firstn]. rewrite app_nil_r. reflexivity.
    + rewrite (IH evss' (acc ++ ms1) Hr') by (rewrite length_app; lia).
      fold ms2. unfold collected. rewrite !length_app.
      replace (length acc + length ms1 + length ms2)%nat
        with (length acc + (length ms1 + length ms2))%nat by lia.
      destruct (Nat.leb_spec (capCount searchMax)
                  (length acc + (length ms1 + length ms2))).
      * rewrite firstn_app.
        rewrite (firstn_all2 (n := (capCount searchMax - length acc)%nat) ms1) by lia.
        replace (capCount searchMax - (length acc + length ms1))%nat
          with (capCount searchMax - length acc - length ms1)%nat by lia.
        rewrite <- app_assoc. reflexivity.
      * rewrite <- app_assoc. reflexivity.
Qed.

(** The result of a search over a well-formed log, in one equation. *)
Lemma Search_chain omni searchMax now1 now2 fuel req c evss :
  IsNull (ID req) = false ->
  head_chain (omni (ID req)) c ->
  (length c <= S fuel)%nat ->
  Forall2 (fun b evs => resolves (omni (ID req)) (EventRefs b) evs)
    (rev (overlapping Start (From req) (upper now1 req) now2 (map snd c))) evss ->
  Search omni searchMax now1 now2 fuel req =
    Ok {| Events :=
            (capped searchMax
               (List.filter (matches (From req) (upper now1 req) (ReqTopic req))
                  (concat evss))).1;
          Truncated :=
            (capped searchMax
               (List.filter (matches (From req) (upper now1 req) (ReqTopic req))
                  (concat evss))).2 |}.
Proof.
  intros Hn Hhc Hf Hres. unfold Search. rewrite Hn.
  destruct c as [|[hid hb] c]; [destruct Hhc as [[] _]|].
  rewrite (getLatestBucket_head _ _ hid hb Hhc eq_refl).
  fold (upper now1 req).
  rewrite (walkBuckets_chain _ _ _ c hid hb fuel now2 [] (proj1 Hhc)
             ltac:(simpl in Hf; lia)).
  cbn [bind app]. cbn [map snd] in Hres.
  rewrite (filterBuckets_resolved _ _ _ _ searchMax _ _ [] Hres (capCount_pos _)).
  unfold collected, capped. cbn [length app Nat.add fst snd].
  rewrite Nat.sub_0_r.
  set (ms := List.filter _ _).
  destruct (Nat.leb_spec (capCount searchMax) (length ms)); cbn [bind];
    [reflexivity|].
  rewrite firstn_all2 by lia. reflexivity.
Qed.


(** ** The view under the ledger's updates *)

Lemma getBucketByID_insert_eq (v : View) k buf more :
  getBucketByID (<[k := VBytes buf :: more]> v) k = decodeBucket buf.
Proof. unfold getBucketByID. rewrite lookup_insert_eq. reflexivity. Qed.

Lemma getBucketByID_insert_ne (v : View) k id r :
  k <> id -> getBucketByID (<[k := r]> v) id = getBucketByID v id.
Proof. intros Hne. unfold getBucketByID. rewrite lookup_insert_ne by exact Hne. reflexivity. Qed.

Lemma getEventByID_insert_eq (v : View) k buf more :
  getEventByID (<[k := VBytes buf :: more]> v) k = decodeEvent buf.
Proof. unfold getEventByID. rewrite lookup_insert_eq. reflexivity. Qed.

Lemma getEventByID_insert_ne (v : View) k id r :
  k <> id -> getEventByID (<[k := r]> v) id = getEventByID v id.
Proof. intros Hne. unfold getEventByID. rewrite lookup_insert_ne by exact Hne. reflexivity. Qed.

Lemma getBucketByID_stored (v : View) id b :
  getBucketByID v id = Ok b -> v !! id <> None.
Proof. unfold getBucketByID. destruct (v !! id); [discriminate | discriminate]. Qed.

Lemma getEventByID_stored (v : View) id e :
  getEventByID v id = Ok e -> v !! id <> None.
Proof. unfold getEventByID. destruct (v !! id); [discriminate | discriminate]. Qed.

Lemma is_chain_iff v c :
  is_chain v c <-> linked c /\ Forall (fun x => getBucketByID v x.1 = Ok x.2) c.
Proof.
  induction c as [|[id b] c IH]; [simpl; tauto|].
  destruct c as [|[id' b'] c].
  - simpl. split.
    + intros [Hg Hf]. split; [exact Hf|]. constructor; [exact Hg | constructor].
    + intros [Hf Hall]. inversion Hall; subst. auto.
  - change (is_chain v ((id, b) :: (id', b') :: c))
      with (getBucketByID v id = Ok b /\ isFirst b = false /\ Prev b = id' /\
            is_chain v ((id', b') :: c)).
    change (linked ((id, b) :: (id', b') :: c))
      with (isFirst b = false /\ Prev b = id' /\ linked ((id', b') :: c)).
    rewrite IH. split.
    + intros (Hg & Hnf & Hp & Hl & Hall). repeat split; try assumption.
      constructor; assumption.
    + intros ((Hnf & Hp & Hl) & Hall). inversion Hall; subst. auto.
Qed.

(** The links only depend on the addresses and the [Prev] fields. *)
Lemma linked_ext (c c' : list (bytes * bucket)) :
  map (fun x => (x.1, Prev x.2)) c = map (fun x => (x.1, Prev x.2)) c' ->
  linked c -> linked c'.
Proof.
  revert c'. induction c as [|[id b] c IH]; intros [|[id' b'] c'] Hm; try discriminate.
  - simpl. tauto.
  - simpl in Hm. injection Hm as Hid Hp Hm. subst id'.
    destruct c as [|[i1 b1] c]; destruct c' as [|[i1' b1'] c']; try discriminate.
    + simpl. unfold isFirst. rewrite Hp. tauto.
    + intros (Hnf & Hpv & Hl).
      pose proof Hm as Hm'. simpl in Hm'. injection Hm' as Hi1 _ _.
      split; [unfold isFirst in *; rewrite <- Hp; exact Hnf|].
      split; [congruence|].
      apply IH; assumption.
Qed.

(** ** Acceptance, inverted *)

Lemma execute_accepted s fuel v now tx v' :
  execute s fuel v now tx = (v', None) ->
  exists spawn cid eventBuf e scs,
    Instruction.Delete tx = None /\
    Instruction.Invoke tx = None /\
    Instruction.Spawn tx = Some spawn /\
    GetContractState v tx = Ok cid /\
    ArgsSearch (Spawn.Args spawn) "event" = Some eventBuf /\
    decodeEvent eventBuf = Ok e /\
    decodeAndCheckEvent now eventBuf = Ok e /\
    now - 5 * Second <= When e <= now /\
    insertEvent s now fuel v tx spawn = Ok scs /\
    v' = applyStateChanges v scs.
Proof.
  unfold execute, contractFunction.
  destruct (Instruction.Delete tx) eqn:HD; [discriminate|].
  destruct (Instruction.Invoke tx) eqn:HI; [discriminate|].
  destruct (Instruction.Spawn tx) as [spawn|] eqn:HS; [|discriminate].
  destruct (insertEvent s now fuel v tx spawn) as [scs|err] eqn:Hins; [|discriminate].
  intros [= <-].
  pose proof Hins as Hins'. unfold insertEvent in Hins'.
  destruct (GetContractState v tx) as [cid|] eqn:Hg; [|discriminate].
  simpl in Hins'.
  destruct (ArgsSearch (Spawn.Args spawn) "event") as [eventBuf|] eqn:Ha; [|discriminate].
  destruct (decodeAndCheckEvent now eventBuf) as [e|] eqn:Hd; [|discriminate].
  assert (Hde : decodeEvent eventBuf = Ok e).
  { unfold decodeAndCheckEvent in Hd.
    destruct (decodeEvent eventBuf) as [e0|]; [|discriminate]. simpl in Hd.
    destruct (When e0 <? now - 5 * Second); [discriminate|].
    destruct (now <? When e0); [discriminate|]. congruence. }
  exists spawn, cid, eventBuf, e, scs. repeat split; try assumption; try reflexivity.
  - destruct (decodeAndCheckEvent_cases now eventBuf e Hde)
      as [[? Hc]|[[? [? Hc]]|[? Hc]]]; try congruence. lia.
  - destruct (decodeAndCheckEvent_cases now eventBuf e Hde)
      as [[? Hc]|[[? [? Hc]]|[? Hc]]]; try congruence. lia.
Qed.

Lemma event_of_accepted tx spawn eventBuf e :
  Instruction.Spawn tx = Some spawn ->
  ArgsSearch (Spawn.Args spawn) "event" = Some eventBuf ->
  decodeEvent eventBuf = Ok e ->
  event_of tx = Some e.
Proof. intros HS Ha Hd. unfold event_of. rewrite HS, Ha, Hd. reflexivity. Qed.


(** ** The representation of a log in a view *)

Lemma represents_intro v hid hb hevs L0 more :
  let L := (hid, hb, hevs) :: L0 in
  linked (map fst L) ->
  Forall (fun x => getBucketByID v (entry_id x) = Ok (entry_bucket x)) L ->
  v !! Slice theEventLog = Some (VBytes hid :: more) ->
  NoDup (map entry_id L) ->
  ~ In [] (map entry_id L) ->
  ~ In (Slice theEventLog) (map entry_id L) ->
  Forall (fun x =>
            resolves v (EventRefs (entry_bucket x)) (entry_events x) /\
            Forall (fun r => ~ In r (map entry_id L) /\ r <> Slice theEventLog)
              (EventRefs (entry_bucket x))) L ->
  represents v L.
Proof.
  intros L Hl Hst Hp Hnd Hne Hnp Hev.
  unfold represents. subst L. cbv zeta.
  split; [|auto].
  split.
  - apply is_chain_iff. split; [exact Hl|].
    rewrite Forall_map. exact Hst.
  - exists hid, hb, more. split; [reflexivity | exact Hp].
Qed.

Lemma represents_elim v x L0 :
  let L := x :: L0 in
  represents v L ->
  linked (map fst L) /\
  Forall (fun x => getBucketByID v (entry_id x) = Ok (entry_bucket x)) L /\
  (exists more, v !! Slice theEventLog = Some (VBytes (entry_id x) :: more)) /\
  NoDup (map entry_id L) /\
  ~ In [] (map entry_id L) /\
  ~ In (Slice theEventLog) (map entry_id L) /\
  Forall (fun x =>
            resolves v (EventRefs (entry_bucket x)) (entry_events x) /\
            Forall (fun r => ~ In r (map entry_id L) /\ r <> Slice theEventLog)
              (EventRefs (entry_bucket x))) L.
Proof.
  intros L. unfold represents. subst L. cbv zeta.
  intros ([Hc (hid & hb & more & Hh & Hp)] & Hnd & Hne & Hnp & Hev).
  apply is_chain_iff in Hc. destruct Hc as [Hl Hst].
  rewrite Forall_map in Hst.
  repeat split; try assumption.
  exists more. destruct x as [[i b] evs]. simpl in Hh. injection Hh as <- <-.
  exact Hp.
Qed.

Lemma stored_ids v (L : list (bytes * bucket * list Event)) id :
  Forall (fun x => getBucketByID v (entry_id x) = Ok (entry_bucket x)) L ->
  In id (map entry_id L) -> v !! id <> None.
Proof.
  intros Hst Hin. apply in_map_iff in Hin. destruct Hin as (x & <- & Hx).
  rewrite List.Forall_forall in Hst.
  eapply getBucketByID_stored. apply Hst. exact Hx.
Qed.

Lemma resolves_stored v refs evs r :
  resolves v refs evs -> In r refs -> v !! r <> None.
Proof.
  induction 1 as [|r0 e0 refs evs Hr _ IH]; intros Hin; [destruct Hin|].
  destruct Hin as [<-|Hin]; [eapply getEventByID_stored; exact Hr | auto].
Qed.

Lemma resolves_ext v v' refs evs :
  (forall r, In r refs -> getEventByID v' r = getEventByID v r) ->
  resolves v refs evs -> resolves v' refs evs.
Proof.
  intros Hext Hr. induction Hr as [|r e refs evs Hre Hr IH]; constructor.
  - rewrite Hext by (left; reflexivity). exact Hre.
  - apply IH. intros r' Hin. apply Hext. right. exact Hin.
Qed.

Lemma linked_tail id b c : linked ((id, b) :: c) -> isFirst b = false -> linked c.
Proof. destruct c as [|[i1 b1] c]; simpl; [congruence | tauto]. Qed.

(** Where an appended event goes in a linked chain. *)
Lemma attach_split e addr :
  forall L : list (bytes * bucket * list Event),
    linked (map fst L) ->
    exists pre id b evs post,
      L = pre ++ (id, b, evs) :: post /\
      Forall (fun x => When e < Start (entry_bucket x)) pre /\
      (Start b <= When e \/ post = []) /\
      attach e addr L = pre ++ (id, addRef b addr, evs ++ [e]) :: post /\
      match L with
      | [] => True
      | x :: _ =>
          (isFirst (entry_bucket x) || (Start (entry_bucket x) <=? When e))
          = bool_decide (pre = [])
      end.
Proof.
  induction L as [|[[id b] evs] L IH]; intros Hl; [destruct Hl|].
  destruct (isFirst b || (Start b <=? When e)) eqn:Hc.
  - exists [], id, b, evs, L. cbn [attach app entry_bucket fst snd]. rewrite Hc.
    split; [reflexivity|]. split; [constructor|].
    split; [|split; [reflexivity | rewrite bool_decide_eq_true_2; reflexivity]].
    destruct (Z.leb_spec (Start b) (When e)); [left; assumption|].
    rewrite orb_false_r in Hc. right.
    destruct L as [|[[i1 b1] e1] L]; [reflexivity|].
    destruct Hl as (Hnf & _). congruence.
  - apply orb_false_iff in Hc. destruct Hc as [Hnf Hlt].
    pose proof (linked_tail id b (map fst L) Hl Hnf) as Hl'.
    destruct (IH Hl') as (pre & id' & b' & evs' & post & HL & Hpre & Hstop & Hatt & _).
    exists ((id, b, evs) :: pre), id', b', evs', post.
    cbn [attach app entry_bucket fst snd]. rewrite Hnf, Hlt. cbn [orb].
    split; [rewrite HL at 1; reflexivity|].
    split.
    { constructor; [|exact Hpre]. cbn [entry_bucket fst snd].
      destruct (Z.leb_spec (Start b) (When e)); [discriminate | lia]. }
    split; [exact Hstop|].
    split; [rewrite Hatt; reflexivity|].
    rewrite bool_decide_eq_false_2; [reflexivity | discriminate].
Qed.


Lemma fresh_distinct v tx :
  fresh v tx ->
  let ptr := Slice theEventLog in
  let addr := Slice (Instruction.ObjectID tx) in
  let newBid := Slice (DeriveID tx "bucket") in
  let catchID := Slice (DeriveID tx "catch-all") in
  ptr <> addr /\ ptr <> newBid /\ ptr <> catchID /\
  addr <> newBid /\ addr <> catchID /\ newBid <> catchID.
Proof.
  intros (_ & _ & _ & Hnd & _). cbv zeta.
  inversion Hnd as [|? ? Hn1 Hnd1]; subst.
  inversion Hnd1 as [|? ? Hn2 Hnd2]; subst.
  inversion Hnd2 as [|? ? Hn3 _]; subst.
  rewrite !list_elem_of_In in *. simpl in Hn1, Hn2, Hn3.
  repeat split; intros Heq; rewrite Heq in *; tauto.
Qed.

Ltac view_lookup :=
  repeat first
    [ rewrite getBucketByID_insert_eq
    | rewrite getEventByID_insert_eq
    | rewrite lookup_insert_eq
    | rewrite getBucketByID_insert_ne by congruence
    | rewrite getEventByID_insert_ne by congruence
    | rewrite lookup_insert_ne by congruence ].

(** Bootstrap: the view after the four creations stores the two-bucket
    log. *)
Lemma represents_bootstrap v tx maxAge cid eventBuf e sbuf hbuf :
  v !! Slice theEventLog = None ->
  fresh v tx ->
  decodeEvent eventBuf = Ok e ->
  decodeBucket sbuf = Ok {| Start := 0; Prev := []; EventRefs := [] |} ->
  decodeBucket hbuf = Ok {| Start := When e;
                            Prev := Slice (DeriveID tx "catch-all");
                            EventRefs := [Slice (Instruction.ObjectID tx)] |} ->
  represents
    (applyStateChanges v
       [ NewStateChange Create (Instruction.ObjectID tx) cid eventBuf;
         NewStateChange Create (DeriveID tx "catch-all") cid sbuf;
         NewStateChange Create (DeriveID tx "bucket") cid hbuf;
         NewStateChange Create theEventLog cid (Slice (DeriveID tx "bucket")) ])
    (place maxAge e (Slice (Instruction.ObjectID tx))
       (Slice (DeriveID tx "bucket")) (Slice (DeriveID tx "catch-all")) []).
Proof.
  intros Hp Hfr Hde Hds Hdh.
  destruct (fresh_distinct v tx Hfr) as (N1 & N2 & N3 & N4 & N5 & N6).
  destruct Hfr as (_ & _ & _ & _ & Hnb & Hnc).
  unfold applyStateChanges, applyStateChange, NewStateChange, place.
  cbn [fold_left StateChange.Action StateChange.ObjectID StateChange.Value
       StateChange.ContractID].
  eapply represents_intro.
  - cbn [map fst linked]. unfold isFirst. cbn [Prev].
    destruct (Slice (DeriveID tx "catch-all")); [congruence|]. auto.
  - repeat constructor; cbn [entry_id entry_bucket fst snd]; view_lookup; assumption.
  - view_lookup. reflexivity.
  - cbn [map entry_id fst]. repeat constructor; rewrite ?list_elem_of_In; simpl; intuition congruence.
  - cbn [map entry_id fst]. simpl. intuition congruence.
  - cbn [map entry_id fst]. simpl. intuition congruence.
  - repeat constructor; cbn [entry_id entry_bucket entry_events fst snd EventRefs map];
      try (view_lookup; assumption); simpl; intuition congruence.
Qed.

(** New head: the view after the three changes stores the log with the
    new head in front. *)
Lemma represents_new_head v tx cid eventBuf e nbuf hid hb hevs L0 :
  let L := (hid, hb, hevs) :: L0 in
  let nb := {| Start := When e; Prev := hid;
               EventRefs := [Slice (Instruction.ObjectID tx)] |} in
  represents v L ->
  fresh v tx ->
  decodeEvent eventBuf = Ok e ->
  decodeBucket nbuf = Ok nb ->
  represents
    (applyStateChanges v
       [ NewStateChange Create (Instruction.ObjectID tx) cid eventBuf;
         NewStateChange Create (DeriveID tx "bucket") cid nbuf;
         NewStateChange Update theEventLog cid (Slice (DeriveID tx "bucket")) ])
    ((Slice (DeriveID tx "bucket"), nb, [e]) :: L).
Proof.
  intros L nb Hrep Hfr Hde Hdn.
  destruct (represents_elim v _ _ Hrep)
    as (Hl & Hst & (more & Hp) & Hnd & Hne & Hnp & Hev).
  destruct (fresh_distinct v tx Hfr) as (N1 & N2 & N3 & N4 & N5 & N6).
  destruct Hfr as (Fa & Fb & _ & _ & Hnb & _).
  fold L in Hl, Hst, Hnd, Hne, Hnp, Hev.
  assert (Hids : forall id, In id (map entry_id L) ->
            id <> Slice (Instruction.ObjectID tx) /\
            id <> Slice (DeriveID tx "bucket") /\
            id <> Slice theEventLog).
  { intros id Hin. pose proof (stored_ids v L id Hst Hin).
    repeat split; congruence. }
  unfold applyStateChanges, applyStateChange, NewStateChange.
  cbn [fold_left StateChange.Action StateChange.ObjectID StateChange.Value
       StateChange.ContractID].
  eapply represents_intro.
  - change (map fst ((Slice (DeriveID tx "bucket"), nb, [e]) :: L))
      with ((Slice (DeriveID tx "bucket"), nb) :: (hid, hb) :: map fst L0).
    cbn [linked]. split; [|split; [reflexivity | exact Hl]].
    unfold isFirst, nb. cbn [Prev]. destruct hid; [|reflexivity].
    exfalso. apply Hne. left. reflexivity.
  - constructor.
    + cbn [entry_id entry_bucket fst snd]. view_lookup. exact Hdn.
    + rewrite List.Forall_forall in *. intros x Hx.
      destruct (Hids (entry_id x) (in_map entry_id _ _ Hx)) as (A1 & A2 & A3).
      view_lookup. apply Hst. exact Hx.
  - view_lookup. reflexivity.
  - cbn [map entry_id fst]. constructor; [|exact Hnd].
    rewrite list_elem_of_In. intros Hin.
    destruct (Hids _ Hin) as (_ & A & _). apply A. reflexivity.
  - cbn [map entry_id fst]. intros [Hin|Hin]; [congruence | contradiction].
  - cbn [map entry_id fst]. intros [Hin|Hin]; [congruence | contradiction].
  - constructor.
    + cbn [entry_id entry_bucket entry_events fst snd EventRefs nb]. split.
      * repeat constructor. view_lookup. exact Hde.
      * repeat constructor; [|congruence].
        cbn [map entry_id fst]. intros [Hin|Hin]; [congruence|].
        destruct (Hids _ Hin) as (A & _). apply A. reflexivity.
    + rewrite List.Forall_forall in *. intros x Hx.
      destruct (Hev x Hx) as [Hres Hrefs]. split.
      * eapply resolves_ext; [|exact Hres]. intros r Hr.
        pose proof (resolves_stored _ _ _ r Hres Hr).
        rewrite List.Forall_forall in Hrefs. destruct (Hrefs r Hr) as [_ Hrp].
        view_lookup. reflexivity.
      * rewrite List.Forall_forall in *. intros r Hr.
        destruct (Hrefs r Hr) as [Hri Hrp]. split; [|exact Hrp].
        cbn [map entry_id fst]. intros [Hin|Hin]; [|contradiction].
        pose proof (resolves_stored _ _ _ r Hres Hr). congruence.
Qed.


Lemma represents_elim' v (L : list (bytes * bucket * list Event)) :
  L <> [] ->
  represents v L ->
  linked (map fst L) /\
  Forall (fun x => getBucketByID v (entry_id x) = Ok (entry_bucket x)) L /\
  (exists hid more, hd_error (map entry_id L) = Some hid /\
                    v !! Slice theEventLog = Some (VBytes hid :: more)) /\
  NoDup (map entry_id L) /\
  ~ In [] (map entry_id L) /\
  ~ In (Slice theEventLog) (map entry_id L) /\
  Forall (fun x =>
            resolves v (EventRefs (entry_bucket x)) (entry_events x) /\
            Forall (fun r => ~ In r (map entry_id L) /\ r <> Slice theEventLog)
              (EventRefs (entry_bucket x))) L.
Proof.
  destruct L as [|x L0]; [congruence|]. intros _ Hrep.
  destruct (represents_elim v _ _ Hrep)
    as (Hl & Hst & (more & Hp) & Hnd & Hne & Hnp & Hev).
  repeat split; try assumption.
  exists (entry_id x), more. split; [reflexivity | exact Hp].
Qed.

Lemma represents_intro' v (L : list (bytes * bucket * list Event)) hid more :
  linked (map fst L) ->
  Forall (fun x => getBucketByID v (entry_id x) = Ok (entry_bucket x)) L ->
  hd_error (map entry_id L) = Some hid ->
  v !! Slice theEventLog = Some (VBytes hid :: more) ->
  NoDup (map entry_id L) ->
  ~ In [] (map entry_id L) ->
  ~ In (Slice theEventLog) (map entry_id L) ->
  Forall (fun x =>
            resolves v (EventRefs (entry_bucket x)) (entry_events x) /\
            Forall (fun r => ~ In r (map entry_id L) /\ r <> Slice theEventLog)
              (EventRefs (entry_bucket x))) L ->
  represents v L.
Proof.
  destruct L as [|[[i b] evs] L0]; [intros []|].
  intros Hl Hst Hh Hp. simpl in Hh. injection Hh as <-.
  intros. eapply represents_intro; eassumption.
Qed.

Lemma NoDup_map_middle {A B : Type} (f : A -> B) (pre post : list A) (x y : A) :
  NoDup (map f (pre ++ x :: post)) ->
  In y pre \/ In y post -> f y <> f x.
Proof.
  rewrite map_app. cbn [map]. intros Hnd Hy Heq.
  apply NoDup_app in Hnd. destruct Hnd as (_ & Hdis & Hpost).
  apply NoDup_cons in Hpost. destruct Hpost as [Hnx _].
  destruct Hy as [Hy|Hy].
  - apply (Hdis (f y)).
    + apply list_elem_of_In, in_map, Hy.
    + rewrite Heq. left.
  - apply Hnx. rewrite <- Heq. apply list_elem_of_In, in_map, Hy.
Qed.

(** Append: the view after the two changes stores the log with the event
    attached to the stopping bucket. *)
Lemma represents_append v tx cid eventBuf e abuf pre id b evs post :
  let addr := Slice (Instruction.ObjectID tx) in
  represents v (pre ++ (id, b, evs) :: post) ->
  fresh v tx ->
  decodeEvent eventBuf = Ok e ->
  decodeBucket abuf = Ok (addRef b addr) ->
  represents
    (applyStateChanges v
       [ NewStateChange Create (Instruction.ObjectID tx) cid eventBuf;
         {| StateChange.Action := Update;
            StateChange.ObjectID := id;
            StateChange.ContractID := bytes_of_string contractName;
            StateChange.Value := abuf |} ])
    (pre ++ (id, addRef b addr, evs ++ [e]) :: post).
Proof.
  intros addr Hrep Hfr Hde Hda.
  assert (Hnil : pre ++ (id, b, evs) :: post <> []) by (destruct pre; discriminate).
  destruct (represents_elim' v _ Hnil Hrep)
    as (Hl & Hst & (hid & more & Hh & Hp) & Hnd & Hne & Hnp & Hev).
  destruct (fresh_distinct v tx Hfr) as (N1 & _).
  destruct Hfr as (Fa & _).
  fold addr in Fa, N1.
  set (L := pre ++ (id, b, evs) :: post) in *.
  set (L' := pre ++ (id, addRef b addr, evs ++ [e]) :: post).
  assert (Hids : map entry_id L' = map entry_id L).
  { unfold L, L'. rewrite !map_app. reflexivity. }
  assert (HinL : forall x, In x pre \/ In x post -> In x L).
  { intros x [Hx|Hx]; unfold L; apply in_or_app; [left|right; right]; exact Hx. }
  assert (Hid_in : In id (map entry_id L)).
  { unfold L. rewrite map_app. apply in_or_app. right. left. reflexivity. }
  assert (Hstored : forall i, In i (map entry_id L) -> i <> addr).
  { intros i Hi. pose proof (stored_ids v L i Hst Hi). congruence. }
  assert (Hother : forall x, In x pre \/ In x post -> entry_id x <> id).
  { intros x Hx. exact (NoDup_map_middle entry_id pre post (id, b, evs) x Hnd Hx). }
  assert (Hpid : Slice theEventLog <> id) by (intros Heq; apply Hnp; rewrite Heq; exact Hid_in).
  pose proof (Hstored id Hid_in) as Hida.
  unfold applyStateChanges, applyStateChange, NewStateChange.
  cbn [fold_left StateChange.Action StateChange.ObjectID StateChange.Value
       StateChange.ContractID]. fold addr.
  assert (Hrefs_same : forall x r, In x L ->
            In r (EventRefs (entry_bucket x)) ->
            getEventByID (<[id := [VBytes abuf; VBytes (bytes_of_string contractName)]]>
                            (<[addr := [VBytes eventBuf; VBytes (bytes_of_string cid)]]> v)) r
            = getEventByID v r).
  { intros x r Hx Hr. rewrite List.Forall_forall in Hev.
    destruct (Hev x Hx) as [Hres Hrefs].
    pose proof (resolves_stored _ _ _ r Hres Hr).
    rewrite List.Forall_forall in Hrefs. destruct (Hrefs r Hr) as [Hri _].
    assert (id <> r) by (intros ->; apply Hri; exact Hid_in).
    view_lookup. reflexivity. }
  eapply (represents_intro' _ L' hid).
  - eapply linked_ext; [|exact Hl]. unfold L, L'. rewrite !map_app. reflexivity.
  - rewrite List.Forall_forall in *. intros x Hx. unfold L' in Hx.
    apply in_app_or in Hx. destruct Hx as [Hx|[<-|Hx]].
    + pose proof (Hother x (or_introl Hx)).
      pose proof (Hstored _ (in_map entry_id _ _ (HinL x (or_introl Hx)))).
      view_lookup. apply Hst. apply HinL. left. exact Hx.
    + cbn [entry_id entry_bucket fst snd]. view_lookup. exact Hda.
    + pose proof (Hother x (or_intror Hx)).
      pose proof (Hstored _ (in_map entry_id _ _ (HinL x (or_intror Hx)))).
      view_lookup. apply Hst. apply HinL. right. exact Hx.
  - rewrite Hids. exact Hh.
  - view_lookup. exact Hp.
  - rewrite Hids. exact Hnd.
  - rewrite Hids. exact Hne.
  - rewrite Hids. exact Hnp.
  - rewrite Hids. rewrite List.Forall_forall in *. intros x Hx. unfold L' in Hx.
    assert (Hold : forall y, In y L ->
              resolves (<[id := [VBytes abuf; VBytes (bytes_of_string contractName)]]>
                          (<[addr := [VBytes eventBuf; VBytes (bytes_of_string cid)]]> v))
                (EventRefs (entry_bucket y)) (entry_events y)).
    { intros y Hy. eapply resolves_ext; [|exact (proj1 (Hev y Hy))].
      intros r Hr. exact (Hrefs_same y r Hy Hr). }
    apply in_app_or in Hx. destruct Hx as [Hx|[<-|Hx]].
    + split; [apply Hold; apply HinL; left; exact Hx|].
      exact (proj2 (Hev x (HinL x (or_introl Hx)))).
    + assert (Hmid : In (id, b, evs) L)
        by (unfold L; apply in_or_app; right; left; reflexivity).
      cbn [entry_bucket entry_events fst snd addRef EventRefs]. split.
      * apply Forall2_app; [exact (Hold _ Hmid)|].
        repeat constructor. view_lookup. exact Hde.
      * apply Forall_app. split; [exact (proj2 (Hev _ Hmid))|].
        repeat constructor; [|congruence].
        intros Hin. exact (Hstored _ Hin eq_refl).
    + split; [apply Hold; apply HinL; right; exact Hx|].
      exact (proj2 (Hev x (HinL x (or_intror Hx)))).
Qed.


(** One accepted insertion turns the stored log [L] into [place ... L]. *)
Lemma execute_represents s fuel v now tx v' L :
  codec_roundtrip ->
  represents v L ->
  fresh v tx ->
  (pred (length L) <= fuel)%nat ->
  execute s fuel v now tx = (v', None) ->
  exists e,
    event_of tx = Some e /\
    now - 5 * Second <= When e <= now /\
    represents v'
      (place (bucketMaxAge s) e (Slice (Instruction.ObjectID tx))
         (Slice (DeriveID tx "bucket")) (Slice (DeriveID tx "catch-all")) L).
Proof.
  intros Hrt Hrep Hfr Hfuel Hex.
  destruct (execute_accepted _ _ _ _ _ _ Hex)
    as (spawn & cid & eventBuf & e & scs & HD & HI & HS & Hg & Ha & Hde & Hdc
        & Hval & Hins & ->).
  exists e. split; [eapply event_of_accepted; eassumption|].
  split; [exact Hval|].
  destruct L as [|[[hid hb] hevs] L0].
  - simpl in Hrep.
    rewrite (insertEvent_bootstrap _ _ _ _ _ _ _ _ _ Hg Ha Hdc
               (getLatestBucket_missing _ Hrep)) in Hins.
    destruct (Hrt {| Start := 0; Prev := []; EventRefs := [] |}) as (sbuf & Hes & Hds).
    destruct (Hrt {| Start := When e; Prev := Slice (DeriveID tx "catch-all");
                     EventRefs := [Slice (Instruction.ObjectID tx)] |})
      as (hbuf & Heh & Hdh).
    rewrite Hes in Hins. cbn [bind] in Hins. rewrite Heh in Hins. cbn [bind] in Hins.
    injection Hins as <-.
    apply represents_bootstrap; assumption.
  - set (L := (hid, hb, hevs) :: L0) in *.
    destruct (represents_elim v _ _ Hrep) as (Hl & _).
    destruct (attach_split e (Slice (Instruction.ObjectID tx)) L Hl)
      as (pre & id & b & evs & post & HL & Hpre & Hstop & Hatt & Hhd).
    assert (Hhc : head_chain v (map fst pre ++ (id, b) :: map fst post)).
    { destruct Hrep as [Hhc _]. fold L in Hhc. rewrite HL, map_app in Hhc. exact Hhc. }
    assert (Hlen : (length (map fst pre) <= fuel)%nat).
    { rewrite length_map. apply (f_equal (@length _)) in HL.
      rewrite length_app in HL. cbn [length] in HL. unfold L in Hfuel.
      cbn [length pred] in Hfuel. unfold L in HL. cbn [length] in HL. lia. }
    rewrite (insertEvent_placement s now fuel v tx spawn cid eventBuf e
               (map fst pre) id b (map fst post) Hg Ha Hdc Hhc) in Hins.
    2:{ rewrite Forall_map. exact Hpre. }
    2:{ destruct Hstop as [Hs| ->]; [left; exact Hs | right; reflexivity]. }
    2:{ exact Hlen. }
    unfold L, entry_bucket in Hhd. cbn [fst snd] in Hhd.
    assert (Hplace :
      place (bucketMaxAge s) e (Slice (Instruction.ObjectID tx))
        (Slice (DeriveID tx "bucket")) (Slice (DeriveID tx "catch-all")) L =
      if (isFirst hb || (Start hb <=? When e))
         && (bucketMaxAge s <? sub64 (When e) (Start hb))
      then (Slice (DeriveID tx "bucket"),
            {| Start := When e; Prev := hid;
               EventRefs := [Slice (Instruction.ObjectID tx)] |}, [e]) :: L
      else attach e (Slice (Instruction.ObjectID tx)) L) by reflexivity.
    rewrite Hplace, Hhd. clear Hplace.
    destruct pre as [|p pre].
    + cbn [app] in HL. unfold L in HL. injection HL as <- <- <- <-.
      rewrite bool_decide_eq_true_2 by reflexivity.
      rewrite bool_decide_eq_true_2 in Hins by reflexivity.
      cbn [andb] in *.
      destruct (bucketMaxAge s <? sub64 (When e) (Start hb)).
      * destruct (Hrt {| Start := When e; Prev := hid;
                         EventRefs := [Slice (Instruction.ObjectID tx)] |})
          as (nbuf & Hen & Hdn).
        rewrite Hen in Hins. cbn [bind] in Hins. injection Hins as <-.
        apply represents_new_head; assumption.
      * destruct (Hrt (addRef hb (Slice (Instruction.ObjectID tx))))
          as (abuf & Hea & Hda).
        unfold addRef in Hea at 1. rewrite Hea in Hins. cbn [bind] in Hins.
        injection Hins as <-.
        rewrite Hatt.
        apply (represents_append v tx cid eventBuf e abuf [] hid hb hevs L0);
          assumption.
    + rewrite bool_decide_eq_false_2 by discriminate.
      rewrite bool_decide_eq_false_2 in Hins by discriminate.
      cbn [andb] in *.
      destruct (Hrt (addRef b (Slice (Instruction.ObjectID tx))))
        as (abuf & Hea & Hda).
      unfold addRef in Hea at 1. rewrite Hea in Hins. cbn [bind] in Hins.
      injection Hins as <-.
      rewrite Hatt.
      apply (represents_append v tx cid eventBuf e abuf (p :: pre) id b evs post);
        try assumption.
      rewrite <- HL. exact Hrep.
Qed.


(** ** Runs of accepted insertions *)

Lemma attach_length e addr (L : list (bytes * bucket * list Event)) :
  length (attach e addr L) = length L.
Proof.
  induction L as [|[[id b] evs] L IH]; [reflexivity|].
  cbn [attach]. destruct (isFirst b || (Start b <=? When e)); cbn [length]; congruence.
Qed.

Lemma place_length maxAge e addr newBid catchID (L : list (bytes * bucket * list Event)) :
  (pred (length (place maxAge e addr newBid catchID L)) <= S (pred (length L)))%nat.
Proof.
  destruct L as [|[[hid hb] hevs] L0]; [simpl; lia|].
  unfold place.
  destruct ((isFirst hb || (Start hb <=? When e)) && (maxAge <? sub64 (When e) (Start hb))).
  - cbn [length pred]. lia.
  - rewrite attach_length. lia.
Qed.

(** A run of accepted insertions with fresh addresses turns the stored
    log [L] into [log_after s L txs], and each of its events was within
    the tolerance of its clock reading. *)
Lemma accepted_represents s fuel lo hi :
  codec_roundtrip ->
  forall txs v L v',
    represents v L ->
    fresh_run s fuel lo hi v txs ->
    (pred (length L) + length txs <= fuel)%nat ->
    accepted s fuel v txs = Some v' ->
    represents v' (log_after s L txs) /\
    Forall (fun x => exists e, event_of x.2 = Some e /\
                               x.1 - 5 * Second <= When e <= x.1) txs.
Proof.
  intros Hrt. induction txs as [|[now tx] txs IH]; intros v L v' Hrep Hfr Hfuel Hacc.
  - simpl in Hacc. injection Hacc as <-. split; [exact Hrep | constructor].
  - cbn [accepted] in Hacc. cbn [fresh_run] in Hfr.
    destruct Hfr as (Hfresh & _ & Hfr).
    destruct (execute s fuel v now tx) as [v1 [err|]] eqn:Hex; [discriminate|].
    cbn [fst] in Hfr. cbn [length] in Hfuel.
    destruct (execute_represents s fuel v now tx v1 L Hrt Hrep Hfresh ltac:(lia) Hex)
      as (e & Hev & Hval & Hrep1).
    cbn [log_after]. rewrite Hev.
    pose proof (place_length (bucketMaxAge s) e (Slice (Instruction.ObjectID tx))
                  (Slice (DeriveID tx "bucket")) (Slice (DeriveID tx "catch-all")) L).
    destruct (IH v1 _ v' Hrep1 Hfr ltac:(lia) Hacc) as [Hrep' Hall].
    split; [exact Hrep'|]. constructor; [|exact Hall].
    exists e. cbn [fst snd]. auto.
Qed.


(** ** Timing of the log *)

Lemma wrap64_exact z : in_int64 z -> wrap64 z = z.
Proof.
  unfold in_int64, int64_min, int64_max, wrap64. intros Hz.
  rewrite Z.mod_small by lia. lia.
Qed.

Lemma sub64_exact a b :
  0 <= a <= int64_max -> 0 <= b <= int64_max -> sub64 a b = a - b.
Proof.
  intros Ha Hb. unfold sub64. apply wrap64_exact.
  unfold in_int64, int64_min, int64_max in *. lia.
Qed.

Lemma time_ordered_mono b b' (L : list (bytes * bucket * list Event)) :
  time_ordered b L -> b <= b' -> time_ordered b' L.
Proof.
  destruct L as [|x L]; [trivial|]. cbn [time_ordered].
  intros (He & Hs & Hr) Hb. repeat split; [|lia|exact Hr].
  eapply Forall_impl; [exact He|]. cbv beta. intros e He'. lia.
Qed.

Lemma time_ordered_all :
  forall (L : list (bytes * bucket * list Event)) b,
    time_ordered b L ->
    Forall (fun x => Forall (fun e => When e <= b) (entry_events x)) L.
Proof.
  induction L as [|x L IH]; intros b Hto; [constructor|].
  destruct Hto as (He & Hs & Hr). constructor; [exact He|].
  apply IH. eapply time_ordered_mono; eassumption.
Qed.

Lemma attach_time_ordered e addr :
  forall (L : list (bytes * bucket * list Event)) b,
    time_ordered b L -> When e <= b -> time_ordered b (attach e addr L).
Proof.
  induction L as [|[[id bk] evs] L IH]; intros b Hto He; [exact I|].
  destruct Hto as (Hevs & Hs & Hr). cbn [entry_events entry_bucket fst snd] in *.
  cbn [attach]. destruct (isFirst bk || (Start bk <=? When e)) eqn:Hc.
  - cbn [time_ordered entry_events entry_bucket fst snd addRef Start].
    repeat split; [|exact Hs|exact Hr].
    apply Forall_app. split; [exact Hevs|]. repeat constructor. exact He.
  - apply orb_false_iff in Hc. destruct Hc as [_ Hlt].
    cbn [time_ordered entry_events entry_bucket fst snd].
    repeat split; [exact Hevs|exact Hs|].
    apply IH; [exact Hr|]. destruct (Z.leb_spec (Start bk) (When e)); [discriminate|lia].
Qed.

Lemma attach_starts e addr :
  forall L : list (bytes * bucket * list Event),
    Forall (fun x => 0 <= Start (entry_bucket x)) L ->
    Forall (fun x => 0 <= Start (entry_bucket x)) (attach e addr L).
Proof.
  induction L as [|[[id bk] evs] L IH]; intros Hall; [constructor|].
  inversion Hall as [|? ? Hx Hall']; subst. cbn [attach].
  destruct (isFirst bk || (Start bk <=? When e)); constructor; auto.
Qed.

(** One insertion keeps the timing invariant, as long as the event's
    timestamp lies between the epoch and the bound. *)
Lemma place_timed maxAge bound e addr newBid catchID
    (L : list (bytes * bucket * list Event)) :
  0 <= maxAge ->
  bound <= int64_max ->
  0 <= When e <= bound ->
  timed maxAge bound L ->
  timed maxAge bound (place maxAge e addr newBid catchID L).
Proof.
  intros Hmax Hb He (Hto & Hnn & Hhead).
  destruct L as [|[[hid hb] hevs] L0].
  - unfold timed, place. cbn [time_ordered entry_events entry_bucket fst snd Start].
    repeat split; repeat constructor; cbn [entry_bucket fst snd Start]; lia.
  - destruct Hto as (Hevs & Hs & Hr). cbn [entry_events entry_bucket fst snd] in *.
    inversion Hnn as [|? ? Hnh Hnn']; subst. cbn [entry_bucket fst snd] in Hnh.
    assert (Hsub : sub64 (When e) (Start hb) = When e - Start hb)
      by (apply sub64_exact; lia).
    unfold place. rewrite Hsub.
    destruct (isFirst hb || (Start hb <=? When e)) eqn:Hc;
      destruct (Z.ltb_spec maxAge (When e - Start hb)) as [Hage|Hage]; cbn [andb].
    + unfold timed. cbn [time_ordered entry_events entry_bucket fst snd Start].
      repeat split; try lia; try exact Hr.
      * repeat constructor. lia.
      * eapply Forall_impl; [exact Hhead|]. cbv beta. intros e' He'. lia.
      * constructor; [cbn [entry_bucket fst snd Start]; lia | exact Hnn].
      * repeat constructor. lia.
    + unfold timed. split; [|split].
      * apply attach_time_ordered; [|lia].
        cbn [time_ordered entry_events entry_bucket fst snd]. auto.
      * apply attach_starts. exact Hnn.
      * cbn [attach]. rewrite Hc. cbn [entry_events entry_bucket fst snd addRef Start].
        apply Forall_app. split; [exact Hhead|]. repeat constructor. lia.
    + unfold timed. split; [|split].
      * apply attach_time_ordered; [|lia].
        cbn [time_ordered entry_events entry_bucket fst snd]. auto.
      * apply attach_starts. exact Hnn.
      * cbn [attach]. rewrite Hc. cbn [entry_events entry_bucket fst snd].
        exact Hhead.
    + unfold timed. split; [|split].
      * apply attach_time_ordered; [|lia].
        cbn [time_ordered entry_events entry_bucket fst snd]. auto.
      * apply attach_starts. exact Hnn.
      * cbn [attach]. rewrite Hc. cbn [entry_events entry_bucket fst snd].
        exact Hhead.
Qed.

Lemma log_after_timed s bound :
  0 <= bucketMaxAge s ->
  bound <= int64_max ->
  forall txs L,
    timed (bucketMaxAge s) bound L ->
    Forall (fun x => forall e, event_of x.2 = Some e -> 0 <= When e <= bound) txs ->
    timed (bucketMaxAge s) bound (log_after s L txs).
Proof.
  intros Hmax Hb. induction txs as [|[now tx] txs IH]; intros L Ht Hall; [exact Ht|].
  inversion Hall as [|? ? Hx Hall']; subst. cbn [snd] in Hx.
  cbn [log_after]. destruct (event_of tx) as [e|]; [|apply IH; assumption].
  apply IH; [|exact Hall'].
  apply place_timed; auto.
Qed.


(** ** Search over a represented log *)

Lemma overlapping_map {A B : Type} (f : A -> B) (start : B -> Z) from to :
  forall (c : list A) bEnd,
    overlapping start from to bEnd (map f c)
    = map f (overlapping (fun x => start (f x)) from to bEnd c).
Proof.
  induction c as [|x c IH]; intros bEnd; [reflexivity|].
  cbn [map overlapping]. destruct (bEnd <? from); [reflexivity|].
  rewrite IH, map_app. destruct (to <? start (f x)); reflexivity.
Qed.

Lemma overlapping_incl {A : Type} (start : A -> Z) from to :
  forall (c : list A) bEnd x,
    In x (overlapping start from to bEnd c) -> In x c.
Proof.
  induction c as [|y c IH]; intros bEnd x Hin; [exact Hin|].
  cbn [overlapping] in Hin. destruct (bEnd <? from); [destruct Hin|].
  apply in_app_or in Hin. destruct Hin as [Hin|Hin].
  - destruct (to <? start y); [destruct Hin|].
    destruct Hin as [<-|[]]. left. reflexivity.
  - right. eapply IH. exact Hin.
Qed.

Lemma Forall2_map_same {A B C : Type} (R : B -> C -> Prop) (f : A -> B) (g : A -> C)
    (X : list A) :
  Forall (fun x => R (f x) (g x)) X -> Forall2 R (map f X) (map g X).
Proof. induction 1; constructor; assumption. Qed.

Lemma capped_nil searchMax : capped searchMax [] = ([], false).
Proof.
  unfold capped. pose proof (capCount_pos searchMax).
  destruct (capCount searchMax); [lia | reflexivity].
Qed.

(** The result of a search on a stored log: the matches among the events
    examined, cut at the cap. *)
Lemma Search_represents omni searchMax now1 now2 fuel req L :
  IsNull (ID req) = false ->
  represents (omni (ID req)) L ->
  (length L <= S fuel)%nat ->
  Search omni searchMax now1 now2 fuel req =
    Ok {| Events :=
            (capped searchMax
               (all_matches (From req) (upper now1 req) now2 (ReqTopic req) L)).1;
          Truncated :=
            (capped searchMax
               (all_matches (From req) (upper now1 req) now2 (ReqTopic req) L)).2 |}.
Proof.
  intros Hn Hrep Hf. destruct L as [|x L0].
  - simpl in Hrep. unfold Search. rewrite Hn, (getLatestBucket_missing _ Hrep).
    assert (Hc : capped searchMax
                   (all_matches (From req) (upper now1 req) now2 (ReqTopic req) [])
                 = ([], false)) by exact (capped_nil searchMax).
    rewrite Hc. reflexivity.
  - set (L := x :: L0) in *.
    destruct (represents_elim _ _ _ Hrep) as (_ & _ & _ & _ & _ & _ & Hev).
    fold L in Hev.
    set (X := rev (overlapping (fun x => Start (entry_bucket x))
                     (From req) (upper now1 req) now2 L)).
    rewrite (Search_chain omni searchMax now1 now2 fuel req (map fst L)
               (map entry_events X) Hn (proj1 Hrep)).
    + reflexivity.
    + rewrite length_map. exact Hf.
    + rewrite map_map.
      rewrite (overlapping_map (fun x : bytes * bucket * list Event => (x.1).2)).
      rewrite <- map_rev. fold X.
      apply (Forall2_map_same
               (fun b evs => resolves (omni (ID req)) (EventRefs b) evs)
               (fun x : bytes * bucket * list Event => (x.1).2) entry_events).
      rewrite List.Forall_forall in *. intros y Hy.
      apply in_rev, overlapping_incl in Hy.
      exact (proj1 (Hev y Hy)).
Qed.

(** ** Paging forward *)

Lemma events_of_app (A B : list (bytes * bucket * list Event)) :
  events_of (A ++ B) = events_of B ++ events_of A.
Proof. unfold events_of. rewrite rev_app_distr, map_app, concat_app. reflexivity. Qed.

Lemma matches_later from w to topic ev :
  from <= w ->
  matches w to topic ev = (w <=? When ev) && matches from to topic ev.
Proof.
  intros Hle. unfold matches.
  destruct (Z.leb_spec w (When ev)); destruct (Z.leb_spec from (When ev));
    cbn [andb]; try reflexivity. lia.
Qed.

Lemma filter_filter_and {A : Type} (f g : A -> bool) (l : list A) :
  List.filter f (List.filter g l) = List.filter (fun x => f x && g x) l.
Proof.
  induction l as [|x l IH]; [reflexivity|]. cbn [List.filter].
  destruct (g x); cbn [List.filter]; rewrite ?andb_true_r, ?andb_false_r;
    [destruct (f x)|]; rewrite IH; reflexivity.
Qed.

Lemma filter_none {A : Type} (f : A -> bool) (l : list A) :
  Forall (fun x => f x = false) l -> List.filter f l = [].
Proof.
  induction 1 as [|x l Hx _ IH]; [reflexivity|]. cbn [List.filter].
  rewrite Hx. exact IH.
Qed.

(** Nothing examined in a log whose events all lie before [w] matches a
    search from [w]. *)
Lemma no_match_before w to topic from' b bEnd
    (L : list (bytes * bucket * list Event)) :
  time_ordered b L -> b < w ->
  List.filter (matches w to topic)
    (events_of (overlapping (fun x => Start (entry_bucket x)) from' to bEnd L)) = [].
Proof.
  intros Hto Hb. apply filter_none. unfold events_of.
  apply List.Forall_forall. intros ev Hev.
  apply in_concat in Hev. destruct Hev as (evs & Hevs & Hev).
  apply in_map_iff in Hevs. destruct Hevs as (x & <- & Hx).
  apply in_rev, overlapping_incl in Hx.
  pose proof (time_ordered_all L b Hto) as Hall.
  rewrite List.Forall_forall in Hall. specialize (Hall x Hx).
  rewrite List.Forall_forall in Hall. specialize (Hall ev Hev).
  unfold matches. destruct (Z.leb_spec w (When ev)); [lia | reflexivity].
Qed.

(** The matches of a search from a later lower bound [w], made no earlier
    than the first one, are the matches of the first search that are not
    older than [w], in the same order. *)
Lemma all_matches_later from w to topic :
  from <= w ->
  forall (L : list (bytes * bucket * list Event)) b b',
    time_ordered b L -> b <= b' ->
    all_matches w to b' topic L
    = List.filter (fun ev => w <=? When ev) (all_matches from to b topic L).
Proof.
  intros Hle. unfold all_matches, examined. fold events_of.
  induction L as [|x L IH]; intros b b' Hto Hbb; [reflexivity|].
  change (concat (map entry_events (rev ?X))) with (events_of X) in *.
  cbn [overlapping].
  destruct (Z.ltb_spec b' w) as [Hbw|Hbw].
  - cbn [events_of rev map concat List.filter].
    change (concat (map entry_events (rev ?X))) with (events_of X).
    rewrite filter_filter_and. symmetry. apply filter_none.
    apply List.Forall_forall. intros ev Hev.
    assert (Hin : In ev (events_of (overlapping (fun x => Start (entry_bucket x))
                                      from to b (x :: L)))) by exact Hev.
    unfold events_of in Hin. apply in_concat in Hin.
    destruct Hin as (evs & Hevs & Hev').
    apply in_map_iff in Hevs. destruct Hevs as (y & <- & Hy).
    apply in_rev, overlapping_incl in Hy.
    pose proof (time_ordered_all (x :: L) b Hto) as Hall.
    rewrite List.Forall_forall in Hall. specialize (Hall y Hy).
    rewrite List.Forall_forall in Hall. specialize (Hall ev Hev').
    destruct (Z.leb_spec w (When ev)); [lia | reflexivity].
  - destruct (Z.ltb_spec b from) as [Hbf|Hbf].
    + cbn [events_of rev map concat List.filter].
      change (concat (map entry_events (rev ?X))) with (events_of X).
      pose proof (no_match_before w to topic w b b' (x :: L) Hto ltac:(lia)) as Hno.
      cbn [overlapping] in Hno.
      destruct (Z.ltb_spec b' w); [lia|]. exact Hno.
    + destruct Hto as (Hevs & Hs & Hr).
      rewrite !events_of_app, !List.filter_app.
      change (concat (map entry_events (rev ?X))) with (events_of X) in IH.
      rewrite (IH (Start (entry_bucket x)) (Start (entry_bucket x)) Hr ltac:(lia)).
      f_equal.
      destruct (to <? Start (entry_bucket x)); [reflexivity|].
      rewrite filter_filter_and.
      apply List.filter_ext. intros ev. apply matches_later. exact Hle.
Qed.


(** ** Acceptance of a validated insertion *)

Lemma insertEvent_succeeds s now fuel v tx spawn cid eventBuf e L :
  codec_roundtrip ->
  represents v L ->
  (pred (length L) <= fuel)%nat ->
  GetContractState v tx = Ok cid ->
  ArgsSearch (Spawn.Args spawn) "event" = Some eventBuf ->
  decodeAndCheckEvent now eventBuf = Ok e ->
  exists scs, insertEvent s now fuel v tx spawn = Ok scs.
Proof.
  intros Hrt Hrep Hfuel Hg Ha Hdc.
  destruct L as [|[[hid hb] hevs] L0].
  - simpl in Hrep.
    rewrite (insertEvent_bootstrap _ _ _ _ _ _ _ _ _ Hg Ha Hdc
               (getLatestBucket_missing _ Hrep)).
    destruct (Hrt {| Start := 0; Prev := []; EventRefs := [] |}) as (sbuf & Hes & _).
    destruct (Hrt {| Start := When e; Prev := Slice (DeriveID tx "catch-all");
                     EventRefs := [Slice (Instruction.ObjectID tx)] |})
      as (hbuf & Heh & _).
    rewrite Hes. cbn [bind]. rewrite Heh. cbn [bind]. eauto.
  - set (L := (hid, hb, hevs) :: L0) in *.
    destruct (represents_elim v _ _ Hrep) as (Hl & _).
    destruct (attach_split e (Slice (Instruction.ObjectID tx)) L Hl)
      as (pre & id & b & evs & post & HL & Hpre & Hstop & _).
    assert (Hhc : head_chain v (map fst pre ++ (id, b) :: map fst post)).
    { destruct Hrep as [Hhc _]. fold L in Hhc. rewrite HL, map_app in Hhc. exact Hhc. }
    rewrite (insertEvent_placement s now fuel v tx spawn cid eventBuf e
               (map fst pre) id b (map fst post) Hg Ha Hdc Hhc).
    + destruct (bool_decide (map fst pre = [])
                && (bucketMaxAge s <? sub64 (When e) (Start b))).
      * destruct (Hrt {| Start := When e; Prev := id;
                         EventRefs := [Slice (Instruction.ObjectID tx)] |})
          as (nbuf & Hen & _).
        rewrite Hen. cbn [bind]. eauto.
      * destruct (Hrt (addRef b (Slice (Instruction.ObjectID tx))))
          as (abuf & Hea & _).
        unfold addRef in Hea. rewrite Hea. cbn [bind]. eauto.
    + rewrite Forall_map. exact Hpre.
    + destruct Hstop as [Hs| ->]; [left; exact Hs | right; reflexivity].
    + rewrite length_map. apply (f_equal (@length _)) in HL.
      rewrite length_app in HL. unfold L in HL, Hfuel. cbn [length pred] in *. lia.
Qed.

Lemma execute_succeeds s fuel v now tx spawn cid eventBuf e L :
  codec_roundtrip ->
  represents v L ->
  (pred (length L) <= fuel)%nat ->
  Instruction.Delete tx = None ->
  Instruction.Invoke tx = None ->
  Instruction.Spawn tx = Some spawn ->
  GetContractState v tx = Ok cid ->
  ArgsSearch (Spawn.Args spawn) "event" = Some eventBuf ->
  decodeAndCheckEvent now eventBuf = Ok e ->
  exists v', execute s fuel v now tx = (v', None).
Proof.
  intros Hrt Hrep Hfuel HD HI HS Hg Ha Hdc.
  destruct (insertEvent_succeeds s now fuel v tx spawn cid eventBuf e L
              Hrt Hrep Hfuel Hg Ha Hdc) as [scs Hins].
  unfold execute. rewrite (contractFunction_spawn _ _ _ _ _ _ _ HD HI HS), Hins.
  eauto.
Qed.

Lemma valid_spawn_step s fuel v now tx e L :
  codec_roundtrip ->
  represents v L ->
  (pred (length L) <= fuel)%nat ->
  fresh v tx ->
  valid_spawn now tx e ->
  exists v',
    execute s fuel v now tx = (v', None) /\
    represents v'
      (place (bucketMaxAge s) e (Slice (Instruction.ObjectID tx))
         (Slice (DeriveID tx "bucket")) (Slice (DeriveID tx "catch-all")) L).
Proof.
  intros Hrt Hrep Hfuel Hfr (spawn & eventBuf & HD & HI & HS & Hg & Ha & Hde & Hval).
  destruct (Hg v) as [cid Hcid].
  assert (Hdc : decodeAndCheckEvent now eventBuf = Ok e).
  { destruct (decodeAndCheckEvent_cases now eventBuf e Hde)
      as [[? Hc]|[[? [? Hc]]|[? Hc]]]; [lia | lia | exact Hc]. }
  destruct (execute_succeeds s fuel v now tx spawn cid eventBuf e L
              Hrt Hrep Hfuel HD HI HS Hcid Ha Hdc) as [v' Hex].
  exists v'. split; [exact Hex|].
  destruct (execute_represents s fuel v now tx v' L Hrt Hrep Hfr Hfuel Hex)
    as (e' & Hev & _ & Hrep').
  rewrite (event_of_accepted tx spawn eventBuf e HS Ha Hde) in Hev.
  injection Hev as <-. exact Hrep'.
Qed.


(** ** The bucket-aging scenario *)

Lemma sub64_offset t d : in_int64 d -> sub64 (t + d) t = d.
Proof. intros Hd. unfold sub64. replace (t + d - t) with d by lia. apply wrap64_exact, Hd. Qed.

Lemma aging_scenario s fuel lo hi v0 t now1 now2 now3 tx1 tx2 tx3 e1 e2 e3 :
  codec_roundtrip ->
  bucketMaxAge s = 5 * Second ->
  (1 <= fuel)%nat ->
  v0 !! Slice theEventLog = None ->
  valid_spawn now1 tx1 e1 ->
  valid_spawn now2 tx2 e2 ->
  valid_spawn now3 tx3 e3 ->
  When e1 = t ->
  When e2 = t + 3 * Second ->
  When e3 = t + 7 * Second ->
  fresh_run s fuel lo hi v0 [(now1, tx1); (now2, tx2); (now3, tx3)] ->
  exists v,
    accepted s fuel v0 [(now1, tx1); (now2, tx2); (now3, tx3)] = Some v /\
    represents v
      [ (Slice (DeriveID tx3 "bucket"),
         {| Start := t + 7 * Second;
            Prev := Slice (DeriveID tx1 "bucket");
            EventRefs := [Slice (Instruction.ObjectID tx3)] |},
         [e3]);
        (Slice (DeriveID tx1 "bucket"),
         {| Start := t;
            Prev := Slice (DeriveID tx1 "catch-all");
            EventRefs := [Slice (Instruction.ObjectID tx1);
                          Slice (Instruction.ObjectID tx2)] |},
         [e1; e2]);
        (Slice (DeriveID tx1 "catch-all"),
         {| Start := 0; Prev := []; EventRefs := [] |},
         []) ].
Proof.
  intros Hrt Hmax Hfuel Hptr V1 V2 V3 W1 W2 W3 Hfr.
  cbn [fresh_run] in Hfr. destruct Hfr as (F1 & _ & Hfr).
  destruct (valid_spawn_step s fuel v0 now1 tx1 e1 [] Hrt Hptr ltac:(simpl; lia) F1 V1)
    as (v1 & Hex1 & Hrep1).
  rewrite Hex1 in Hfr. cbn [fst] in Hfr. destruct Hfr as (F2 & _ & Hfr).
  cbn [place] in Hrep1. rewrite W1 in Hrep1.
  destruct (valid_spawn_step s fuel v1 now2 tx2 e2 _ Hrt Hrep1 ltac:(simpl; lia) F2 V2)
    as (v2 & Hex2 & Hrep2).
  rewrite Hex2 in Hfr. cbn [fst] in Hfr. destruct Hfr as (F3 & _ & _).
  unfold place in Hrep2. cbn [Start] in Hrep2.
  rewrite W2, Hmax, (sub64_offset t (3 * Second)) in Hrep2
    by (unfold in_int64, int64_min, int64_max, Second; lia).
  replace (t <=? t + 3 * Second) with true in Hrep2
    by (symmetry; apply Z.leb_le; unfold Second; lia).
  rewrite orb_true_r in Hrep2.
  replace (5 * Second <? 3 * Second) with false in Hrep2 by reflexivity.
  cbn [andb attach Start] in Hrep2. rewrite W2 in Hrep2.
  replace (t <=? t + 3 * Second) with true in Hrep2
    by (symmetry; apply Z.leb_le; unfold Second; lia).
  rewrite orb_true_r in Hrep2. unfold addRef in Hrep2.
  cbn [Start Prev EventRefs app] in Hrep2.
  destruct (valid_spawn_step s fuel v2 now3 tx3 e3 _ Hrt Hrep2 ltac:(simpl; lia) F3 V3)
    as (v3 & Hex3 & Hrep3).
  unfold place in Hrep3. cbn [Start] in Hrep3.
  rewrite W3, Hmax, (sub64_offset t (7 * Second)) in Hrep3
    by (unfold in_int64, int64_min, int64_max, Second; lia).
  replace (t <=? t + 7 * Second) with true in Hrep3
    by (symmetry; apply Z.leb_le; unfold Second; lia).
  rewrite orb_true_r in Hrep3.
  replace (5 * Second <? 7 * Second) with true in Hrep3 by reflexivity.
  cbn [andb] in Hrep3.
  exists v3. split; [|exact Hrep3].
  cbn [accepted]. rewrite Hex1, Hex2, Hex3. reflexivity.
Qed.


(** Every chain has the bucket at which the walk stops. *)
Lemma chain_stop v when :
  forall c : list (bytes * bucket),
    is_chain v c ->
    exists pre bID b post,
      c = pre ++ (bID, b) :: post /\
      Forall (fun x => when < Start x.2) pre /\
      (Start b <= when \/ post = []).
Proof.
  induction c as [|[id b] c IH]; intros Hc; [destruct Hc|].
  destruct (Z.leb_spec (Start b) when) as [Hle|Hgt].
  - exists [], id, b, c. split; [reflexivity|]. split; [constructor | left; exact Hle].
  - destruct c as [|[id1 b1] c].
    + exists [], id, b, []. split; [reflexivity|]. split; [constructor | right; reflexivity].
    + destruct Hc as (_ & _ & _ & Hc).
      destruct (IH Hc) as (pre & bID & b' & post & Heq & Hpre & Hstop).
      exists ((id, b) :: pre), bID, b', post. split; [rewrite Heq; reflexivity|].
      split; [constructor; [exact Hgt | exact Hpre] | exact Hstop].
Qed.

(** ** The claims about the writer *)

(** C1. Insertion of a validated event [e] into a non-empty log. Let the
    chain from the head be [pre ++ (bID, b) :: post], where every bucket
    of [pre] starts after [e.when] and [b] starts at or before [e.when]
    or is the first bucket: the walk stops at [b]. The writer creates a
    new head bucket (start [e.when], predecessor [bID], the event's
    address as only reference) and updates the head pointer exactly when
    [b] is the head ([pre] is empty) and the [int64] difference
    [e.when - b.start] exceeds [bucketMaxAge]; otherwise it rewrites [b]
    with the address appended to its references. Every chain has such a
    stopping bucket. In particular, with
    [bucketMaxAge = 5s], three validated insertions at [t], [t + 3s] and
    [t + 7s] into an empty log are accepted and leave a first head bucket
    (start [t]) holding the first two events and, in front of it, a second
    head bucket (start [t + 7s]) holding the third, the head pointer
    naming the latter. *)
Theorem C1_writer_placement :
  (forall (s : Service) (now : Z) (fuel : nat) (v : View) (tx : Instruction.t)
          (spawn : Spawn.t) (c : list Coin) (cid : string) (eventBuf : bytes)
          (e : Event) (pre : list (bytes * bucket)) (bID : bytes) (b : bucket)
          (post : list (bytes * bucket)) (nbuf abuf : bytes),
     Instruction.Delete tx = None ->
     Instruction.Invoke tx = None ->
     Instruction.Spawn tx = Some spawn ->
     GetContractState v tx = Ok cid ->
     ArgsSearch (Spawn.Args spawn) "event" = Some eventBuf ->
     decodeAndCheckEvent now eventBuf = Ok e ->
     head_chain v (pre ++ (bID, b) :: post) ->
     Forall (fun x => When e < Start x.2) pre ->
     Start b <= When e \/ post = [] ->
     (length pre <= fuel)%nat ->
     encodeBucket {| Start := When e; Prev := bID;
                     EventRefs := [Slice (Instruction.ObjectID tx)] |} = Ok nbuf ->
     encodeBucket (addRef b (Slice (Instruction.ObjectID tx))) = Ok abuf ->
     (pre = [] /\ bucketMaxAge s < sub64 (When e) (Start b) ->
        contractFunction s now fuel v tx c =
          ([ NewStateChange Create (Instruction.ObjectID tx) cid eventBuf;
             NewStateChange Create (DeriveID tx "bucket") cid nbuf;
             NewStateChange Update theEventLog cid (Slice (DeriveID tx "bucket")) ],
           [], None)) /\
     (~ (pre = [] /\ bucketMaxAge s < sub64 (When e) (Start b)) ->
        contractFunction s now fuel v tx c =
          ([ NewStateChange Create (Instruction.ObjectID tx) cid eventBuf;
             {| StateChange.Action := Update;
                StateChange.ObjectID := bID;
                StateChange.ContractID := bytes_of_string contractName;
                StateChange.Value := abuf |} ],
           [], None)))
  /\
  (forall (v : View) (when : Z) (c : list (bytes * bucket)),
     is_chain v c ->
     exists pre bID b post,
       c = pre ++ (bID, b) :: post /\
       Forall (fun x => when < Start x.2) pre /\
       (Start b <= when \/ post = []))
  /\
  (forall (s : Service) (fuel : nat) (lo hi : Z) (v0 : View) (t now1 now2 now3 : Z)
          (tx1 tx2 tx3 : Instruction.t) (e1 e2 e3 : Event),
     codec_roundtrip ->
     bucketMaxAge s = 5 * Second ->
     (1 <= fuel)%nat ->
     v0 !! Slice theEventLog = None ->
     valid_spawn now1 tx1 e1 ->
     valid_spawn now2 tx2 e2 ->
     valid_spawn now3 tx3 e3 ->
     When e1 = t ->
     When e2 = t + 3 * Second ->
     When e3 = t + 7 * Second ->
     fresh_run s fuel lo hi v0 [(now1, tx1); (now2, tx2); (now3, tx3)] ->
     exists v,
       accepted s fuel v0 [(now1, tx1); (now2, tx2); (now3, tx3)] = Some v /\
       getLatestBucket v =
         Ok (Slice (DeriveID tx3 "bucket"),
             {| Start := t + 7 * Second;
                Prev := Slice (DeriveID tx1 "bucket");
                EventRefs := [Slice (Instruction.ObjectID tx3)] |}) /\
       represents v
         [ (Slice (DeriveID tx3 "bucket"),
            {| Start := t + 7 * Second;
               Prev := Slice (DeriveID tx1 "bucket");
               EventRefs := [Slice (Instruction.ObjectID tx3)] |},
            [e3]);
           (Slice (DeriveID tx1 "bucket"),
            {| Start := t;
               Prev := Slice (DeriveID tx1 "catch-all");
               EventRefs := [Slice (Instruction.ObjectID tx1);
                             Slice (Instruction.ObjectID tx2)] |},
            [e1; e2]);
           (Slice (DeriveID tx1 "catch-all"),
            {| Start := 0; Prev := []; EventRefs := [] |},
            []) ])
  /\
  bucketMaxAge newService = 5 * Second.
Proof.
  split; [|split; [exact chain_stop|split; [|reflexivity]]].
  - intros s now fuel v tx spawn c cid eventBuf e pre bID b post nbuf abuf
      HD HI HS Hg Ha Hdc Hhc Hpre Hstop Hfuel Hen Hea.
    rewrite (contractFunction_spawn _ _ _ _ _ _ _ HD HI HS).
    rewrite (insertEvent_placement s now fuel v tx spawn cid eventBuf e pre bID b post
               Hg Ha Hdc Hhc Hpre Hstop Hfuel).
    unfold addRef in Hea. split.
    + intros [-> Hage]. rewrite bool_decide_eq_true_2 by reflexivity.
      replace (bucketMaxAge s <? sub64 (When e) (Start b)) with true
        by (symmetry; apply Z.ltb_lt; exact Hage).
      cbn [andb]. rewrite Hen. reflexivity.
    + intros Hno.
      replace (bool_decide (pre = []) && (bucketMaxAge s <? sub64 (When e) (Start b)))
        with false.
      * rewrite Hea. reflexivity.
      * symmetry. apply andb_false_iff.
        destruct pre as [|x pre].
        -- right. apply Z.ltb_ge. destruct (Z.le_gt_cases (sub64 (When e) (Start b))
                                              (bucketMaxAge s)); [assumption|].
           exfalso. apply Hno. split; [reflexivity | lia].
        -- left. apply bool_decide_eq_false_2. discriminate.
  - intros s fuel lo hi v0 t now1 now2 now3 tx1 tx2 tx3 e1 e2 e3
      Hrt Hmax Hfuel Hptr V1 V2 V3 W1 W2 W3 Hfr.
    destruct (aging_scenario s fuel lo hi v0 t now1 now2 now3 tx1 tx2 tx3 e1 e2 e3
                Hrt Hmax Hfuel Hptr V1 V2 V3 W1 W2 W3 Hfr) as (v & Hacc & Hrep).
    exists v. split; [exact Hacc|]. split; [|exact Hrep].
    eapply getLatestBucket_head; [exact (proj1 Hrep) | reflexivity].
Qed.

(** C7. In the append case (the walk stopped at a bucket [b] that is not
    both the head and older than [bucketMaxAge]), the state changes are
    exactly the creation of the event record and one update, of the
    stopping bucket's record, whose value encodes [b] with the same start
    and predecessor and the event's address appended at the end of its
    references; applied to the view, they leave every other key as it
    was, the head pointer and all other buckets included. *)
Theorem C7_append_frame (s : Service) (now : Z) (fuel : nat) (v : View)
    (tx : Instruction.t) (spawn : Spawn.t) (c : list Coin) (cid : string)
    (eventBuf : bytes) (e : Event) (pre : list (bytes * bucket)) (bID : bytes)
    (b : bucket) (post : list (bytes * bucket)) (abuf : bytes) :
  Instruction.Delete tx = None ->
  Instruction.Invoke tx = None ->
  Instruction.Spawn tx = Some spawn ->
  GetContractState v tx = Ok cid ->
  ArgsSearch (Spawn.Args spawn) "event" = Some eventBuf ->
  decodeAndCheckEvent now eventBuf = Ok e ->
  head_chain v (pre ++ (bID, b) :: post) ->
  Forall (fun x => When e < Start x.2) pre ->
  Start b <= When e \/ post = [] ->
  (length pre <= fuel)%nat ->
  ~ (pre = [] /\ bucketMaxAge s < sub64 (When e) (Start b)) ->
  encodeBucket {| Start := Start b; Prev := Prev b;
                  EventRefs := EventRefs b ++ [Slice (Instruction.ObjectID tx)] |}
    = Ok abuf ->
  let scs :=
    [ NewStateChange Create (Instruction.ObjectID tx) cid eventBuf;
      {| StateChange.Action := Update;
         StateChange.ObjectID := bID;
         StateChange.ContractID := bytes_of_string contractName;
         StateChange.Value := abuf |} ] in
  contractFunction s now fuel v tx c = (scs, [], None) /\
  Forall (fun sc => StateChange.ObjectID sc = Slice (Instruction.ObjectID tx) \/
                    StateChange.ObjectID sc = bID) scs /\
  (forall k, k <> Slice (Instruction.ObjectID tx) -> k <> bID ->
     applyStateChanges v scs !! k = v !! k) /\
  (Slice theEventLog <> Slice (Instruction.ObjectID tx) -> Slice theEventLog <> bID ->
     applyStateChanges v scs !! Slice theEventLog = v !! Slice theEventLog).
Proof.
  intros HD HI HS Hg Ha Hdc Hhc Hpre Hstop Hfuel Hno Hea scs.
  assert (Hframe : forall k, k <> Slice (Instruction.ObjectID tx) -> k <> bID ->
            applyStateChanges v scs !! k = v !! k).
  { intros k Hk1 Hk2. unfold scs, applyStateChanges, applyStateChange, NewStateChange.
    cbn [fold_left StateChange.Action StateChange.ObjectID StateChange.Value
         StateChange.ContractID].
    rewrite !lookup_insert_ne by congruence. reflexivity. }
  split; [|split; [|split]].
  - rewrite (contractFunction_spawn _ _ _ _ _ _ _ HD HI HS).
    rewrite (insertEvent_placement s now fuel v tx spawn cid eventBuf e pre bID b post
               Hg Ha Hdc Hhc Hpre Hstop Hfuel).
    replace (bool_decide (pre = []) && (bucketMaxAge s <? sub64 (When e) (Start b)))
      with false.
    + rewrite Hea. reflexivity.
    + symmetry. apply andb_false_iff.
      destruct pre as [|x pre].
      * right. apply Z.ltb_ge. destruct (Z.le_gt_cases (sub64 (When e) (Start b))
                                           (bucketMaxAge s)); [assumption|].
        exfalso. apply Hno. split; [reflexivity | lia].
      * left. apply bool_decide_eq_false_2. discriminate.
  - unfold scs, NewStateChange.
    constructor; [left; reflexivity|]. constructor; [right; reflexivity|]. constructor.
  - exact Hframe.
  - intros. apply Hframe; assumption.
Qed.


(** ** The claims about the reader *)

Lemma matches_spec from to topic ev :
  matches from to topic ev = true <->
  from <= When ev < to /\ (topic = "" \/ topic = Topic ev).
Proof.
  unfold matches. rewrite !andb_true_iff, orb_true_iff, Z.leb_le, Z.ltb_lt.
  rewrite !String.eqb_eq. tauto.
Qed.

(** X18: The result of a search over a well-formed chain whose
    overlapping buckets have resolving references. The candidates are the
    events stored in the overlapping buckets, taken bucket by bucket from
    the oldest overlapping bucket to the newest and, within a bucket, in
    stored order; the matches are the candidates with
    [from <= when < to] and topic empty or equal; the result is the first
    [max 1 searchMax] matches of that sequence, and it is marked truncated
    exactly when that many matches exist. *)
Theorem Search_well_formed_result (omni : SkipBlockID -> View) (searchMax now1 now2 : Z)
    (fuel : nat) (req : SearchRequest) (c : list (bytes * bucket))
    (evss : list (list Event)) :
  IsNull (ID req) = false ->
  head_chain (omni (ID req)) c ->
  (length c <= S fuel)%nat ->
  Forall2 (fun b evs => resolves (omni (ID req)) (EventRefs b) evs)
    (rev (overlapping Start (From req) (upper now1 req) now2 (map snd c))) evss ->
  let ms := List.filter (matches (From req) (upper now1 req) (ReqTopic req))
              (concat evss) in
  Search omni searchMax now1 now2 fuel req =
    Ok {| Events := firstn (capCount searchMax) ms;
          Truncated := (capCount searchMax <=? length ms)%nat |} /\
  (1 <= searchMax -> capCount searchMax = Z.to_nat searchMax) /\
  (forall ev, In ev ms <->
     In ev (concat evss) /\
     From req <= When ev < upper now1 req /\
     (ReqTopic req = "" \/ ReqTopic req = Topic ev)).
Proof.
  intros Hn Hhc Hf Hres ms. split; [|split].
  - rewrite (Search_chain omni searchMax now1 now2 fuel req c evss Hn Hhc Hf Hres).
    reflexivity.
  - intros Hs. unfold capCount. rewrite Z.max_r by lia. reflexivity.
  - intros ev. unfold ms. rewrite List.filter_In, matches_spec. tauto.
Qed.

Lemma in_firstn_in {A : Type} (n : nat) (l : list A) (x : A) :
  In x (firstn n l) -> In x l.
Proof.
  revert l. induction n as [|n IH]; intros [|y l] Hin; try destruct Hin as [].
  - left. assumption.
  - right. apply IH. assumption.
Qed.

Lemma fresh_run_clock s fuel lo hi :
  forall txs v, fresh_run s fuel lo hi v txs -> Forall (fun x => lo <= x.1 <= hi) txs.
Proof.
  induction txs as [|[now tx] txs IH]; intros v Hfr; [constructor|].
  destruct Hfr as (_ & Hc & Hfr). constructor; [exact Hc|]. eapply IH. exact Hfr.
Qed.

Lemma log_after_length s :
  forall txs (L : list (bytes * bucket * list Event)),
    (pred (length (log_after s L txs)) <= pred (length L) + length txs)%nat.
Proof.
  induction txs as [|[now tx] txs IH]; intros L; [simpl; lia|].
  cbn [log_after length]. destruct (event_of tx) as [e|].
  - pose proof (place_length (bucketMaxAge s) e (Slice (Instruction.ObjectID tx))
                  (Slice (DeriveID tx "bucket")) (Slice (DeriveID tx "catch-all")) L).
    specialize (IH (place (bucketMaxAge s) e (Slice (Instruction.ObjectID tx))
                      (Slice (DeriveID tx "bucket")) (Slice (DeriveID tx "catch-all")) L)).
    lia.
  - specialize (IH L). lia.
Qed.

(** The log after a run of accepted insertions: it is stored in the
    view, and it satisfies the timing invariant up to the latest clock
    reading allowed. *)
Lemma accepted_log s fuel hi v0 v txs :
  codec_roundtrip ->
  0 <= bucketMaxAge s ->
  v0 !! Slice theEventLog = None ->
  fresh_run s fuel (5 * Second) hi v0 txs ->
  (length txs <= fuel)%nat ->
  hi <= int64_max ->
  accepted s fuel v0 txs = Some v ->
  represents v (log_after s [] txs) /\
  timed (bucketMaxAge s) hi (log_after s [] txs) /\
  (length (log_after s [] txs) <= S fuel)%nat.
Proof.
  intros Hrt Hmax Hptr Hfr Hfuel Hhi Hacc.
  destruct (accepted_represents s fuel (5 * Second) hi Hrt txs v0 [] v Hptr Hfr
              ltac:(simpl; lia) Hacc) as [Hrep Hval].
  split; [exact Hrep|]. split.
  - apply log_after_timed; [exact Hmax | exact Hhi | |].
    + unfold timed. cbn [time_ordered]. repeat split; constructor.
    + pose proof (fresh_run_clock s fuel (5 * Second) hi txs v0 Hfr) as Hclock.
      rewrite List.Forall_forall in *. intros x Hx e He.
      destruct (Hval x Hx) as (e' & He' & Hw). specialize (Hclock x Hx).
      rewrite He in He'. injection He' as <-. lia.
  - pose proof (log_after_length s txs []). simpl in *. lia.
Qed.


End Properties.

(** * Further properties of the service *)

Section Extras.

Context `{Collaborators}.

(** ** What a search returns, whatever the view holds *)

Lemma filterRefs_invariant v from to topic searchMax :
  forall refs acc evs stop,
    filterRefs v from to topic searchMax refs acc = Ok (evs, stop) ->
    (length acc < capCount searchMax)%nat ->
    (exists more,
       evs = acc ++ more /\
       Forall (fun ev => matches from to topic ev = true /\
                         exists r, In r refs /\ getEventByID v r = Ok ev) more) /\
    (stop = true -> length evs = capCount searchMax) /\
    (stop = false -> (length evs < capCount searchMax)%nat).
Proof.
  induction refs as [|r refs IH]; intros acc evs stop Hf Hacc.
  - simpl in Hf. injection Hf as <- <-. split; [|split].
    + exists []. rewrite app_nil_r. split; [reflexivity | constructor].
    + discriminate.
    + intros _. exact Hacc.
  - cbn [filterRefs] in Hf.
    destruct (getEventByID v r) as [ev|err] eqn:Hev; [|discriminate]. cbn [bind] in Hf.
    destruct (matches from to topic ev) eqn:Hm.
    + rewrite cap_test in Hf by (rewrite length_app; simpl; lia).
      rewrite length_app in Hf. cbn [length] in Hf.
      destruct (Nat.leb_spec (capCount searchMax) (length acc + 1)) as [Hle|Hgt].
      * injection Hf as <- <-. split; [|split].
        -- exists [ev]. split; [reflexivity|]. repeat constructor; [exact Hm|].
           exists r. split; [left; reflexivity | exact Hev].
        -- intros _. rewrite length_app. simpl. lia.
        -- discriminate.
      * destruct (IH (acc ++ [ev]) evs stop Hf) as ((more & -> & Hmore) & Ht & Hn).
        { rewrite length_app. simpl. lia. }
        split; [|split; assumption].
        exists (ev :: more). rewrite <- app_assoc. split; [reflexivity|].
        constructor.
        -- split; [exact Hm|]. exists r. split; [left; reflexivity | exact Hev].
        -- eapply Forall_impl; [exact Hmore|]. cbv beta.
           intros e' (Hm' & r' & Hin & Hr'). split; [exact Hm'|].
           exists r'. split; [right; exact Hin | exact Hr'].
    + destruct (IH acc evs stop Hf Hacc) as ((more & -> & Hmore) & Ht & Hn).
      split; [|split; assumption].
      exists more. split; [reflexivity|].
      eapply Forall_impl; [exact Hmore|]. cbv beta.
      intros e' (Hm' & r' & Hin & Hr'). split; [exact Hm'|].
      exists r'. split; [right; exact Hin | exact Hr'].
Qed.

Lemma filterBuckets_invariant v from to topic searchMax :
  forall bs acc evs stop,
    filterBuckets v from to topic searchMax bs acc = Ok (evs, stop) ->
    (length acc < capCount searchMax)%nat ->
    (exists more,
       evs = acc ++ more /\
       Forall (fun ev => matches from to topic ev = true /\
                         exists r, getEventByID v r = Ok ev) more) /\
    (stop = true -> length evs = capCount searchMax) /\
    (stop = false -> (length evs < capCount searchMax)%nat).
Proof.
  induction bs as [|b bs IH]; intros acc evs stop Hf Hacc.
  - simpl in Hf. injection Hf as <- <-. split; [|split].
    + exists []. rewrite app_nil_r. split; [reflexivity | constructor].
    + discriminate.
    + intros _. exact Hacc.
  - cbn [filterBuckets] in Hf.
    destruct (filterRefs v from to topic searchMax (EventRefs b) acc)
      as [[evs1 stop1]|err] eqn:Hr; [|discriminate]. cbn [bind] in Hf.
    destruct (filterRefs_invariant v from to topic searchMax _ _ _ _ Hr Hacc)
      as ((more1 & -> & Hmore1) & Ht1 & Hn1).
    assert (Hm1 : Forall (fun ev => matches from to topic ev = true /\
                                    exists r, getEventByID v r = Ok ev) more1).
    { eapply Forall_impl; [exact Hmore1|]. cbv beta.
      intros e' (Hm' & r' & _ & Hr'). eauto. }
    destruct stop1.
    + injection Hf as <- <-. split; [|split].
      * exists more1. auto.
      * intros _. apply Ht1. reflexivity.
      * discriminate.
    + destruct (IH _ evs stop Hf (Hn1 eq_refl)) as ((more & -> & Hmore) & Ht & Hn).
      split; [|split; assumption].
      exists (more1 ++ more). rewrite <- app_assoc. split; [reflexivity|].
      apply Forall_app. split; assumption.
Qed.

(** X1: A successful search, over any view: every returned event is stored in
    the view and satisfies the bounds and the topic of the request; at
    most [max 1 searchMax] events are returned; the result is marked
    truncated exactly when that many were returned. *)
Theorem Search_sound_bounded (omni : SkipBlockID -> View) (searchMax now1 now2 : Z)
    (fuel : nat) (req : SearchRequest) (page : SearchResponse) :
  Search omni searchMax now1 now2 fuel req = Ok page ->
  Forall (fun ev =>
            (exists r, getEventByID (omni (ID req)) r = Ok ev) /\
            From req <= When ev < upper now1 req /\
            (ReqTopic req = "" \/ ReqTopic req = Topic ev)) (Events page) /\
  (length (Events page) <= capCount searchMax)%nat /\
  (Truncated page = true <-> length (Events page) = capCount searchMax).
Proof.
  unfold Search. fold (upper now1 req).
  destruct (IsNull (ID req)); [discriminate|].
  destruct (getLatestBucket (omni (ID req))) as [[id b]|err].
  - destruct (walkBuckets fuel (omni (ID req)) (From req) (upper now1 req) now2 b [])
      as [buckets|err]; [|discriminate]. cbn [bind].
    destruct (filterBuckets (omni (ID req)) (From req) (upper now1 req) (ReqTopic req)
                searchMax (rev buckets) []) as [[evs stop]|err] eqn:Hf; [|discriminate].
    cbn [bind]. intros [= <-]. cbn [Events Truncated].
    destruct (filterBuckets_invariant _ _ _ _ _ _ _ _ _ Hf (capCount_pos searchMax))
      as ((more & -> & Hmore) & Ht & Hn).
    cbn [app] in *. split; [|split].
    + eapply Forall_impl; [exact Hmore|]. cbv beta.
      intros ev (Hm & Hr). apply matches_spec in Hm. tauto.
    + destruct stop; [rewrite Ht by reflexivity; lia | specialize (Hn eq_refl); lia].
    + destruct stop; split; auto; try discriminate.
      intros Hl. specialize (Hn eq_refl). lia.
  - destruct (decide (err = errIndexMissing)); [|discriminate].
    intros [= <-]. cbn [Events Truncated length].
    pose proof (capCount_pos searchMax).
    split; [constructor|]. split; [lia|]. split; [discriminate | lia].
Qed.

(** ** The order of reading, and the errors met on the way *)

Lemma filterRefs_app v from to topic searchMax :
  forall refs1 refs2 acc,
    filterRefs v from to topic searchMax (refs1 ++ refs2) acc =
      match filterRefs v from to topic searchMax refs1 acc with
      | Ok (evs, true) => Ok (evs, true)
      | Ok (evs, false) => filterRefs v from to topic searchMax refs2 evs
      | Err err => Err err
      end.
Proof.
  induction refs1 as [|r refs1 IH]; intros refs2 acc; [reflexivity|].
  cbn [app filterRefs]. destruct (getEventByID v r) as [ev|err]; [|reflexivity].
  cbn [bind]. destruct (matches from to topic ev); [|apply IH].
  destruct (searchMax <=? Z.of_nat (length (acc ++ [ev]))); [reflexivity | apply IH].
Qed.

Lemma filterBuckets_flat v from to topic searchMax :
  forall bs acc,
    filterBuckets v from to topic searchMax bs acc =
      filterRefs v from to topic searchMax (concat (map EventRefs bs)) acc.
Proof.
  induction bs as [|b bs IH]; intros acc; [reflexivity|].
  cbn [filterBuckets map concat]. rewrite filterRefs_app.
  destruct (filterRefs v from to topic searchMax (EventRefs b) acc)
    as [[evs [|]]|err]; cbn [bind]; [reflexivity | apply IH | reflexivity].
Qed.

(** On a well-formed chain, a search is one pass of the filter over the
    references of the overlapping buckets, oldest bucket first. *)
Lemma Search_flat omni searchMax now1 now2 fuel req c :
  IsNull (ID req) = false ->
  head_chain (omni (ID req)) c ->
  (length c <= S fuel)%nat ->
  Search omni searchMax now1 now2 fuel req =
    match filterRefs (omni (ID req)) (From req) (upper now1 req) (ReqTopic req)
            searchMax (refs_read (From req) (upper now1 req) now2 c) [] with
    | Ok (evs, truncated) => Ok {| Events := evs; Truncated := truncated |}
    | Err err => Err err
    end.
Proof.
  intros Hn Hhc Hf. unfold Search. rewrite Hn.
  destruct c as [|[hid hb] c]; [destruct Hhc as [[] _]|].
  rewrite (getLatestBucket_head _ _ hid hb Hhc eq_refl).
  fold (upper now1 req).
  rewrite (walkBuckets_chain _ _ _ c hid hb fuel now2 [] (proj1 Hhc)
             ltac:(simpl in Hf; lia)).
  cbn [bind app]. rewrite filterBuckets_flat. unfold refs_read. cbn [map snd].
  destruct (filterRefs _ _ _ _ _ _ _) as [[evs tr]|err]; reflexivity.
Qed.

Lemma filterRefs_prefix v from to topic searchMax pre evs rest :
  resolves v pre evs ->
  filterRefs v from to topic searchMax (pre ++ rest) [] =
    if (capCount searchMax <=? length (List.filter (matches from to topic) evs))%nat
    then Ok (firstn (capCount searchMax) (List.filter (matches from to topic) evs), true)
    else filterRefs v from to topic searchMax rest
           (List.filter (matches from to topic) evs).
Proof.
  intros Hres. rewrite filterRefs_app.
  rewrite (filterRefs_resolved v from to topic searchMax pre evs [] Hres
             (capCount_pos searchMax)).
  unfold collected. cbn [length app Nat.add]. rewrite Nat.sub_0_r.
  destruct (capCount searchMax <=? _)%nat; reflexivity.
Qed.

(** X3: A dangling event reference is fatal: when the references read before
    it resolve and hold fewer matches than the cap, the search returns the
    error of the failed lookup and no result. *)
Theorem Search_dangling_reference (omni : SkipBlockID -> View)
    (searchMax now1 now2 : Z) (fuel : nat) (req : SearchRequest)
    (c : list (bytes * bucket)) (pre post : list bytes) (r : bytes)
    (evs : list Event) (err : error) :
  IsNull (ID req) = false ->
  head_chain (omni (ID req)) c ->
  (length c <= S fuel)%nat ->
  refs_read (From req) (upper now1 req) now2 c = pre ++ r :: post ->
  resolves (omni (ID req)) pre evs ->
  (length (List.filter (matches (From req) (upper now1 req) (ReqTopic req)) evs)
     < capCount searchMax)%nat ->
  getEventByID (omni (ID req)) r = Err err ->
  Search omni searchMax now1 now2 fuel req = Err err.
Proof.
  intros Hn Hhc Hf Hrefs Hres Hlt Hr.
  rewrite (Search_flat omni searchMax now1 now2 fuel req c Hn Hhc Hf), Hrefs.
  rewrite (filterRefs_prefix _ _ _ _ _ pre evs (r :: post) Hres).
  destruct (Nat.leb_spec (capCount searchMax)
              (length (List.filter (matches (From req) (upper now1 req) (ReqTopic req)) evs)));
    [lia|].
  cbn [filterRefs]. rewrite Hr. reflexivity.
Qed.

(** X2: A search reads no reference past the cap: once the references read so
    far resolve and hold [max 1 searchMax] matches, the result is these
    matches, marked truncated, whatever the later references are and
    whether they resolve or not. *)
Theorem Search_stops_at_cap (omni : SkipBlockID -> View)
    (searchMax now1 now2 : Z) (fuel : nat) (req : SearchRequest)
    (c : list (bytes * bucket)) (pre post : list bytes) (evs : list Event) :
  IsNull (ID req) = false ->
  head_chain (omni (ID req)) c ->
  (length c <= S fuel)%nat ->
  refs_read (From req) (upper now1 req) now2 c = pre ++ post ->
  resolves (omni (ID req)) pre evs ->
  (capCount searchMax
     <= length (List.filter (matches (From req) (upper now1 req) (ReqTopic req)) evs))%nat ->
  Search omni searchMax now1 now2 fuel req =
    Ok {| Events :=
            firstn (capCount searchMax)
              (List.filter (matches (From req) (upper now1 req) (ReqTopic req)) evs);
          Truncated := true |}.
Proof.
  intros Hn Hhc Hf Hrefs Hres Hle.
  rewrite (Search_flat omni searchMax now1 now2 fuel req c Hn Hhc Hf), Hrefs.
  rewrite (filterRefs_prefix _ _ _ _ _ pre evs post Hres).
  destruct (Nat.leb_spec (capCount searchMax)
              (length (List.filter (matches (From req) (upper now1 req) (ReqTopic req)) evs)));
    [reflexivity | lia].
Qed.


(** ** Broken chains *)

Lemma broken_chain_head v id b c err :
  broken_chain v ((id, b) :: c) err -> getBucketByID v id = Ok b /\ isFirst b = false.
Proof. simpl. tauto. Qed.

Lemma walkBack_broken v when err :
  forall c fuel hid hb isHead,
    broken_chain v c err ->
    hd_error c = Some (hid, hb) ->
    Forall (fun x => when < Start x.2) c ->
    (length c <= fuel)%nat ->
    walkBack fuel v when hid hb isHead = Err err.
Proof.
  induction c as [|[id b] c IH]; intros fuel hid hb isHead Hb Hh Hall Hf;
    [destruct Hb|].
  simpl in Hh. injection Hh as <- <-.
  inversion Hall as [|? ? Hlt Hall']; subst. cbn [snd] in Hlt.
  cbn [length] in Hf. destruct fuel as [|fuel]; [lia|].
  destruct Hb as (_ & Hnf & Hrest).
  cbn [walkBack]. rewrite Hnf.
  destruct (Z.leb_spec (Start b) when); [lia|].
  destruct c as [|[id1 b1] c].
  - rewrite Hrest. reflexivity.
  - destruct Hrest as [Hp Hb']. rewrite Hp.
    rewrite (proj1 (broken_chain_head _ _ _ _ _ Hb')). cbn [bind].
    apply (IH fuel id1 b1 false Hb' eq_refl Hall'). lia.
Qed.

Lemma walkBuckets_broken v from to err :
  forall c fuel hid hb bEnd acc,
    broken_chain v c err ->
    hd_error c = Some (hid, hb) ->
    from <= bEnd ->
    Forall (fun x => from <= Start x.2) c ->
    (length c <= fuel)%nat ->
    walkBuckets fuel v from to bEnd hb acc = Err ErrPanic.
Proof.
  induction c as [|[id b] c IH]; intros fuel hid hb bEnd acc Hb Hh Hend Hall Hf;
    [destruct Hb|].
  simpl in Hh. injection Hh as <- <-.
  inversion Hall as [|? ? Hle Hall']; subst. cbn [snd] in Hle.
  cbn [length] in Hf. destruct fuel as [|fuel]; [lia|].
  destruct Hb as (_ & Hnf & Hrest).
  cbn [walkBuckets]. destruct (Z.ltb_spec bEnd from); [lia|]. rewrite Hnf.
  destruct c as [|[id1 b1] c].
  - rewrite Hrest. reflexivity.
  - destruct Hrest as [Hp Hb']. rewrite Hp.
    rewrite (proj1 (broken_chain_head _ _ _ _ _ Hb')).
    apply (IH fuel id1 b1 (Start b) _ Hb' eq_refl Hle Hall'). lia.
Qed.

Lemma getLatestBucket_pointer v hid hb more :
  v !! Slice theEventLog = Some (VBytes hid :: more) ->
  getBucketByID v hid = Ok hb ->
  getLatestBucket v = Ok (hid, hb).
Proof. intros Hp Hg. unfold getLatestBucket. rewrite Hp, Hg. reflexivity. Qed.

(** X7: A store failure aborts an insertion. For a validated event, when
    reading the head fails with an error other than [errIndexMissing], or
    when the backward walk, passing buckets that start after the event,
    meets a predecessor that does not resolve, [contractFunction] returns
    that error with no state change, and the view stays as it was. *)
Theorem contractFunction_store_failure (s : Service) (now : Z) (fuel : nat)
    (v : View) (tx : Instruction.t) (spawn : Spawn.t) (coins : list Coin)
    (cid : string) (eventBuf : bytes) (e : Event) :
  Instruction.Delete tx = None ->
  Instruction.Invoke tx = None ->
  Instruction.Spawn tx = Some spawn ->
  GetContractState v tx = Ok cid ->
  ArgsSearch (Spawn.Args spawn) "event" = Some eventBuf ->
  decodeAndCheckEvent now eventBuf = Ok e ->
  (forall err,
     getLatestBucket v = Err err -> err <> errIndexMissing ->
     contractFunction s now fuel v tx coins = ([], [], Some err) /\
     execute s fuel v now tx = (v, Some err)) /\
  (forall c hid hb more err,
     v !! Slice theEventLog = Some (VBytes hid :: more) ->
     broken_chain v c err ->
     hd_error c = Some (hid, hb) ->
     Forall (fun x => When e < Start x.2) c ->
     (length c <= fuel)%nat ->
     contractFunction s now fuel v tx coins = ([], [], Some err) /\
     execute s fuel v now tx = (v, Some err)).
Proof.
  intros HD HI HS Hg Ha Hdc.
  assert (Hfail : forall err, insertEvent s now fuel v tx spawn = Err err ->
            contractFunction s now fuel v tx coins = ([], [], Some err) /\
            execute s fuel v now tx = (v, Some err)).
  { intros err Hins.
    assert (Hc : forall c', contractFunction s now fuel v tx c' = ([], [], Some err))
      by (intros c'; rewrite (contractFunction_spawn _ _ _ _ _ _ _ HD HI HS), Hins;
          reflexivity).
    split; [apply Hc|]. apply execute_error_unchanged. rewrite Hc. reflexivity. }
  split.
  - intros err Hl Hne. apply Hfail. unfold insertEvent.
    rewrite Hg. cbn [bind]. rewrite Ha, Hdc. cbn [bind]. rewrite Hl.
    destruct (decide (err = errIndexMissing)); [contradiction | reflexivity].
  - intros c hid hb more err Hp Hb Hh Hall Hf. apply Hfail. unfold insertEvent.
    rewrite Hg. cbn [bind]. rewrite Ha, Hdc. cbn [bind].
    destruct c as [|[id b] c]; [destruct Hb|].
    simpl in Hh. injection Hh as -> ->.
    rewrite (getLatestBucket_pointer v hid hb more Hp
               (proj1 (broken_chain_head _ _ _ _ _ Hb))).
    cbn [bind].
    rewrite (walkBack_broken v (When e) err _ fuel hid hb true Hb eq_refl Hall Hf).
    reflexivity.
Qed.

(** X4: A store failure aborts a search. When reading the head fails with an
    error other than [errIndexMissing], [Search] returns that error and
    no result. When the backward walk, still within the range, meets a
    predecessor that does not resolve, [Search] gives no result either,
    but it does not return the error of the lookup: its error path reads
    [Prev] of the nil bucket that came with the error, and panics. *)
Theorem Search_store_failure (omni : SkipBlockID -> View) (searchMax now1 now2 : Z)
    (fuel : nat) (req : SearchRequest) :
  IsNull (ID req) = false ->
  (forall err,
     getLatestBucket (omni (ID req)) = Err err -> err <> errIndexMissing ->
     Search omni searchMax now1 now2 fuel req = Err err) /\
  (forall c hid hb more err,
     omni (ID req) !! Slice theEventLog = Some (VBytes hid :: more) ->
     broken_chain (omni (ID req)) c err ->
     hd_error c = Some (hid, hb) ->
     From req <= now2 ->
     Forall (fun x => From req <= Start x.2) c ->
     (length c <= fuel)%nat ->
     Search omni searchMax now1 now2 fuel req = Err ErrPanic).
Proof.
  intros Hn. split.
  - intros err Hl Hne. unfold Search. rewrite Hn, Hl.
    destruct (decide (err = errIndexMissing)); [contradiction | reflexivity].
  - intros c hid hb more err Hp Hb Hh Hnow Hall Hf. unfold Search. rewrite Hn.
    destruct c as [|[id b] c]; [destruct Hb|].
    simpl in Hh. injection Hh as -> ->.
    rewrite (getLatestBucket_pointer _ hid hb more Hp
               (proj1 (broken_chain_head _ _ _ _ _ Hb))).
    rewrite (walkBuckets_broken _ (From req) _ err _ fuel hid hb now2 [] Hb eq_refl
               Hnow Hall Hf).
    reflexivity.
Qed.

(** ** What an insertion emits, whatever the view holds *)

(** X6: Whatever the view and the transaction are, [contractFunction] returns
    no coins and never emits a removal; when it succeeds, the transaction
    is a spawn carrying an event that decodes and lies within five seconds
    before the clock reading, the first state change creates the event
    record at the transaction's object address with the submitted bytes,
    and one to three state changes follow. *)
Theorem contractFunction_emits (s : Service) (now : Z) (fuel : nat) (v : View)
    (tx : Instruction.t) (coins : list Coin) :
  (contractFunction s now fuel v tx coins).1.2 = [] /\
  Forall (fun sc => StateChange.Action sc <> Remove)
    (changes (contractFunction s now fuel v tx coins)) /\
  (failure (contractFunction s now fuel v tx coins) = None ->
     exists spawn cid eventBuf e rest,
       Instruction.Spawn tx = Some spawn /\
       Instruction.Delete tx = None /\
       Instruction.Invoke tx = None /\
       ArgsSearch (Spawn.Args spawn) "event" = Some eventBuf /\
       decodeEvent eventBuf = Ok e /\
       now - 5 * Second <= When e <= now /\
       changes (contractFunction s now fuel v tx coins) =
         NewStateChange Create (Instruction.ObjectID tx) cid eventBuf :: rest /\
       (1 <= length rest <= 3)%nat).
Proof.
  unfold contractFunction, changes, failure.
  destruct (Instruction.Delete tx) eqn:HD;
    [cbn; split; [reflexivity|split; [constructor|discriminate]]|].
  destruct (Instruction.Invoke tx) eqn:HI;
    [cbn; split; [reflexivity|split; [constructor|discriminate]]|].
  destruct (Instruction.Spawn tx) as [spawn|] eqn:HS;
    [|cbn; split; [reflexivity|split; [constructor|discriminate]]].
  destruct (insertEvent s now fuel v tx spawn) as [scs|err] eqn:Hins;
    [|cbn; split; [reflexivity|split; [constructor|discriminate]]].
  cbn [fst snd]. split; [reflexivity|].
  unfold insertEvent in Hins.
  destruct (GetContractState v tx) as [cid|] eqn:Hg; [|discriminate].
  cbn [bind] in Hins.
  destruct (ArgsSearch (Spawn.Args spawn) "event") as [eventBuf|] eqn:Ha; [|discriminate].
  destruct (decodeAndCheckEvent now eventBuf) as [e|] eqn:Hdc; [|discriminate].
  cbn [bind] in Hins.
  assert (Hde : decodeEvent eventBuf = Ok e /\ now - 5 * Second <= When e <= now).
  { unfold decodeAndCheckEvent in Hdc.
    destruct (decodeEvent eventBuf) as [e0|]; [|discriminate]. cbn [bind] in Hdc.
    destruct (Z.ltb_spec (When e0) (now - 5 * Second)); [discriminate|].
    destruct (Z.ltb_spec now (When e0)); [discriminate|].
    injection Hdc as <-. split; [reflexivity | lia]. }
  assert (Hgoal :
    Forall (fun sc => StateChange.Action sc <> Remove) scs /\
    exists rest,
      scs = NewStateChange Create (Instruction.ObjectID tx) cid eventBuf :: rest /\
      (1 <= length rest <= 3)%nat).
  { destruct (getLatestBucket v) as [[bID b]|err] eqn:Hl.
    - cbn [bind] in Hins.
      destruct (walkBack fuel v (When e) bID b true) as [[[bID' b'] isHead]|err];
        [|discriminate].
      cbn [bind] in Hins.
      destruct (isHead && (bucketMaxAge s <? sub64 (When e) (Start b'))).
      + cbn [bind] in Hins.
        destruct (encodeBucket _) as [buf|]; [|discriminate].
        cbn [bind app] in Hins. injection Hins as <-.
        split; [repeat constructor; discriminate|].
        eexists. split; [reflexivity | simpl; lia].
      + destruct (encodeBucket _) as [buf|]; [|discriminate].
        cbn [bind app] in Hins. injection Hins as <-.
        split; [repeat constructor; discriminate|].
        eexists. split; [reflexivity | simpl; lia].
    - destruct (decide (err = errIndexMissing)); [|discriminate].
      cbn [bind] in Hins.
      destruct (encodeBucket {| Start := 0; Prev := []; EventRefs := [] |})
        as [sbuf|]; [|discriminate].
      cbn [bind] in Hins.
      destruct (encodeBucket _) as [hbuf|]; [|discriminate].
      cbn [bind app] in Hins. injection Hins as <-.
      split; [repeat constructor; discriminate|].
      eexists. split; [reflexivity | simpl; lia]. }
  destruct Hgoal as [Hnr (rest & Hscs & Hlen)].
  split; [exact Hnr|]. intros _.
  exists spawn, cid, eventBuf, e, rest. destruct Hde. auto 10.
Qed.


(** ** What one insertion does to the log *)

Lemma extends_refl x : extends x x.
Proof.
  unfold extends. repeat split; try reflexivity.
  - exists []. rewrite app_nil_r. reflexivity.
  - exists []. rewrite app_nil_r. reflexivity.
Qed.

Lemma extends_trans x y z : extends x y -> extends y z -> extends x z.
Proof.
  intros (I1 & S1 & P1 & (r1 & R1) & (e1 & E1)) (I2 & S2 & P2 & (r2 & R2) & (e2 & E2)).
  unfold extends. repeat split; try congruence.
  - exists (r1 ++ r2). rewrite R2, R1, app_assoc. reflexivity.
  - exists (e1 ++ e2). rewrite E2, E1, app_assoc. reflexivity.
Qed.

Lemma Forall2_extends_refl (L : list (bytes * bucket * list Event)) :
  Forall2 extends L L.
Proof. induction L; constructor; [apply extends_refl | assumption]. Qed.

Lemma grows_refl (L : list (bytes * bucket * list Event)) : grows L L.
Proof. exists [], L. split; [reflexivity | apply Forall2_extends_refl]. Qed.

Lemma Forall2_extends_trans :
  forall (A B C : list (bytes * bucket * list Event)),
    Forall2 extends A B -> Forall2 extends B C -> Forall2 extends A C.
Proof.
  intros A B C HAB. revert C. induction HAB as [|a b A B Hab _ IH]; intros C HBC.
  - inversion HBC. constructor.
  - inversion HBC as [|? c ? C' Hbc HBC']; subst.
    constructor; [eapply extends_trans; eassumption | apply IH; assumption].
Qed.

Lemma grows_trans (A B C : list (bytes * bucket * list Event)) :
  grows A B -> grows B C -> grows A C.
Proof.
  intros (f1 & r1 & -> & H1) (f2 & r2 & -> & H2).
  apply Forall2_app_inv_l in H2. destruct H2 as (ra & rb & Ha & Hb & ->).
  exists (f2 ++ ra), rb. split; [rewrite app_assoc; reflexivity|].
  eapply Forall2_extends_trans; eassumption.
Qed.

Lemma attach_extends e addr :
  forall L : list (bytes * bucket * list Event),
    Forall2 extends L (attach e addr L).
Proof.
  induction L as [|[[id b] evs] L IH]; [constructor|].
  cbn [attach]. destruct (isFirst b || (Start b <=? When e)).
  - constructor; [|apply Forall2_extends_refl].
    unfold extends. cbn. repeat split; eauto.
  - constructor; [apply extends_refl | exact IH].
Qed.

(** An insertion keeps every bucket of the log, with its address, start
    and predecessor, and only adds references at the end of one. *)
Lemma place_grows maxAge e addr newBid catchID
    (L : list (bytes * bucket * list Event)) :
  grows L (place maxAge e addr newBid catchID L).
Proof.
  destruct L as [|[[hid hb] hevs] L0].
  - eexists _, []. split; [rewrite app_nil_r; reflexivity | constructor].
  - unfold place.
    destruct ((isFirst hb || (Start hb <=? When e))
              && (maxAge <? sub64 (When e) (Start hb))).
    + eexists [_], _. split; [reflexivity | apply Forall2_extends_refl].
    + exists [], (attach e addr ((hid, hb, hevs) :: L0)).
      split; [reflexivity | apply attach_extends].
Qed.

Lemma log_after_grows s :
  forall txs (L : list (bytes * bucket * list Event)), grows L (log_after s L txs).
Proof.
  induction txs as [|[now tx] txs IH]; intros L; [apply grows_refl|].
  cbn [log_after]. destruct (event_of tx) as [e|]; [|apply IH].
  eapply grows_trans; [apply place_grows | apply IH].
Qed.

Lemma attach_first_zero e addr :
  forall L : list (bytes * bucket * list Event),
    first_zero L -> first_zero (attach e addr L).
Proof.
  unfold first_zero.
  induction L as [|[[id b] evs] L IH]; intros Hall; [constructor|].
  inversion Hall as [|? ? Hx Hall']; subst. cbn [attach].
  destruct (isFirst b || (Start b <=? When e)); constructor; auto.
Qed.

Lemma place_first_zero maxAge e addr newBid catchID
    (L : list (bytes * bucket * list Event)) :
  catchID <> [] ->
  ~ In [] (map entry_id L) ->
  first_zero L ->
  first_zero (place maxAge e addr newBid catchID L).
Proof.
  intros Hc Hne Hfz. destruct L as [|[[hid hb] hevs] L0].
  - unfold place, first_zero. constructor; [|constructor; [|constructor]].
    + cbn. unfold isFirst. cbn. destruct catchID; [congruence | discriminate].
    + reflexivity.
  - unfold place.
    destruct ((isFirst hb || (Start hb <=? When e))
              && (maxAge <? sub64 (When e) (Start hb))).
    + constructor; [|exact Hfz].
      cbn. unfold isFirst. cbn. destruct hid; [|discriminate].
      exfalso. apply Hne. left. reflexivity.
    + apply attach_first_zero. exact Hfz.
Qed.

Lemma attach_lower_bounded e addr :
  forall L : list (bytes * bucket * list Event),
    first_zero L -> 0 <= When e ->
    lower_bounded L -> lower_bounded (attach e addr L).
Proof.
  unfold first_zero, lower_bounded.
  induction L as [|[[id b] evs] L IH]; intros Hfz He Hall; [constructor|].
  inversion Hall as [|? ? Hx Hall']; subst.
  inversion Hfz as [|? ? Hz Hfz']; subst.
  cbn [entry_bucket entry_events fst snd] in *.
  cbn [attach]. destruct (isFirst b || (Start b <=? When e)) eqn:Hc.
  - constructor; [|exact Hall'].
    cbn [entry_bucket entry_events fst snd addRef Start].
    apply Forall_app. split; [exact Hx|]. repeat constructor.
    destruct (isFirst b) eqn:Hf.
    + rewrite (Hz eq_refl). exact He.
    + cbn [orb] in Hc. apply Z.leb_le. exact Hc.
  - constructor; [exact Hx | apply IH; assumption].
Qed.

Lemma place_lower_bounded maxAge e addr newBid catchID
    (L : list (bytes * bucket * list Event)) :
  first_zero L -> 0 <= When e ->
  lower_bounded L ->
  lower_bounded (place maxAge e addr newBid catchID L).
Proof.
  intros Hfz He Hlb. destruct L as [|[[hid hb] hevs] L0].
  - unfold place, lower_bounded. repeat constructor. cbn. lia.
  - unfold place.
    destruct ((isFirst hb || (Start hb <=? When e))
              && (maxAge <? sub64 (When e) (Start hb))).
    + constructor; [|exact Hlb]. repeat constructor. cbn. lia.
    + apply attach_lower_bounded; assumption.
Qed.

Lemma attach_starts_eq e addr :
  forall L : list (bytes * bucket * list Event),
    map (fun x => Start (entry_bucket x)) (attach e addr L)
    = map (fun x => Start (entry_bucket x)) L.
Proof.
  induction L as [|[[id b] evs] L IH]; [reflexivity|].
  cbn [attach]. destruct (isFirst b || (Start b <=? When e)); cbn [map].
  - reflexivity.
  - rewrite IH. reflexivity.
Qed.

Lemma spaced_ext maxAge :
  forall L L' : list (bytes * bucket * list Event),
    map (fun x => Start (entry_bucket x)) L = map (fun x => Start (entry_bucket x)) L' ->
    spaced maxAge L -> spaced maxAge L'.
Proof.
  induction L as [|x L IH]; intros [|x' L'] Hm Hs; try discriminate; [exact I|].
  cbn [map] in Hm. injection Hm as Hx Hm.
  destruct L as [|y [|z L]]; destruct L' as [|y' [|z' L']]; try discriminate;
    try exact I.
  destruct Hs as [Hlt Hs]. pose proof Hm as Hm'. cbn [map] in Hm'.
  injection Hm' as Hy _. split; [rewrite <- Hx, <- Hy; exact Hlt|].
  apply (IH (y' :: z' :: L') Hm Hs).
Qed.

Lemma place_spaced maxAge bound e addr newBid catchID
    (L : list (bytes * bucket * list Event)) :
  bound <= int64_max ->
  0 <= When e <= bound ->
  timed maxAge bound L ->
  spaced maxAge L ->
  spaced maxAge (place maxAge e addr newBid catchID L).
Proof.
  intros Hb He (Hto & Hnn & _) Hsp. destruct L as [|[[hid hb] hevs] L0].
  - exact I.
  - destruct Hto as (_ & Hs & _). cbn [entry_bucket fst snd] in Hs.
    inversion Hnn as [|? ? Hnh _]; subst. cbn [entry_bucket fst snd] in Hnh.
    unfold place. rewrite sub64_exact by lia.
    destruct (isFirst hb || (Start hb <=? When e));
      destruct (Z.ltb_spec maxAge (When e - Start hb)); cbn [andb].
    + destruct L0 as [|y L0]; [exact I|].
      split; [cbn [entry_bucket fst snd Start]; lia | exact Hsp].
    + eapply spaced_ext; [symmetry; apply attach_starts_eq | exact Hsp].
    + eapply spaced_ext; [symmetry; apply attach_starts_eq | exact Hsp].
    + eapply spaced_ext; [symmetry; apply attach_starts_eq | exact Hsp].
Qed.

Lemma events_of_cons x (L : list (bytes * bucket * list Event)) :
  events_of (x :: L) = events_of L ++ entry_events x.
Proof.
  unfold events_of. cbn [rev]. rewrite map_app, concat_app. cbn.
  rewrite app_nil_r. reflexivity.
Qed.

Lemma events_of_middle pre x (post : list (bytes * bucket * list Event)) :
  events_of (pre ++ x :: post) = events_of post ++ entry_events x ++ events_of pre.
Proof.
  change (pre ++ x :: post) with (pre ++ [x] ++ post).
  rewrite !events_of_app. unfold events_of at 2. cbn. rewrite app_nil_r, app_assoc.
  reflexivity.
Qed.

Lemma stored_pairs_middle pre x (post : list (bytes * bucket * list Event)) :
  stored_pairs (pre ++ x :: post) =
    stored_pairs pre ++ combine (EventRefs (entry_bucket x)) (entry_events x)
      ++ stored_pairs post.
Proof. unfold stored_pairs. rewrite flat_map_app. reflexivity. Qed.

Lemma combine_snoc {A B : Type} (l : list A) (l' : list B) a b :
  length l = length l' ->
  combine (l ++ [a]) (l' ++ [b]) = combine l l' ++ [(a, b)].
Proof.
  revert l'. induction l as [|x l IH]; intros [|y l'] Hlen; try discriminate.
  - reflexivity.
  - cbn. rewrite IH by (simpl in Hlen; lia). reflexivity.
Qed.

(** On a linked chain whose references and events go in pairs, appending
    adds the event, with its address, to the log, and keeps the rest. *)
Lemma attach_adds e addr (L : list (bytes * bucket * list Event)) :
  linked (map fst L) ->
  Forall (fun x => length (EventRefs (entry_bucket x)) = length (entry_events x)) L ->
  Permutation (events_of (attach e addr L)) (e :: events_of L) /\
  (forall p, In p (stored_pairs (attach e addr L)) <->
             p = (addr, e) \/ In p (stored_pairs L)).
Proof.
  intros Hl Hlen.
  destruct (attach_split e addr L Hl)
    as (pre & id & b & evs & post & HL & _ & _ & Hatt & _).
  rewrite Hatt. clear Hatt. subst L. split.
  - rewrite !events_of_middle. cbn [entry_events snd].
    replace (events_of post ++ (evs ++ [e]) ++ events_of pre)
      with ((events_of post ++ evs) ++ e :: events_of pre)
      by (rewrite <- !app_assoc; reflexivity).
    symmetry. apply Permutation_cons_app. rewrite <- app_assoc. reflexivity.
  - intros p. rewrite !stored_pairs_middle.
    cbn [entry_bucket entry_events fst snd addRef EventRefs].
    rewrite combine_snoc.
    + rewrite !in_app_iff. cbn [In]. intuition congruence.
    + apply Forall_app in Hlen. destruct Hlen as [_ Hlen].
      inversion Hlen as [|? ? Hx _]; subst. exact Hx.
Qed.


Lemma place_adds maxAge e addr newBid catchID
    (L : list (bytes * bucket * list Event)) :
  (L = [] \/ linked (map fst L)) ->
  Forall (fun x => length (EventRefs (entry_bucket x)) = length (entry_events x)) L ->
  Permutation (events_of (place maxAge e addr newBid catchID L)) (e :: events_of L) /\
  (forall p, In p (stored_pairs (place maxAge e addr newBid catchID L)) <->
             p = (addr, e) \/ In p (stored_pairs L)).
Proof.
  intros Hl Hlen. destruct L as [|[[hid hb] hevs] L0].
  - unfold place. split; [reflexivity|]. intros p. cbn. intuition congruence.
  - destruct Hl as [Hl|Hl]; [discriminate|]. unfold place.
    destruct ((isFirst hb || (Start hb <=? When e))
              && (maxAge <? sub64 (When e) (Start hb))).
    + split.
      * rewrite events_of_cons. cbn [entry_events snd].
        symmetry. apply Permutation_cons_append.
      * intros p. cbn [stored_pairs flat_map entry_bucket entry_events fst snd
                       EventRefs combine app In].
        fold (stored_pairs ((hid, hb, hevs) :: L0)). intuition congruence.
    + apply attach_adds; assumption.
Qed.

Lemma represents_pairs v (L : list (bytes * bucket * list Event)) :
  represents v L ->
  (L = [] \/ linked (map fst L)) /\
  Forall (fun x => length (EventRefs (entry_bucket x)) = length (entry_events x)) L /\
  ~ In [] (map entry_id L) /\
  Forall (fun p => getEventByID v p.1 = Ok p.2) (stored_pairs L).
Proof.
  intros Hrep. destruct L as [|x L0].
  - split; [left; reflexivity|]. split; [constructor|]. split; [tauto | constructor].
  - destruct (represents_elim v _ _ Hrep) as (Hl & _ & _ & _ & Hne & _ & Hev).
    split; [right; exact Hl|].
    split; [|split; [exact Hne|]].
    + eapply Forall_impl; [exact Hev|]. cbv beta. intros y [Hres _].
      eapply Forall2_length. exact Hres.
    + unfold stored_pairs. apply List.Forall_forall. intros p Hp.
      apply in_flat_map in Hp. destruct Hp as (y & Hy & Hp).
      rewrite List.Forall_forall in Hev. destruct (Hev y Hy) as [Hres _].
      clear - Hres Hp. unfold resolves in Hres.
      induction Hres as [|r ev refs evs Hr _ IH]; [destruct Hp|].
      destruct Hp as [<-|Hp]; [exact Hr | apply IH; exact Hp].
Qed.

Lemma timed_nil maxAge bound : timed maxAge bound [].
Proof. unfold timed. cbn. repeat split; constructor. Qed.

Lemma shaped_nil maxAge bound : shaped maxAge bound [].
Proof.
  unfold shaped, first_zero, lower_bounded.
  split; [apply timed_nil|]. repeat split; constructor.
Qed.

Lemma sent_cons_some now tx e txs :
  event_of tx = Some e ->
  sent ((now, tx) :: txs) = (Slice (Instruction.ObjectID tx), e) :: sent txs /\
  events_sent ((now, tx) :: txs) = e :: events_sent txs.
Proof. intros He. unfold sent, events_sent. cbn. rewrite He. split; reflexivity. Qed.

(** A run of accepted insertions, from a stored and shaped log: the
    resulting log is stored and shaped, and it holds the events it held
    plus, each once and under its address, the events of the run. *)
Lemma accepted_run_inv s fuel hi :
  codec_roundtrip ->
  0 <= bucketMaxAge s ->
  hi <= int64_max ->
  forall txs v L v',
    represents v L ->
    shaped (bucketMaxAge s) hi L ->
    fresh_run s fuel (5 * Second) hi v txs ->
    (pred (length L) + length txs <= fuel)%nat ->
    accepted s fuel v txs = Some v' ->
    represents v' (log_after s L txs) /\
    shaped (bucketMaxAge s) hi (log_after s L txs) /\
    Permutation (events_of (log_after s L txs)) (events_sent txs ++ events_of L) /\
    (forall p, In p (stored_pairs (log_after s L txs)) <->
               In p (sent txs) \/ In p (stored_pairs L)) /\
    length (sent txs) = length txs.
Proof.
  intros Hrt Hmax Hhi.
  induction txs as [|[now tx] txs IH]; intros v L v' Hrep Hsh Hfr Hfuel Hacc.
  - simpl in Hacc. injection Hacc as <-. cbn [log_after].
    split; [exact Hrep|]. split; [exact Hsh|]. split; [reflexivity|].
    split; [|reflexivity]. intros p. cbn. tauto.
  - cbn [accepted] in Hacc. cbn [fresh_run] in Hfr.
    destruct Hfr as (Hfresh & Hclock & Hfr).
    destruct (execute s fuel v now tx) as [v1 [err|]] eqn:Hex; [discriminate|].
    cbn [fst] in Hfr. cbn [length] in Hfuel.
    destruct (execute_represents s fuel v now tx v1 L Hrt Hrep Hfresh ltac:(lia) Hex)
      as (e & Hev & Hval & Hrep1).
    destruct (represents_pairs v L Hrep) as (Hl & Hlen & Hne & _).
    destruct Hsh as (Ht & Hfz & Hlb & Hsp).
    assert (Hwhen : 0 <= When e <= hi) by lia.
    set (L1 := place (bucketMaxAge s) e (Slice (Instruction.ObjectID tx))
                 (Slice (DeriveID tx "bucket")) (Slice (DeriveID tx "catch-all")) L)
      in *.
    assert (Hsh1 : shaped (bucketMaxAge s) hi L1).
    { split; [apply place_timed; assumption|].
      split; [apply place_first_zero; try assumption;
              destruct Hfresh as (_ & _ & _ & _ & _ & Hc); exact Hc|].
      split; [apply place_lower_bounded; try assumption; lia|].
      eapply place_spaced; eassumption. }
    destruct (place_adds (bucketMaxAge s) e (Slice (Instruction.ObjectID tx))
                (Slice (DeriveID tx "bucket")) (Slice (DeriveID tx "catch-all")) L
                Hl Hlen) as [Hperm Hpairs].
    fold L1 in Hperm, Hpairs.
    pose proof (place_length (bucketMaxAge s) e (Slice (Instruction.ObjectID tx))
                  (Slice (DeriveID tx "bucket")) (Slice (DeriveID tx "catch-all")) L)
      as Hpl. fold L1 in Hpl.
    destruct (IH v1 L1 v' Hrep1 Hsh1 Hfr ltac:(lia) Hacc)
      as (Hrep' & Hsh' & Hperm' & Hpairs' & Hlen').
    destruct (sent_cons_some now tx e txs Hev) as [Hsent Hevs].
    cbn [log_after]. rewrite Hev. fold L1.
    split; [exact Hrep'|]. split; [exact Hsh'|]. split; [|split].
    + rewrite Hperm', Hperm, Hevs. cbn [app]. symmetry. apply Permutation_middle.
    + intros p. rewrite Hpairs', Hpairs, Hsent. cbn [In]. intuition congruence.
    + rewrite Hsent. cbn [length]. rewrite Hlen'. reflexivity.
Qed.


Lemma time_ordered_sorted :
  forall (L : list (bytes * bucket * list Event)) b,
    time_ordered b L -> starts_sorted (map fst L).
Proof.
  induction L as [|[[id bk] evs] L IH]; intros b Ht; [exact I|].
  destruct L as [|[[id' bk'] evs'] L']; [exact I|].
  cbn [time_ordered] in Ht. destruct Ht as (_ & _ & Ht).
  change (Start bk' <= Start bk /\ starts_sorted (map fst ((id', bk', evs') :: L'))).
  split; [|exact (IH _ Ht)].
  cbn [time_ordered] in Ht. destruct Ht as (_ & Hs & _). exact Hs.
Qed.

Lemma linked_last (c : list (bytes * bucket)) :
  linked c -> exists id b, last c = Some (id, b) /\ isFirst b = true.
Proof.
  induction c as [|[id b] c IH]; [intros []|].
  destruct c as [|[id' b'] c'].
  - intros Hl. exists id, b. split; [reflexivity | exact Hl].
  - intros (_ & _ & Hl). destruct (IH Hl) as (i & k & Hlast & Hf).
    exists i, k. split; [exact Hlast | exact Hf].
Qed.

Lemma grows_length (L L' : list (bytes * bucket * list Event)) :
  grows L L' -> (length L <= length L')%nat.
Proof.
  intros (front & rest & -> & Hext). rewrite length_app.
  apply Forall2_length in Hext. lia.
Qed.

Lemma Forall_events_of (P : Event -> Prop) (L : list (bytes * bucket * list Event)) :
  Forall (fun x => Forall P (entry_events x)) L -> Forall P (events_of L).
Proof.
  induction 1 as [|x L Hx _ IH]; [constructor|].
  rewrite events_of_cons. apply Forall_app. split; assumption.
Qed.

(** On a time-ordered log with no event older than the start of its
    bucket, the buckets a search leaves out hold no match. *)
Lemma all_matches_complete from to topic :
  forall (L : list (bytes * bucket * list Event)) b bEnd,
    time_ordered b L -> b <= bEnd -> lower_bounded L ->
    all_matches from to bEnd topic L
    = List.filter (matches from to topic) (events_of L).
Proof.
  unfold all_matches, examined.
  induction L as [|x L IH]; intros b bEnd Ht Hb Hlb; [reflexivity|].
  cbn [overlapping]. destruct (bEnd <? from) eqn:Hstop.
  - symmetry. apply filter_none. apply Forall_events_of.
    eapply Forall_impl; [apply (time_ordered_all _ _ Ht)|].
    cbv beta. intros y Hy. eapply Forall_impl; [exact Hy|].
    cbv beta. intros e He. unfold matches.
    replace (from <=? When e) with false by (symmetry; apply Z.leb_gt; lia).
    reflexivity.
  - cbn [time_ordered] in Ht. destruct Ht as (_ & _ & Ht).
    inversion Hlb as [|? ? Hx Hlb']; subst.
    fold (events_of (x :: L)). rewrite events_of_cons, List.filter_app.
    rewrite rev_app_distr, map_app, concat_app, List.filter_app.
    rewrite (IH (Start (entry_bucket x)) (Start (entry_bucket x)) Ht ltac:(lia) Hlb').
    f_equal. destruct (to <? Start (entry_bucket x)) eqn:Hskip.
    + symmetry. apply filter_none. eapply Forall_impl; [exact Hx|].
      cbv beta. intros e He. unfold matches.
      replace (When e <? to) with false by (symmetry; apply Z.ltb_ge; lia).
      rewrite andb_false_r. reflexivity.
    + cbn. rewrite app_nil_r. reflexivity.
Qed.

Lemma Permutation_list_filter {A : Type} (f : A -> bool) (l l' : list A) :
  Permutation l l' -> Permutation (List.filter f l) (List.filter f l').
Proof.
  induction 1 as [|x l l' _ IH|x y l|l l' l'' _ IH1 _ IH2].
  - constructor.
  - cbn. destruct (f x); [constructor|]; exact IH.
  - cbn. destruct (f x), (f y); try reflexivity. constructor.
  - etransitivity; eassumption.
Qed.

(** A run of accepted insertions into an empty ledger: the log it leaves
    is stored and shaped, and holds the events of the run, each once and
    under the address of its transaction. *)
Lemma run_from_empty s fuel hi v0 v txs :
  codec_roundtrip ->
  0 <= bucketMaxAge s ->
  v0 !! Slice theEventLog = None ->
  fresh_run s fuel (5 * Second) hi v0 txs ->
  (length txs <= fuel)%nat ->
  hi <= int64_max ->
  accepted s fuel v0 txs = Some v ->
  represents v (log_after s [] txs) /\
  shaped (bucketMaxAge s) hi (log_after s [] txs) /\
  Permutation (events_of (log_after s [] txs)) (events_sent txs) /\
  (forall p, In p (stored_pairs (log_after s [] txs)) <-> In p (sent txs)) /\
  length (sent txs) = length txs /\
  (length (log_after s [] txs) <= S (length txs))%nat.
Proof.
  intros Hrt Hmax Hempty Hfr Hfuel Hhi Hacc.
  destruct (accepted_run_inv s fuel hi Hrt Hmax Hhi txs v0 [] v Hempty
              (shaped_nil _ _) Hfr Hfuel Hacc)
    as (Hrep & Hsh & Hperm & Hpairs & Hlen).
  split; [exact Hrep|]. split; [exact Hsh|].
  split; [rewrite Hperm; cbn; rewrite app_nil_r; reflexivity|].
  split; [intros p; rewrite Hpairs; cbn; tauto|].
  split; [exact Hlen|].
  pose proof (log_after_length s txs []) as Hl. cbn in Hl. lia.
Qed.

Lemma log_after_nonempty s now tx e txs :
  event_of tx = Some e ->
  (2 <= length (log_after s [] ((now, tx) :: txs)))%nat.
Proof.
  intros He. cbn [log_after]. rewrite He.
  match goal with
  | |- (2 <= length (log_after s ?L0 txs))%nat =>
      pose proof (grows_length _ _ (log_after_grows s txs L0)) as Hg
  end.
  cbn in Hg. exact Hg.
Qed.

(** X9: After a non-empty run of accepted insertions into an empty ledger,
    the head pointer names a chain of buckets linked by [Prev] whose
    starts are non-negative and do not increase from the head backwards,
    whose addresses are distinct, which holds at least two and at most
    one more bucket than the run has transactions, and which ends in a
    bucket that starts at zero and has no predecessor. *)
Theorem insertions_chain_shape (s : Service) (fuel : nat) (hi : Z) (v0 v : View)
    (txs : list (Z * Instruction.t)) :
  codec_roundtrip ->
  0 <= bucketMaxAge s ->
  v0 !! Slice theEventLog = None ->
  fresh_run s fuel (5 * Second) hi v0 txs ->
  (length txs <= fuel)%nat ->
  hi <= int64_max ->
  accepted s fuel v0 txs = Some v ->
  txs <> [] ->
  let c := map fst (log_after s [] txs) in
  head_chain v c /\
  starts_sorted c /\
  Forall (fun x => 0 <= Start x.2) c /\
  (2 <= length c <= S (length txs))%nat /\
  NoDup (map fst c) /\
  exists id b, last c = Some (id, b) /\ Start b = 0 /\ Prev b = [].
Proof.
  intros Hrt Hmax Hempty Hfr Hfuel Hhi Hacc Hne c.
  destruct (run_from_empty s fuel hi v0 v txs Hrt Hmax Hempty Hfr Hfuel Hhi Hacc)
    as (Hrep & ((Hto & Hst & _) & Hfz & _ & _) & _ & _ & _ & Hlen).
  destruct (accepted_represents s fuel _ _ Hrt txs v0 [] v Hempty Hfr
              ltac:(simpl; lia) Hacc) as [_ Hevs].
  destruct txs as [|[now tx] txs']; [congruence|].
  inversion Hevs as [|? ? (e & He & _) _]; subst.
  pose proof (log_after_nonempty s now tx e txs' He) as H2.
  set (L := log_after s [] ((now, tx) :: txs')) in *.
  assert (HL : L <> []) by (intros HL; rewrite HL in H2; simpl in H2; lia).
  destruct (represents_elim' v L HL Hrep) as (Hl & _ & _ & Hnd & _ & _ & _).
  subst c. split; [|split; [|split; [|split; [|split]]]].
  - destruct L; [congruence|]. exact (proj1 Hrep).
  - exact (time_ordered_sorted _ _ Hto).
  - apply Forall_map. eapply Forall_impl; [exact Hst|]. cbv beta. intros x Hx. exact Hx.
  - rewrite length_map. split; [exact H2 | exact Hlen].
  - rewrite map_map. exact Hnd.
  - destruct (linked_last _ Hl) as (id & b & Hlast & Hf).
    exists id, b. split; [exact Hlast|].
    assert (Hin : In (id, b) (map fst L)).
    { apply list_elem_of_In. eapply last_Some_elem_of. exact Hlast. }
    apply in_map_iff in Hin. destruct Hin as (x & Hx & Hin).
    unfold first_zero in Hfz. rewrite List.Forall_forall in Hfz.
    specialize (Hfz x Hin). unfold entry_bucket in Hfz. rewrite Hx in Hfz.
    cbn in Hfz. split; [exact (Hfz Hf)|].
    unfold isFirst in Hf. destruct (Prev b); [reflexivity | discriminate].
Qed.


Lemma time_ordered_split :
  forall newer b x y (older : list (bytes * bucket * list Event)),
    time_ordered b (newer ++ x :: y :: older) ->
    Forall (fun e => When e <= Start (entry_bucket x)) (entry_events y).
Proof.
  induction newer as [|a newer IH]; intros b x y older Ht.
  - cbn [app time_ordered] in Ht. destruct Ht as (_ & _ & Hy & _). exact Hy.
  - cbn [app time_ordered] in Ht. destruct Ht as (_ & _ & Ht). exact (IH _ _ _ older Ht).
Qed.

Lemma spaced_split maxAge :
  forall newer x y (older : list (bytes * bucket * list Event)),
    spaced maxAge (newer ++ x :: y :: older) -> older <> [] ->
    Start (entry_bucket y) + maxAge < Start (entry_bucket x).
Proof.
  induction newer as [|a newer IH]; intros x y older Hsp Hne.
  - destruct older as [|z older]; [congruence|].
    cbn [app spaced] in Hsp. destruct Hsp as [Hxy _]. exact Hxy.
  - apply (IH x y older); [|exact Hne].
    destruct newer as [|a' newer].
    + cbn [app spaced] in Hsp. destruct Hsp as [_ Hsp]. exact Hsp.
    + cbn [app] in Hsp |- *.
      destruct (newer ++ x :: y :: older) as [|z rest] eqn:Hrest.
      * destruct newer; discriminate.
      * cbn [spaced] in Hsp. destruct Hsp as [_ Hsp]. exact Hsp.
Qed.

(** X10: In the log left by accepted insertions into an empty ledger, every
    event of a bucket other than the head lies between the start of its
    bucket and the start of the next newer bucket; two consecutive buckets
    start more than [bucketMaxAge] apart, unless the older one is the
    first bucket; and every event of the head lies within [bucketMaxAge]
    after the start of the head, and not after the latest clock
    reading. *)
Theorem insertions_bucket_spans (s : Service) (fuel : nat) (hi : Z) (v0 v : View)
    (txs : list (Z * Instruction.t)) :
  codec_roundtrip ->
  0 <= bucketMaxAge s ->
  v0 !! Slice theEventLog = None ->
  fresh_run s fuel (5 * Second) hi v0 txs ->
  (length txs <= fuel)%nat ->
  hi <= int64_max ->
  accepted s fuel v0 txs = Some v ->
  let L := log_after s [] txs in
  represents v L /\
  (forall newer x y older, L = newer ++ x :: y :: older ->
     Forall (fun e => Start (entry_bucket y) <= When e <= Start (entry_bucket x))
       (entry_events y) /\
     (older <> [] ->
      Start (entry_bucket y) + bucketMaxAge s < Start (entry_bucket x))) /\
  (forall x rest, L = x :: rest ->
     Forall (fun e => Start (entry_bucket x) <= When e
                      <= Start (entry_bucket x) + bucketMaxAge s /\
                      When e <= hi)
       (entry_events x)).
Proof.
  intros Hrt Hmax Hempty Hfr Hfuel Hhi Hacc L.
  destruct (run_from_empty s fuel hi v0 v txs Hrt Hmax Hempty Hfr Hfuel Hhi Hacc)
    as (Hrep & ((Hto & _ & Hhead) & _ & Hlb & Hsp) & _).
  fold L in Hrep, Hto, Hhead, Hlb, Hsp.
  split; [exact Hrep|]. split.
  - intros newer x y older HL. rewrite HL in Hto, Hlb, Hsp. split.
    + pose proof (time_ordered_split _ _ _ _ _ Hto) as Hup.
      unfold lower_bounded in Hlb. rewrite List.Forall_forall in Hlb.
      assert (Hlo := Hlb y ltac:(apply in_or_app; right; right; left; reflexivity)).
      rewrite List.Forall_forall in Hup, Hlo |- *.
      intros e He. split; [apply Hlo | apply Hup]; exact He.
    + intros Hne. exact (spaced_split _ _ _ _ _ Hsp Hne).
  - intros x rest HL. rewrite HL in Hto, Hhead, Hlb.
    cbn [time_ordered] in Hto. destruct Hto as (Hup & _ & _).
    inversion Hlb as [|? ? Hlo _]; subst.
    rewrite List.Forall_forall in Hup, Hlo, Hhead |- *.
    intros e He. repeat split; [apply Hlo | apply Hhead | apply Hup]; exact He.
Qed.

(** X5: A search of the log left by accepted insertions finds every
    matching event of the run. *)
Theorem Search_complete (s : Service) (fuel : nat) (v0 v : View)
    (txs : list (Z * Instruction.t)) (omni : SkipBlockID -> View)
    (searchMax now1 now2 : Z) (req : SearchRequest) :
  codec_roundtrip ->
  0 <= bucketMaxAge s ->
  v0 !! Slice theEventLog = None ->
  fresh_run s fuel (5 * Second) now2 v0 txs ->
  (length txs <= fuel)%nat ->
  now2 <= int64_max ->
  accepted s fuel v0 txs = Some v ->
  IsNull (ID req) = false ->
  omni (ID req) = v ->
  exists M,
    Permutation M
      (List.filter (matches (From req) (upper now1 req) (ReqTopic req))
         (events_sent txs)) /\
    Search omni searchMax now1 now2 fuel req =
      Ok {| Events := firstn (capCount searchMax) M;
            Truncated := (capCount searchMax <=? length M)%nat |} /\
    ((length M < capCount searchMax)%nat ->
     forall e, In e (firstn (capCount searchMax) M) <->
               In e (events_sent txs) /\
               From req <= When e < upper now1 req /\
               (ReqTopic req = "" \/ ReqTopic req = Topic e)).
Proof.
  intros Hrt Hmax Hempty Hfr Hfuel Hhi Hacc Hnull Hv.
  destruct (run_from_empty s fuel now2 v0 v txs Hrt Hmax Hempty Hfr Hfuel Hhi Hacc)
    as (Hrep & ((Hto & _ & _) & _ & Hlb & _) & Hperm & _ & _ & Hlen).
  exists (all_matches (From req) (upper now1 req) now2 (ReqTopic req)
            (log_after s [] txs)).
  assert (HM : Permutation
                 (all_matches (From req) (upper now1 req) now2 (ReqTopic req)
                    (log_after s [] txs))
                 (List.filter (matches (From req) (upper now1 req) (ReqTopic req))
                    (events_sent txs))).
  { rewrite (all_matches_complete _ _ _ _ now2 now2 Hto ltac:(lia) Hlb).
    apply Permutation_list_filter. exact Hperm. }
  split; [exact HM|]. split.
  - rewrite <- Hv in Hrep.
    rewrite (Search_represents omni searchMax now1 now2 fuel req _ Hnull Hrep
               ltac:(lia)).
    reflexivity.
  - intros Hshort e. rewrite firstn_all2 by lia. split.
    + intros He. apply (Permutation_in _ HM) in He.
      apply filter_In in He. destruct He as [He Hm].
      split; [exact He | apply matches_spec; exact Hm].
    + intros [He Hm]. apply (Permutation_in _ (Permutation_sym HM)).
      apply filter_In. split; [exact He | apply matches_spec; exact Hm].
Qed.

Lemma events_sent_length (txs : list (Z * Instruction.t)) :
  Forall (fun x => exists e, event_of x.2 = Some e /\
                             x.1 - 5 * Second <= When e <= x.1) txs ->
  length (events_sent txs) = length txs.
Proof.
  induction 1 as [|[now tx] txs (e & He & _) _ IH]; [reflexivity|].
  rewrite (proj2 (sent_cons_some now tx e txs He)). cbn [length]. rewrite IH.
  reflexivity.
Qed.

Lemma sent_in now tx e (txs : list (Z * Instruction.t)) :
  In (now, tx) txs -> event_of tx = Some e ->
  In (Slice (Instruction.ObjectID tx), e) (sent txs).
Proof.
  intros Hin He. apply list_elem_of_In. unfold sent.
  apply list_elem_of_omap. exists (now, tx).
  split; [apply list_elem_of_In; exact Hin|]. cbn. rewrite He. reflexivity.
Qed.

(** X11: Every event of an accepted run is stored, once, under the address
    of its transaction, and one bucket of the chain refers to it. *)
Theorem inserted_events_retrievable (s : Service) (fuel : nat) (hi : Z)
    (v0 v : View) (txs : list (Z * Instruction.t)) :
  codec_roundtrip ->
  0 <= bucketMaxAge s ->
  v0 !! Slice theEventLog = None ->
  fresh_run s fuel (5 * Second) hi v0 txs ->
  (length txs <= fuel)%nat ->
  hi <= int64_max ->
  accepted s fuel v0 txs = Some v ->
  Permutation (events_of (log_after s [] txs)) (events_sent txs) /\
  length (events_sent txs) = length txs /\
  forall now tx, In (now, tx) txs ->
    exists e,
      event_of tx = Some e /\
      now - 5 * Second <= When e <= now /\
      getEventByID v (Slice (Instruction.ObjectID tx)) = Ok e /\
      exists id b,
        In (id, b) (map fst (log_after s [] txs)) /\
        getBucketByID v id = Ok b /\
        In (Slice (Instruction.ObjectID tx)) (EventRefs b).
Proof.
  intros Hrt Hmax Hempty Hfr Hfuel Hhi Hacc.
  destruct (run_from_empty s fuel hi v0 v txs Hrt Hmax Hempty Hfr Hfuel Hhi Hacc)
    as (Hrep & _ & Hperm & Hpairs & _ & _).
  destruct (accepted_represents s fuel _ _ Hrt txs v0 [] v Hempty Hfr
              ltac:(simpl; lia) Hacc) as [_ Hevs].
  split; [exact Hperm|]. split; [exact (events_sent_length txs Hevs)|].
  intros now tx Hin.
  rewrite List.Forall_forall in Hevs.
  destruct (Hevs _ Hin) as (e & He & Hwin). cbn [fst snd] in He, Hwin.
  exists e. split; [exact He|]. split; [exact Hwin|].
  pose proof (proj2 (Hpairs _) (sent_in now tx e txs Hin He)) as Hp.
  destruct (represents_pairs v _ Hrep) as (_ & _ & _ & Hres).
  rewrite List.Forall_forall in Hres.
  split; [exact (Hres _ Hp)|].
  unfold stored_pairs in Hp. apply in_flat_map in Hp.
  destruct Hp as (x & Hx & Hp).
  assert (HL : log_after s [] txs <> []) by (intros HL; rewrite HL in Hx; destruct Hx).
  destruct (represents_elim' v _ HL Hrep) as (_ & Hget & _).
  rewrite List.Forall_forall in Hget.
  exists (entry_id x), (entry_bucket x). split; [|split].
  - apply in_map_iff. exists x. split; [destruct x as [[? ?] ?]; reflexivity | exact Hx].
  - exact (Hget _ Hx).
  - exact (in_combine_l _ _ _ _ Hp).
Qed.

Lemma grows_lookup (L L' : list (bytes * bucket * list Event)) x :
  grows L L' -> In x L -> exists x', In x' L' /\ extends x x'.
Proof.
  intros (front & rest & -> & Hext) Hin.
  induction Hext as [|a a' L rest Ha _ IH]; [destruct Hin|].
  destruct Hin as [<-|Hin].
  - exists a'. split; [|exact Ha]. apply in_or_app. right. left. reflexivity.
  - destruct (IH Hin) as (x' & Hx' & Hxx'). exists x'. split; [|exact Hxx'].
    apply in_app_or in Hx'. apply in_or_app.
    destruct Hx' as [Hx'|Hx']; [left; exact Hx' | right; right; exact Hx'].
Qed.

Lemma Forall2_both {A B : Type} (P Q : A -> B -> Prop) (l : list A) (l' : list B) a :
  Forall2 P l l' -> Forall2 Q l l' -> In a l -> exists b, P a b /\ Q a b.
Proof.
  intros HP. revert a. induction HP as [|x y l l' Hxy _ IH]; intros a HQ Ha.
  - destruct Ha.
  - inversion HQ as [|? ? ? ? Hq HQ']; subst. destruct Ha as [<-|Ha].
    + exists y. split; assumption.
    + exact (IH a HQ' Ha).
Qed.

(** X12: Accepted insertions only add to what the ledger stores: every
    bucket of the log is still stored at its address afterwards, with the
    same start and the same predecessor, its references kept in order and
    extended at the end only; and every event referenced before still
    resolves to the same event. *)
Theorem insertions_append_only (s : Service) (fuel : nat) (lo hi : Z) (v v' : View)
    (L : list (bytes * bucket * list Event)) (txs : list (Z * Instruction.t)) :
  codec_roundtrip ->
  represents v L ->
  fresh_run s fuel lo hi v txs ->
  (pred (length L) + length txs <= fuel)%nat ->
  accepted s fuel v txs = Some v' ->
  (forall id b, In (id, b) (map fst L) ->
     getBucketByID v id = Ok b /\
     exists b',
       getBucketByID v' id = Ok b' /\
       Start b' = Start b /\ Prev b' = Prev b /\
       exists refs, EventRefs b' = EventRefs b ++ refs) /\
  (forall id b r, In (id, b) (map fst L) -> In r (EventRefs b) ->
     exists e, getEventByID v r = Ok e /\ getEventByID v' r = Ok e).
Proof.
  intros Hrt Hrep Hfr Hfuel Hacc.
  destruct (accepted_represents s fuel lo hi Hrt txs v L v' Hrep Hfr Hfuel Hacc)
    as [Hrep' _].
  pose proof (log_after_grows s txs L) as Hg.
  assert (Hstep : forall x, In x L ->
            getBucketByID v (entry_id x) = Ok (entry_bucket x) /\
            resolves v (EventRefs (entry_bucket x)) (entry_events x) /\
            exists x', extends x x' /\
              getBucketByID v' (entry_id x') = Ok (entry_bucket x') /\
              resolves v' (EventRefs (entry_bucket x')) (entry_events x')).
  { intros x Hx.
    assert (HL : L <> []) by (intros HL; rewrite HL in Hx; destruct Hx).
    destruct (represents_elim' v L HL Hrep) as (_ & Hget & _ & _ & _ & _ & Hres).
    rewrite List.Forall_forall in Hget, Hres.
    split; [exact (Hget _ Hx)|]. split; [exact (proj1 (Hres _ Hx))|].
    destruct (grows_lookup _ _ x Hg Hx) as (x' & Hx' & Hext).
    assert (HL' : log_after s L txs <> [])
      by (intros HL'; rewrite HL' in Hx'; destruct Hx').
    destruct (represents_elim' v' _ HL' Hrep') as (_ & Hget' & _ & _ & _ & _ & Hres').
    rewrite List.Forall_forall in Hget', Hres'.
    exists x'. split; [exact Hext|].
    split; [exact (Hget' _ Hx') | exact (proj1 (Hres' _ Hx'))]. }
  split.
  - intros id b Hin. apply in_map_iff in Hin. destruct Hin as (x & Hx & Hin).
    destruct (Hstep x Hin) as (Hget & _ & x' & Hext & Hget' & _).
    destruct Hext as (Hid & Hs & Hp & Hrefs & _).
    assert (Hxid : entry_id x = id) by (unfold entry_id; rewrite Hx; reflexivity).
    assert (Hxb : entry_bucket x = b) by (unfold entry_bucket; rewrite Hx; reflexivity).
    rewrite Hxid, Hxb in *. split; [exact Hget|].
    exists (entry_bucket x'). rewrite Hid in Hget'. repeat split; assumption.
  - intros id b r Hin Hr. apply in_map_iff in Hin. destruct Hin as (x & Hx & Hin).
    destruct (Hstep x Hin) as (_ & Hres & x' & Hext & _ & Hres').
    destruct Hext as (_ & _ & _ & (refs & Hrefs) & (evs & Hevs)).
    assert (Hxb : entry_bucket x = b) by (unfold entry_bucket; rewrite Hx; reflexivity).
    rewrite Hxb in *. rewrite Hrefs, Hevs in Hres'.
    unfold resolves in Hres, Hres'.
    apply Forall2_app_inv_l in Hres'.
    destruct Hres' as (evs1 & evs2 & Hres1 & _ & Heq).
    assert (Hlen : length (entry_events x) = length evs1).
    { apply Forall2_length in Hres, Hres1. lia. }
    apply app_inj_1 in Heq; [|exact Hlen]. destruct Heq as [<- _].
    exact (Forall2_both _ _ _ _ r Hres Hres1 Hr).
Qed.

(** X8: On a stored log, a run of spawns that each carry an event within
    five seconds before their clock reading, with fresh addresses and as
    much fuel as the chain may get long, is accepted in full, whatever
    the log holds and in whatever order the timestamps come; the view it
    leaves stores the log the placements give. *)
Theorem valid_insertions_accepted (s : Service) (fuel : nat) (lo hi : Z) (v : View)
    (L : list (bytes * bucket * list Event)) (txs : list (Z * Instruction.t)) :
  codec_roundtrip ->
  represents v L ->
  (pred (length L) + length txs <= fuel)%nat ->
  fresh_run s fuel lo hi v txs ->
  Forall (fun x => exists e, valid_spawn x.1 x.2 e) txs ->
  exists v',
    accepted s fuel v txs = Some v' /\
    represents v' (log_after s L txs).
Proof.
  intros Hrt. revert v L.
  induction txs as [|[now tx] txs IH]; intros v L Hrep Hfuel Hfr Hval.
  - exists v. split; [reflexivity | exact Hrep].
  - inversion Hval as [|? ? (e & He) Hval']; subst. cbn [fst snd] in He.
    cbn [fresh_run] in Hfr. destruct Hfr as (Hfresh & _ & Hfr).
    cbn [length] in Hfuel.
    destruct (valid_spawn_step s fuel v now tx e L Hrt Hrep ltac:(lia) Hfresh He)
      as (v1 & Hex & Hrep1).
    rewrite Hex in Hfr. cbn [fst] in Hfr.
    assert (Hev : event_of tx = Some e).
    { destruct He as (spawn & buf & _ & _ & Hs & _ & Ha & Hd & _).
      unfold event_of. rewrite Hs, Ha, Hd. reflexivity. }
    pose proof (place_length (bucketMaxAge s) e (Slice (Instruction.ObjectID tx))
                  (Slice (DeriveID tx "bucket")) (Slice (DeriveID tx "catch-all")) L)
      as Hpl.
    destruct (IH v1 _ Hrep1 ltac:(lia) Hfr Hval') as (v' & Hacc & Hrep').
    exists v'. cbn [accepted log_after]. rewrite Hex, Hev.
    split; [exact Hacc | exact Hrep'].
Qed.


(** X13: Given an inclusion proof for the requested key, [GetEvent] fails
    with the not-enough-values error when the record has fewer than two
    values, even if its only value decodes; with two values or more, the
    outcome is the decoding of the first value alone, and a success
    implies that there were at least two values. *)
Theorem GetEvent_values (getProof : SkipBlockID -> bytes -> result Proof)
    (req : GetEventRequest) (reply : Proof) (vs : list bytes) :
  getProof (SkipchainID req) (Key req) = Ok reply ->
  InclusionProofMatch reply = true ->
  KeyValue reply = Ok (Key req, vs) ->
  ((length vs < 2)%nat -> GetEvent getProof req = Err ErrNotEnoughValues) /\
  (forall v0 v1 rest, vs = v0 :: v1 :: rest ->
     GetEvent getProof req =
       match decodeEvent v0 with
       | Ok e => Ok {| RespEvent := e |}
       | Err err => Err err
       end) /\
  (forall resp, GetEvent getProof req = Ok resp ->
     exists v0 v1 rest, vs = v0 :: v1 :: rest /\ decodeEvent v0 = Ok (RespEvent resp)).
Proof.
  intros Hp Hm Hkv.
  assert (Hget : GetEvent getProof req =
                 if (length vs <? 2)%nat then Err ErrNotEnoughValues
                 else match vs with
                      | [] => Err ErrPanic
                      | v0 :: _ => e <- decodeEvent v0 ;; Ok {| RespEvent := e |}
                      end).
  { unfold GetEvent. rewrite Hp. cbn [bind]. rewrite Hm. cbn [negb].
    rewrite Hkv. cbn [bind]. rewrite bool_decide_eq_true_2 by reflexivity.
    reflexivity. }
  split; [|split].
  - intros Hlen. rewrite Hget.
    replace (length vs <? 2)%nat with true by (symmetry; apply Nat.ltb_lt; exact Hlen).
    reflexivity.
  - intros v0 v1 rest ->. rewrite Hget. cbn. destruct (decodeEvent v0); reflexivity.
  - intros resp Hok. rewrite Hget in Hok.
    destruct vs as [|v0 [|v1 rest]]; try discriminate.
    cbn in Hok. exists v0, v1, rest. split; [reflexivity|].
    destruct (decodeEvent v0) as [e|err]; [|discriminate].
    cbn in Hok. injection Hok as <-. reflexivity.
Qed.

(** Every record the ledger writes for the contract holds two values: the
    value of the state change and the contract identifier. *)
Lemma applyStateChanges_two (scs : list StateChange.t) :
  forall v : View,
    (forall k vs, v !! k = Some vs -> length vs = 2%nat) ->
    forall k vs, applyStateChanges v scs !! k = Some vs -> length vs = 2%nat.
Proof.
  unfold applyStateChanges.
  induction scs as [|sc scs IH]; intros v Hv; [exact Hv|].
  cbn [fold_left]. apply IH. intros k vs.
  unfold applyStateChange. destruct (StateChange.Action sc).
  - destruct (decide (StateChange.ObjectID sc = k)) as [->|Hne].
    + rewrite lookup_insert_eq. intros [= <-]. reflexivity.
    + rewrite lookup_insert_ne by exact Hne. apply Hv.
  - destruct (decide (StateChange.ObjectID sc = k)) as [->|Hne].
    + rewrite lookup_insert_eq. intros [= <-]. reflexivity.
    + rewrite lookup_insert_ne by exact Hne. apply Hv.
  - destruct (decide (StateChange.ObjectID sc = k)) as [->|Hne].
    + rewrite lookup_delete_eq. discriminate.
    + rewrite lookup_delete_ne by exact Hne. apply Hv.
Qed.

Lemma accepted_two s fuel :
  forall txs (v v' : View),
    (forall k vs, v !! k = Some vs -> length vs = 2%nat) ->
    accepted s fuel v txs = Some v' ->
    forall k vs, v' !! k = Some vs -> length vs = 2%nat.
Proof.
  induction txs as [|[now tx] txs IH]; intros v v' Hv Hacc.
  - injection Hacc as <-. exact Hv.
  - cbn [accepted] in Hacc.
    destruct (execute s fuel v now tx) as [v1 [err|]] eqn:Hex; [discriminate|].
    apply (IH v1 v'); [|exact Hacc].
    unfold execute in Hex.
    destruct (contractFunction s now fuel v tx []) as [[scs cs] [err|]];
      [discriminate|].
    injection Hex as <-. apply applyStateChanges_two. exact Hv.
Qed.

(** X14: An inserted event is what [GetEvent] returns for the address of
    its transaction, when the proof carries the values of the record. *)
Theorem GetEvent_after_insert (s : Service) (fuel : nat) (hi : Z) (v0 v : View)
    (txs : list (Z * Instruction.t)) (now : Z) (tx : Instruction.t)
    (getProof : SkipBlockID -> bytes -> result Proof) (sid : SkipBlockID)
    (reply : Proof) (vs : list bytes) :
  codec_roundtrip ->
  0 <= bucketMaxAge s ->
  v0 !! Slice theEventLog = None ->
  (forall k ws, v0 !! k = Some ws -> length ws = 2%nat) ->
  fresh_run s fuel (5 * Second) hi v0 txs ->
  (length txs <= fuel)%nat ->
  hi <= int64_max ->
  accepted s fuel v0 txs = Some v ->
  In (now, tx) txs ->
  getProof sid (Slice (Instruction.ObjectID tx)) = Ok reply ->
  InclusionProofMatch reply = true ->
  KeyValue reply = Ok (Slice (Instruction.ObjectID tx), vs) ->
  v !! Slice (Instruction.ObjectID tx) = Some (map VBytes vs) ->
  exists e,
    event_of tx = Some e /\
    GetEvent getProof {| SkipchainID := sid; Key := Slice (Instruction.ObjectID tx) |}
      = Ok {| RespEvent := e |}.
Proof.
  intros Hrt Hmax Hempty Htwo Hfr Hfuel Hhi Hacc Hin Hp Hm Hkv Hrec.
  destruct (run_from_empty s fuel hi v0 v txs Hrt Hmax Hempty Hfr Hfuel Hhi Hacc)
    as (Hrep & _ & _ & Hpairs & _ & _).
  destruct (accepted_represents s fuel _ _ Hrt txs v0 [] v Hempty Hfr
              ltac:(simpl; lia) Hacc) as [_ Hevs].
  rewrite List.Forall_forall in Hevs.
  destruct (Hevs _ Hin) as (e & He & _). cbn [snd] in He.
  exists e. split; [exact He|].
  pose proof (proj2 (Hpairs _) (sent_in now tx e txs Hin He)) as Hpair.
  destruct (represents_pairs v _ Hrep) as (_ & _ & _ & Hres).
  rewrite List.Forall_forall in Hres. specialize (Hres _ Hpair). cbn [fst snd] in Hres.
  pose proof (accepted_two s fuel txs v0 v Htwo Hacc _ _ Hrec) as Hlen.
  rewrite length_map in Hlen.
  destruct vs as [|w0 [|w1 [|w2 rest]]]; try discriminate.
  unfold getEventByID in Hres. rewrite Hrec in Hres. cbn [map] in Hres.
  unfold GetEvent. cbn [SkipchainID Key]. rewrite Hp. cbn [bind]. rewrite Hm.
  cbn [negb]. rewrite Hkv. cbn [bind].
  rewrite bool_decide_eq_true_2 by reflexivity. cbn. rewrite Hres. reflexivity.
Qed.


(** ** Paging over events that arrive in timestamp order *)

Lemma oldest_first_nil : oldest_first [].
Proof. intros i j a b Ha. destruct i; discriminate. Qed.

Lemma oldest_first_cons e l :
  oldest_first (e :: l) ->
  Forall (fun e' => When e <= When e') l /\ oldest_first l.
Proof.
  intros Hs. split.
  - apply List.Forall_forall. intros x Hx.
    apply In_nth_error in Hx. destruct Hx as [j Hj].
    apply (Hs 0%nat (S j) e x); [reflexivity | exact Hj | lia].
  - intros i j a b Ha Hb Hij. apply (Hs (S i) (S j) a b); [exact Ha | exact Hb | lia].
Qed.

Lemma oldest_first_intro e l :
  Forall (fun e' => When e <= When e') l -> oldest_first l -> oldest_first (e :: l).
Proof.
  intros Hall Hs i j a b Ha Hb Hij.
  destruct j as [|j]; [lia|]. cbn [nth_error] in Hb.
  destruct i as [|i].
  - cbn in Ha. injection Ha as <-.
    rewrite List.Forall_forall in Hall. apply Hall. eapply nth_error_In. exact Hb.
  - cbn [nth_error] in Ha. apply (Hs i j a b Ha Hb). lia.
Qed.

Lemma oldest_first_filter (f : Event -> bool) l :
  oldest_first l -> oldest_first (List.filter f l).
Proof.
  induction l as [|e l IH]; intros Hs; [exact oldest_first_nil|].
  destruct (oldest_first_cons e l Hs) as [Hall Hs'].
  cbn [List.filter]. destruct (f e); [|exact (IH Hs')].
  apply oldest_first_intro; [|exact (IH Hs')].
  rewrite List.Forall_forall in *. intros x Hx.
  apply List.filter_In in Hx. apply Hall. exact (proj1 Hx).
Qed.

(** In a list in timestamp order, the events at or after a timestamp are
    what is left once the older ones, which come first, are skipped. *)
Lemma oldest_first_from (w : Z) :
  forall l, oldest_first l ->
    exists k : nat,
      List.filter (fun e => w <=? When e) l = skipn k l /\
      Forall (fun e => When e < w) (firstn k l) /\
      Forall (fun e => w <= When e) (skipn k l).
Proof.
  induction l as [|a l IH]; intros Hs.
  - exists 0%nat. repeat split; constructor.
  - destruct (oldest_first_cons a l Hs) as [Hall Hs'].
    destruct (Z.leb_spec w (When a)) as [Hle|Hlt].
    + exists 0%nat. cbn [firstn skipn].
      assert (Hkeep : Forall (fun e => w <= When e) (a :: l)).
      { constructor; [exact Hle|]. eapply Forall_impl; [exact Hall|].
        cbv beta. intros e He. lia. }
      split; [|split; [constructor | exact Hkeep]].
      apply forallb_filter_id. apply forallb_forall.
      rewrite List.Forall_forall in Hkeep. intros e He.
      apply Z.leb_le. exact (Hkeep e He).
    + destruct (IH Hs') as (k & Hf & Hold & Hnew). exists (S k).
      cbn [List.filter firstn skipn].
      replace (w <=? When a) with false by (symmetry; apply Z.leb_gt; exact Hlt).
      split; [exact Hf|]. split; [constructor; [exact Hlt | exact Hold] | exact Hnew].
Qed.

Lemma events_sent_cons_none now tx txs :
  event_of tx = None -> events_sent ((now, tx) :: txs) = events_sent txs.
Proof. intros He. unfold events_sent. cbn. rewrite He. reflexivity. Qed.

(** When the events of a run arrive in timestamp order, none of them older
    than the start of the head bucket, each one goes to the end of the
    head bucket or opens a new head: the log holds them in arrival
    order. *)
Lemma log_after_in_order s :
  forall txs (L : list (bytes * bucket * list Event)),
    oldest_first (events_sent txs) ->
    (forall x rest, L = x :: rest ->
       Forall (fun e => Start (entry_bucket x) <= When e) (events_sent txs)) ->
    events_of (log_after s L txs) = events_of L ++ events_sent txs.
Proof.
  induction txs as [|[now tx] txs IH]; intros L Hs Hhead.
  - cbn. rewrite app_nil_r. reflexivity.
  - cbn [log_after]. destruct (event_of tx) as [e|] eqn:He.
    + rewrite (proj2 (sent_cons_some now tx e txs He)) in Hs, Hhead |- *.
      destruct (oldest_first_cons e _ Hs) as [Hall Hs'].
      set (addr := Slice (Instruction.ObjectID tx)).
      set (newBid := Slice (DeriveID tx "bucket")).
      set (catchID := Slice (DeriveID tx "catch-all")).
      assert (Hplace :
                events_of (place (bucketMaxAge s) e addr newBid catchID L)
                = events_of L ++ [e] /\
                forall x rest,
                  place (bucketMaxAge s) e addr newBid catchID L = x :: rest ->
                  Forall (fun e' => Start (entry_bucket x) <= When e')
                    (events_sent txs)).
      { destruct L as [|[[hid hb] hevs] L0].
        - split; [reflexivity|]. intros x rest [= <- _]. exact Hall.
        - pose proof (Hhead _ _ eq_refl) as Hh.
          inversion Hh as [|? ? Hle Hrest]; subst. cbn [entry_bucket fst snd] in Hle, Hrest.
          unfold place.
          replace (Start hb <=? When e) with true by (symmetry; apply Z.leb_le; exact Hle).
          rewrite orb_true_r. cbn [andb].
          destruct (bucketMaxAge s <? sub64 (When e) (Start hb)).
          + split.
            * rewrite events_of_cons. reflexivity.
            * intros x rest [= <- _]. exact Hall.
          + cbn [attach].
            replace (Start hb <=? When e) with true
              by (symmetry; apply Z.leb_le; exact Hle).
            rewrite orb_true_r. split.
            * rewrite !events_of_cons. cbn [entry_events snd].
              rewrite app_assoc. reflexivity.
            * intros x rest [= <- _]. exact Hrest. }
      destruct Hplace as [Hev Hhead'].
      rewrite (IH _ Hs' Hhead'), Hev, <- app_assoc. reflexivity.
    + rewrite (events_sent_cons_none now tx txs He) in Hs, Hhead |- *.
      apply IH; assumption.
Qed.

(** C4 (amended). Take a run of accepted insertions into an empty log
    whose events arrive in timestamp order (fresh addresses, clock
    readings between 5s after the epoch and the time of the search), a
    search result whose last returned event is [last], and the same
    search re-issued, at the same time or later, with [from] set to
    [last.when] and the same [to] and topic. Let [M] be the matching
    events of the run, which are oldest first. The first page is the
    first [searchMax] events of [M]. The second page is the first
    [searchMax] events of [M] from some position [k] on, where [k] is
    before the position of [last]: the events of [M] before [k] are older
    than [last], those from [k] on are not. So the second page is a
    contiguous slice of the matches that skips none of them, and, the
    lower bound being inclusive, it starts at or before [last] and returns
    [last] again. Nothing is stated for events that arrive out of
    timestamp order. *)
Theorem C4_paging (s : Service) (fuel : nat) (v0 v : View)
    (txs : list (Z * Instruction.t)) (omni : SkipBlockID -> View)
    (searchMax now1 now2 now2' : Z) (req : SearchRequest)
    (page : SearchResponse) (earlier : list Event) (last : Event) :
  codec_roundtrip ->
  0 <= bucketMaxAge s ->
  v0 !! Slice theEventLog = None ->
  fresh_run s fuel (5 * Second) now2 v0 txs ->
  (length txs <= fuel)%nat ->
  accepted s fuel v0 txs = Some v ->
  oldest_first (events_sent txs) ->
  now2 <= now2' ->
  now2 <= int64_max ->
  IsNull (ID req) = false ->
  omni (ID req) = v ->
  Search omni searchMax now1 now2 fuel req = Ok page ->
  Events page = earlier ++ [last] ->
  let M := List.filter (matches (From req) (upper now1 req) (ReqTopic req))
             (events_sent txs) in
  oldest_first M /\
  Events page = firstn (capCount searchMax) M /\
  exists k : nat,
    (k <= length earlier)%nat /\
    Forall (fun e => When e < When last) (firstn k M) /\
    Forall (fun e => When last <= When e) (skipn k M) /\
    Search omni searchMax now1 now2' fuel (reissue req (When last)) =
      Ok {| Events := firstn (capCount searchMax) (skipn k M);
            Truncated := (capCount searchMax <=? length (skipn k M))%nat |} /\
    nth_error (firstn (capCount searchMax) (skipn k M)) (length earlier - k)
      = Some last.
Proof.
  intros Hrt Hmax Hptr Hfr Hfuel Hacc Hord Hnow Hhi Hn Hv Hs Hlast M.
  destruct (run_from_empty s fuel now2 v0 v txs Hrt Hmax Hptr Hfr Hfuel Hhi Hacc)
    as (Hrep & ((Hto & _ & _) & _ & Hlb & _) & _ & _ & _ & Hlen).
  rewrite <- Hv in Hrep.
  assert (Hevs : events_of (log_after s [] txs) = events_sent txs).
  { rewrite (log_after_in_order s txs [] Hord); [reflexivity|]. intros x rest [=]. }
  assert (HM : all_matches (From req) (upper now1 req) now2 (ReqTopic req)
                 (log_after s [] txs) = M).
  { rewrite (all_matches_complete _ _ _ _ now2 now2 Hto ltac:(lia) Hlb), Hevs.
    reflexivity. }
  assert (HsM : oldest_first M) by (apply oldest_first_filter; exact Hord).
  rewrite (Search_represents omni searchMax now1 now2 fuel req _ Hn Hrep
             ltac:(lia)) in Hs.
  injection Hs as <-. cbn [Events capped fst] in Hlast |- *. rewrite HM in Hlast |- *.
  assert (Hnth : nth_error M (length earlier) = Some last).
  { pose proof (nth_error_firstn (capCount searchMax) M (length earlier)) as Hn1.
    rewrite Hlast, nth_error_app2, Nat.sub_diag in Hn1 by lia. cbn [nth_error] in Hn1.
    destruct (length earlier <? capCount searchMax)%nat; [|discriminate].
    symmetry. exact Hn1. }
  assert (Hcap : (length earlier < capCount searchMax)%nat).
  { pose proof (firstn_le_length (capCount searchMax) M) as Hle.
    rewrite Hlast, length_app in Hle. cbn [length] in Hle. lia. }
  assert (Hfrom : From req <= When last).
  { apply nth_error_In in Hnth. unfold M in Hnth. apply List.filter_In in Hnth.
    destruct Hnth as [_ Hm]. apply matches_spec in Hm. lia. }
  split; [exact HsM|]. split; [reflexivity|].
  destruct (oldest_first_from (When last) M HsM) as (k & Hf & Hold & Hnew).
  assert (Hk : (k <= length earlier)%nat).
  { destruct (Nat.le_gt_cases k (length earlier)) as [Hle|Hgt]; [exact Hle|].
    exfalso.
    assert (Hin : In last (firstn k M)).
    { eapply nth_error_In. rewrite nth_error_firstn.
      replace (length earlier <? k)%nat with true
        by (symmetry; apply Nat.ltb_lt; exact Hgt).
      exact Hnth. }
    rewrite List.Forall_forall in Hold. specialize (Hold _ Hin). lia. }
  exists k. split; [exact Hk|]. split; [exact Hold|]. split; [exact Hnew|]. split.
  - rewrite (Search_represents omni searchMax now1 now2' fuel (reissue req (When last))
               (log_after s [] txs)); [|exact Hn | exact Hrep | lia].
    change (upper now1 (reissue req (When last))) with (upper now1 req).
    cbn [reissue From ReqTopic capped fst snd].
    rewrite (all_matches_later (From req) (When last) (upper now1 req) (ReqTopic req)
               Hfrom (log_after s [] txs) now2 now2' Hto Hnow).
    rewrite HM, Hf. reflexivity.
  - rewrite nth_error_firstn.
    replace (length earlier - k <? capCount searchMax)%nat with true
      by (symmetry; apply Nat.ltb_lt; lia).
    rewrite nth_error_skipn. replace (k + (length earlier - k))%nat
      with (length earlier) by lia.
    exact Hnth.
Qed.


End Extras.

(** * Properties of the signature helpers *)

Section SchnorrFacts.

Context `{Schnorr.Suite}.

(** X15: A signature made by [SignSchnorr] with a private key is accepted by
    [VerifySchnorr] under the matching public key, whatever secret [k] was
    picked, as soon as the commitment marshals. *)
Theorem SignSchnorr_verifies (k private : Schnorr.Secret) (msg rBuf : bytes) :
  Schnorr.group_law ->
  Schnorr.equal_refl ->
  Schnorr.PointMarshalBinary (Schnorr.PointMul None k) = Ok rBuf ->
  exists sig,
    Schnorr.SignSchnorr k private msg = Ok sig /\
    Schnorr.Challenge sig = Schnorr.CipherPick rBuf msg /\
    Schnorr.Response sig =
      Schnorr.SecretSub k (Schnorr.SecretMul private (Schnorr.Challenge sig)) /\
    Schnorr.VerifySchnorr (Schnorr.PointMul None private) msg sig = Schnorr.Valid.
Proof.
  intros Hlaw Hrefl Hm.
  exists {| Schnorr.Challenge := Schnorr.CipherPick rBuf msg;
            Schnorr.Response :=
              Schnorr.SecretSub k
                (Schnorr.SecretMul private (Schnorr.CipherPick rBuf msg)) |}.
  split; [|split; [reflexivity|split; [reflexivity|]]].
  - unfold Schnorr.SignSchnorr, Schnorr.hash. rewrite Hm. reflexivity.
  - unfold Schnorr.VerifySchnorr. cbn [Schnorr.Challenge Schnorr.Response].
    rewrite Hlaw. unfold Schnorr.hash. rewrite Hm. cbn [bind].
    rewrite Hrefl. reflexivity.
Qed.

End SchnorrFacts.

(** * Properties of the peer names *)

Section PeerNameFacts.

Import PeerNames.

Lemma fill_prefix (name : nat -> string) (l : list string) :
  forall k : nat,
    (k <= length l)%nat ->
    foldl (fun names i => <[i := name i]> names) l (seq 0 k)
    = map name (seq 0 k) ++ drop k l.
Proof.
  induction k as [|k IH]; intros Hk.
  - rewrite drop_0. reflexivity.
  - rewrite seq_S, foldl_app, IH by lia. cbn [foldl Nat.add].
    rewrite map_app. cbn [map]. rewrite <- app_assoc. cbn [app].
    destruct (drop k l) as [|x rest] eqn:Hd.
    + apply (f_equal length) in Hd. rewrite length_drop in Hd. simpl in Hd. lia.
    + assert (Hrest : drop (S k) l = rest).
      { replace (S k) with (k + 1)%nat by lia. rewrite <- (drop_drop l 1 k), Hd. reflexivity. }
      rewrite Hrest.
      replace k with (length (map name (seq 0 k)) + 0)%nat at 1
        by (rewrite length_map, length_seq; lia).
      rewrite insert_app_r. reflexivity.
Qed.

Lemma fill_map (n : nat) (name : nat -> string) :
  fill n name = map name (seq 0 n).
Proof.
  unfold fill. rewrite fill_prefix by (rewrite length_replicate; lia).
  rewrite drop_ge by (rewrite length_replicate; lia). apply app_nil_r.
Qed.

Lemma fill_lookup (n : nat) (name : nat -> string) (i : nat) :
  (i < n)%nat -> fill n name !! i = Some (name i).
Proof.
  intros Hi. rewrite fill_map.
  change (map name (seq 0 n)) with (name <$> seq 0 n).
  rewrite list_lookup_fmap, lookup_seq_lt by exact Hi. reflexivity.
Qed.

Lemma fill_NoDup (n : nat) (name : nat -> string) :
  (forall i j, (i < n)%nat -> (j < n)%nat -> name i = name j -> i = j) ->
  NoDup (fill n name).
Proof.
  intros Hinj. rewrite fill_map.
  change (map name (seq 0 n)) with (name <$> seq 0 n).
  apply NoDup_fmap_2_strong; [|apply NoDup_seq].
  intros i j Hi Hj. apply elem_of_seq in Hi, Hj. apply Hinj; lia.
Qed.

Lemma string_length_append (s t : string) :
  String.length (s ++ t) = (String.length s + String.length t)%nat.
Proof. induction s as [|a s IH]; [reflexivity|]. simpl. f_equal. exact IH. Qed.

Lemma append_inv_tail (t : string) :
  forall s1 s2 : string, (s1 ++ t)%string = (s2 ++ t)%string -> s1 = s2.
Proof.
  induction s1 as [|a s1 IH]; intros [|b s2] Heq.
  - reflexivity.
  - apply (f_equal String.length) in Heq.
    rewrite !string_length_append in Heq. simpl in Heq. lia.
  - apply (f_equal String.length) in Heq.
    rewrite !string_length_append in Heq. simpl in Heq. lia.
  - cbn in Heq. injection Heq as -> Heq. rewrite (IH _ Heq). reflexivity.
Qed.

Lemma add64_inj (p i j : Z) :
  0 <= i < 2 ^ 64 -> 0 <= j < 2 ^ 64 -> add64 p i = add64 p j -> i = j.
Proof.
  unfold add64, wrap64. intros Hi Hj Heq.
  assert (Hm : (p + i + 2 ^ 63) mod 2 ^ 64 = (p + j + 2 ^ 63) mod 2 ^ 64) by lia.
  rewrite !Z.mod_eq in Hm by lia.
  change (2 ^ 64) with 18446744073709551616 in *.
  change (2 ^ 63) with 9223372036854775808 in *. lia.
Qed.

(** X16: For a length [n] between zero and the largest [int],
    [genLocalhostPeerNames] returns [n] names, the one at index [i] being
    the prefix followed by the decimal notation of [p + i] computed on 64
    bits, and no two of them are equal. *)
Theorem genLocalhostPeerNames_names (n p : Z) :
  0 <= n <= int64_max ->
  exists names,
    genLocalhostPeerNames n p = Some names /\
    length names = Z.to_nat n /\
    (forall i : nat, (i < Z.to_nat n)%nat ->
       names !! i = Some (prefix ++ Itoa (add64 p (Z.of_nat i)))%string) /\
    NoDup names.
Proof.
  intros Hn. unfold genLocalhostPeerNames.
  replace (n <? 0) with false by (symmetry; apply Z.ltb_ge; lia).
  eexists. split; [reflexivity|]. split; [|split].
  - rewrite fill_map, length_map, length_seq. reflexivity.
  - intros i Hi. rewrite fill_lookup by exact Hi. reflexivity.
  - apply fill_NoDup. intros i j Hi Hj Heq.
    apply (inj (String.append prefix)) in Heq.
    apply (inj pretty) in Heq.
    unfold int64_max in Hn.
    apply add64_inj in Heq; lia.
Qed.

(** X17: For a length [n] that is not negative, [genLocalDiffPeerNames]
    returns the same [n] names whatever the port [p] is: the one at index
    [i] is the word local followed by the decimal notation of [i] and the
    port 2000, and no two of them are equal. *)
Theorem genLocalDiffPeerNames_names (n : Z) :
  0 <= n ->
  exists names,
    (forall p', genLocalDiffPeerNames n p' = Some names) /\
    length names = Z.to_nat n /\
    (forall i : nat, (i < Z.to_nat n)%nat ->
       names !! i = Some ("local" ++ Itoa (Z.of_nat i) ++ ":2000")%string) /\
    NoDup names.
Proof.
  intros Hn. unfold genLocalDiffPeerNames.
  replace (n <? 0) with false by (symmetry; apply Z.ltb_ge; lia).
  eexists. split; [intros p'; reflexivity|]. split; [|split].
  - rewrite fill_map, length_map, length_seq. reflexivity.
  - intros i Hi. rewrite fill_lookup by exact Hi. reflexivity.
  - apply fill_NoDup. intros i j _ _ Heq.
    apply (inj (String.append "local")) in Heq.
    apply append_inv_tail in Heq.
    apply (inj pretty) in Heq. lia.
Qed.

End PeerNameFacts.

(** * The sample collaborators are lawful *)

Module SampleFacts.
Import Sample.

Lemma decPos_encPos p r : decPos (encPos p ++ r) = Some (p, r).
Proof.
  induction p as [p IH|p IH|]; cbn [encPos app decPos].
  - rewrite IH. reflexivity.
  - rewrite IH. reflexivity.
  - reflexivity.
Qed.

Lemma decZ_encZ z r : decZ (encZ z ++ r) = Some (z, r).
Proof.
  destruct z as [|p|p]; cbn [encZ app decZ].
  - reflexivity.
  - rewrite decPos_encPos. reflexivity.
  - rewrite decPos_encPos. reflexivity.
Qed.

Lemma decBytes_encBytes l r : decBytes (encBytes l ++ r) = Some (l, r).
Proof.
  induction l as [|x l IH]; cbn [encBytes app decBytes].
  - reflexivity.
  - cbn. rewrite IH. reflexivity.
Qed.

Lemma decRefs_ref l r : forall cur acc,
  decRefs (flat_map (fun x => [b1; x]) l ++ r) cur acc = decRefs r (cur ++ l) acc.
Proof.
  induction l as [|x l IH]; intros cur acc.
  - rewrite app_nil_r. reflexivity.
  - cbn [flat_map app decRefs]. cbn. rewrite IH, <- app_assoc. reflexivity.
Qed.

Lemma decRefs_encRefs ll r : forall acc,
  decRefs (encRefs ll ++ r) [] acc = Some (acc ++ ll, r).
Proof.
  unfold encRefs. induction ll as [|l ll IH]; intros acc.
  - cbn. rewrite app_nil_r. reflexivity.
  - cbn [flat_map]. unfold encRef at 1. rewrite <- !app_assoc.
    rewrite decRefs_ref. cbn [app]. cbn [decRefs]. cbn.
    rewrite <- !app_assoc in IH. rewrite IH, <- app_assoc. reflexivity.
Qed.

Lemma decodeBucket_encodeBucket (b : bucket) :
  exists buf, Sample.encodeBucket b = Ok buf /\ Sample.decodeBucket buf = Ok b.
Proof.
  eexists. split; [reflexivity|].
  destruct b as [st pv refs]. unfold Sample.decodeBucket.
  cbn [Start Prev EventRefs].
  rewrite decZ_encZ, decBytes_encBytes.
  rewrite <- (app_nil_r (encRefs refs)), decRefs_encRefs. reflexivity.
Qed.

Lemma sample_roundtrip : @codec_roundtrip collaborators.
Proof. exact decodeBucket_encodeBucket. Qed.

End SampleFacts.

(** * Concrete runs *)

Module SampleRuns.
Import Sample.

Lemma valid_tx1 : valid_spawn (5 * Second) tx1 (ev 5 "a").
Proof.
  eexists _, _. repeat split; try reflexivity;
    try (intros v; eexists; reflexivity); vm_compute; discriminate.
Qed.

Lemma valid_tx2 : valid_spawn (8 * Second) tx2 (ev 8 "a").
Proof.
  eexists _, _. repeat split; try reflexivity;
    try (intros v; eexists; reflexivity); vm_compute; discriminate.
Qed.

Lemma valid_tx3 : valid_spawn (12 * Second) tx3 (ev 12 "b").
Proof.
  eexists _, _. repeat split; try reflexivity;
    try (intros v; eexists; reflexivity); vm_compute; discriminate.
Qed.

Lemma fresh_aging_run :
  fresh_run service 3 (5 * Second) search_time ∅ aging_run.
Proof.
  unfold aging_run. cbn [fresh_run]. unfold fresh.
  repeat split; try (vm_compute; reflexivity); try (vm_compute; discriminate);
    match goal with
    | |- NoDup ?l => apply (bool_decide_unpack (NoDup l)); vm_compute; exact I
    end.
Qed.

Lemma fresh_late_run :
  fresh_run service 3 (5 * Second) search_time ∅ late_run.
Proof.
  unfold late_run. cbn [fresh_run]. unfold fresh.
  repeat split; try (vm_compute; reflexivity); try (vm_compute; discriminate);
    match goal with
    | |- NoDup ?l => apply (bool_decide_unpack (NoDup l)); vm_compute; exact I
    end.
Qed.

Lemma accepted_late_run : accepted service 3 ∅ late_run = Some late_view.
Proof. vm_compute. reflexivity. Qed.

End SampleRuns.

(** * The theorems at concrete inputs *)

#[local] Existing Instance Sample.collaborators.

Lemma C1_witness :
  exists v,
    accepted Sample.service 3 ∅ Sample.aging_run = Some v /\
    getLatestBucket v =
      Ok (Slice (DeriveID Sample.tx3 "bucket"),
          {| Start := 5 * Second + 7 * Second;
             Prev := Slice (DeriveID Sample.tx1 "bucket");
             EventRefs := [Slice (Instruction.ObjectID Sample.tx3)] |}) /\
    represents v
      [ (Slice (DeriveID Sample.tx3 "bucket"),
         {| Start := 5 * Second + 7 * Second;
            Prev := Slice (DeriveID Sample.tx1 "bucket");
            EventRefs := [Slice (Instruction.ObjectID Sample.tx3)] |},
         [Sample.ev 12 "b"]);
        (Slice (DeriveID Sample.tx1 "bucket"),
         {| Start := 5 * Second;
            Prev := Slice (DeriveID Sample.tx1 "catch-all");
            EventRefs := [Slice (Instruction.ObjectID Sample.tx1);
                          Slice (Instruction.ObjectID Sample.tx2)] |},
         [Sample.ev 5 "a"; Sample.ev 8 "a"]);
        (Slice (DeriveID Sample.tx1 "catch-all"),
         {| Start := 0; Prev := []; EventRefs := [] |},
         []) ].
Proof.
  apply (proj1 (proj2 (proj2 C1_writer_placement)) Sample.service 3%nat (5 * Second)
           Sample.search_time
           ∅ (5 * Second) (5 * Second) (8 * Second) (12 * Second)
           Sample.tx1 Sample.tx2 Sample.tx3
           (Sample.ev 5 "a") (Sample.ev 8 "a") (Sample.ev 12 "b")).
  - exact SampleFacts.sample_roundtrip.
  - reflexivity.
  - lia.
  - reflexivity.
  - exact SampleRuns.valid_tx1.
  - exact SampleRuns.valid_tx2.
  - exact SampleRuns.valid_tx3.
  - reflexivity.
  - reflexivity.
  - reflexivity.
  - exact SampleRuns.fresh_aging_run.
Defined.

Lemma C3_witness :
  exists sbuf hbuf,
    getLatestBucket (∅ : View) = Err errIndexMissing /\
    contractFunction Sample.service (5 * Second) 3 ∅ Sample.tx1 [] =
      ([ NewStateChange Create (Instruction.ObjectID Sample.tx1) contractName
           (Sample.encodeEvent (Sample.ev 5 "a"));
         NewStateChange Create (DeriveID Sample.tx1 "catch-all") contractName sbuf;
         NewStateChange Create (DeriveID Sample.tx1 "bucket") contractName hbuf;
         NewStateChange Create theEventLog contractName
           (Slice (DeriveID Sample.tx1 "bucket")) ],
       [], None).
Proof.
  eexists _, _.
  eapply (C3_bootstrap Sample.service (5 * Second) 3%nat ∅ Sample.tx1 _ []
            contractName (Sample.encodeEvent (Sample.ev 5 "a")) (Sample.ev 5 "a"));
    reflexivity.
Defined.

Lemma C5_witness :
  decodeAndCheckEvent (6 * Second) (Sample.encodeEvent (Sample.ev 5 "a"))
    = Ok (Sample.ev 5 "a").
Proof.
  apply (C5_timestamp_validation (6 * Second) (Sample.encodeEvent (Sample.ev 5 "a"))
           (Sample.ev 5 "a")).
  - reflexivity.
  - reflexivity.
Defined.

Lemma C6_witness :
  exists e,
    contractFunction Sample.service (5 * Second) 3 ∅ Sample.deletion [] = ([], [], Some e) /\
    kindOf e = UnsupportedOperation.
Proof.
  apply (proj1 (C6_entry_point_shape Sample.service (5 * Second) 3%nat ∅
                  Sample.deletion [])).
  left. discriminate.
Defined.

Lemma C8_witness :
  getLatestBucket ((fun _ : SkipBlockID => (∅ : View)) (ID Sample.whole))
    = Err errIndexMissing /\
  Search (fun _ => ∅) 10000 Sample.search_time Sample.search_time 3 Sample.whole
    = Ok {| Events := []; Truncated := false |}.
Proof.
  apply (C8_search_empty_log (fun _ => ∅) 10000 Sample.search_time Sample.search_time
           3%nat Sample.whole).
  - reflexivity.
  - reflexivity.
Defined.

Lemma C9_witness :
  GetEvent (fun _ _ => Ok Sample.absence) {| SkipchainID := [Sample.b1]; Key := [Sample.b2] |}
    = Err ErrNotInclusionProof.
Proof.
  apply (proj1 (proj2 (C9_get_event_checks (fun _ _ => Ok Sample.absence)
                         {| SkipchainID := [Sample.b1]; Key := [Sample.b2] |}))
           Sample.absence).
  - reflexivity.
  - reflexivity.
Defined.

Lemma C10_witness :
  Search (fun _ => ∅) 10000 Sample.search_time Sample.search_time 3
    {| ID := []; ReqTopic := ""; From := 0; To := 0 |}
  = Err ErrSkipchainIDRequired.
Proof.
  apply (C10_search_null_id {| ID := []; ReqTopic := ""; From := 0; To := 0 |}).
  reflexivity.
Defined.

Lemma C7_witness :
  exists abuf,
    contractFunction Sample.service (8 * Second) 3 Sample.first_view Sample.tx2 [] =
      ([ NewStateChange Create (Instruction.ObjectID Sample.tx2) contractName
           (Sample.encodeEvent (Sample.ev 8 "a"));
         {| StateChange.Action := Update;
            StateChange.ObjectID := Slice (DeriveID Sample.tx1 "bucket");
            StateChange.ContractID := bytes_of_string contractName;
            StateChange.Value := abuf |} ],
       [], None).
Proof.
  eexists.
  refine (proj1 (C7_append_frame Sample.service (8 * Second) 3%nat Sample.first_view
                   Sample.tx2 _ [] contractName
                   (Sample.encodeEvent (Sample.ev 8 "a")) (Sample.ev 8 "a")
                   []
                   (Slice (DeriveID Sample.tx1 "bucket"))
                   {| Start := 5 * Second;
                      Prev := Slice (DeriveID Sample.tx1 "catch-all");
                      EventRefs := [Slice (Instruction.ObjectID Sample.tx1)] |}
                   [ (Slice (DeriveID Sample.tx1 "catch-all"),
                      {| Start := 0; Prev := []; EventRefs := [] |}) ]
                   _ _ _ _ _ _ _ _ _ _ _ _ _)).
  - reflexivity.
  - reflexivity.
  - reflexivity.
  - reflexivity.
  - reflexivity.
  - reflexivity.
  - split.
    + repeat split; vm_compute; reflexivity.
    + eexists _, _, [_]. split; [reflexivity|]. vm_compute. reflexivity.
  - constructor.
  - left. vm_compute. discriminate.
  - simpl. lia.
  - intros [_ Hage]. vm_compute in Hage. discriminate.
  - reflexivity.
Defined.

Lemma late_chain :
  head_chain Sample.late_view
    [ (Slice (DeriveID (Sample.tx_of "010" (Sample.ev 13 "a")) "bucket"),
       {| Start := 13 * Second;
          Prev := Slice (DeriveID (Sample.tx_of "010" (Sample.ev 13 "a")) "catch-all");
          EventRefs := [ [Sample.b1; "010"%byte] ] |});
      (Slice (DeriveID (Sample.tx_of "010" (Sample.ev 13 "a")) "catch-all"),
       {| Start := 0; Prev := [];
          EventRefs := [ [Sample.b1; "011"%byte]; [Sample.b1; "012"%byte] ] |}) ].
Proof.
  split.
  - repeat split; vm_compute; reflexivity.
  - eexists _, _, [_]. split; [reflexivity|]. vm_compute. reflexivity.
Qed.

Lemma Search_well_formed_result_witness :
  Search (fun _ => Sample.late_view) 1 Sample.search_time Sample.search_time 3
    Sample.whole
  = Ok {| Events := [Sample.ev 12 "a"]; Truncated := true |}.
Proof.
  pose proof (Search_well_formed_result (fun _ => Sample.late_view) 1 Sample.search_time
                Sample.search_time 3%nat Sample.whole _
                [ [Sample.ev 12 "a"; Sample.ev 11 "a"]; [Sample.ev 13 "a"] ]
                eq_refl late_chain) as W.
  destruct W as [W _].
  - simpl. lia.
  - repeat constructor; vm_compute; reflexivity.
  - rewrite W. vm_compute. reflexivity.
Defined.

(** C2: the code at the failing input. Three events are accepted into an
    empty log in the order 13s, 12s, 11s; the two late ones are appended
    to the first bucket in arrival order. A search over the whole log
    returns them as 12s, 11s, 13s, which is not oldest first; capped at
    one event it returns the 12s event, marked truncated, and so drops
    the 11s event, which is older than the one returned. *)
Theorem C2_failing_run :
  accepted Sample.service 3 ∅ Sample.late_run = Some Sample.late_view /\
  Search (fun _ => Sample.late_view) 10000 Sample.search_time Sample.search_time 3
    Sample.whole
  = Ok {| Events := [Sample.ev 12 "a"; Sample.ev 11 "a"; Sample.ev 13 "a"];
          Truncated := false |} /\
  Search (fun _ => Sample.late_view) 1 Sample.search_time Sample.search_time 3
    Sample.whole
  = Ok {| Events := [Sample.ev 12 "a"]; Truncated := true |} /\
  ~ drops_only_newest [Sample.ev 12 "a"; Sample.ev 11 "a"; Sample.ev 13 "a"]
      [Sample.ev 12 "a"] /\
  ~ oldest_first [Sample.ev 12 "a"; Sample.ev 11 "a"; Sample.ev 13 "a"].
Proof.
  split; [exact SampleRuns.accepted_late_run|].
  split; [vm_compute; reflexivity|].
  split; [vm_compute; reflexivity|].
  split.
  - intros Hdrop.
    specialize (Hdrop (Sample.ev 11 "a") (Sample.ev 12 "a")).
    assert (Hle : When (Sample.ev 12 "a") <= When (Sample.ev 11 "a")).
    { apply Hdrop.
      - right. left. reflexivity.
      - intros [Heq|[]]. vm_compute in Heq. discriminate.
      - left. reflexivity. }
    vm_compute in Hle. apply Hle. reflexivity.
  - intros Hsorted.
    assert (Hle : When (Sample.ev 12 "a") <= When (Sample.ev 11 "a")).
    { apply (Hsorted 0%nat 1%nat); [reflexivity | reflexivity | lia]. }
    vm_compute in Hle. apply Hle. reflexivity.
Qed.

Lemma aging_in_order : oldest_first (events_sent Sample.aging_run).
Proof.
  replace (events_sent Sample.aging_run)
    with [Sample.ev 5 "a"; Sample.ev 8 "a"; Sample.ev 12 "b"]
    by (vm_compute; reflexivity).
  repeat (apply oldest_first_intro;
          [repeat constructor; vm_compute; discriminate|]).
  exact oldest_first_nil.
Qed.

Lemma accepted_aging_run :
  accepted Sample.service 3 ∅ Sample.aging_run = Some SampleStores.aging_view.
Proof. vm_compute. reflexivity. Qed.

Lemma C4_witness :
  let M := List.filter (matches 0 (100 * Second) "") (events_sent Sample.aging_run) in
  oldest_first M /\
  [Sample.ev 5 "a"; Sample.ev 8 "a"] = firstn (capCount 2) M /\
  exists k : nat,
    (k <= length [Sample.ev 5 "a"])%nat /\
    Forall (fun e => When e < When (Sample.ev 8 "a")) (firstn k M) /\
    Forall (fun e => When (Sample.ev 8 "a") <= When e) (skipn k M) /\
    Search (fun _ => SampleStores.aging_view) 2 Sample.search_time Sample.search_time 3
      (reissue Sample.whole (When (Sample.ev 8 "a"))) =
      Ok {| Events := firstn (capCount 2) (skipn k M);
            Truncated := (capCount 2 <=? length (skipn k M))%nat |} /\
    nth_error (firstn (capCount 2) (skipn k M)) (length [Sample.ev 5 "a"] - k)
      = Some (Sample.ev 8 "a").
Proof.
  apply (C4_paging Sample.service 3%nat ∅ SampleStores.aging_view Sample.aging_run
           (fun _ => SampleStores.aging_view) 2 Sample.search_time Sample.search_time
           Sample.search_time Sample.whole
           {| Events := [Sample.ev 5 "a"; Sample.ev 8 "a"]; Truncated := true |}
           [Sample.ev 5 "a"] (Sample.ev 8 "a")
           SampleFacts.sample_roundtrip).
  - vm_compute. discriminate.
  - reflexivity.
  - exact SampleRuns.fresh_aging_run.
  - simpl. lia.
  - exact accepted_aging_run.
  - exact aging_in_order.
  - lia.
  - vm_compute. discriminate.
  - reflexivity.
  - reflexivity.
  - vm_compute. reflexivity.
  - reflexivity.
Defined.

Lemma C4_counterexample :
  accepted Sample.service 3 ∅ Sample.aging_run = Some SampleStores.aging_view /\
  oldest_first (events_sent Sample.aging_run) /\
  Search (fun _ => SampleStores.aging_view) 10000 Sample.search_time
    Sample.search_time 3 Sample.whole
  = Ok {| Events := [Sample.ev 5 "a"; Sample.ev 8 "a"; Sample.ev 12 "b"];
          Truncated := false |} /\
  Search (fun _ => SampleStores.aging_view) 1 Sample.search_time Sample.search_time 3
    Sample.whole
  = Ok {| Events := [Sample.ev 5 "a"]; Truncated := true |} /\
  Search (fun _ => SampleStores.aging_view) 1 Sample.search_time Sample.search_time 3
    (reissue Sample.whole (When (Sample.ev 5 "a")))
  = Ok {| Events := [Sample.ev 5 "a"]; Truncated := true |} /\
  ~ next_slice 1 [Sample.ev 5 "a"; Sample.ev 8 "a"; Sample.ev 12 "b"]
      [Sample.ev 5 "a"] [Sample.ev 5 "a"].
Proof.
  split; [exact accepted_aging_run|].
  split; [exact aging_in_order|].
  split; [vm_compute; reflexivity|].
  split; [vm_compute; reflexivity|].
  split; [vm_compute; reflexivity|].
  unfold next_slice. intros Heq. vm_compute in Heq. discriminate.
Qed.

(** * The further properties at concrete inputs *)

Lemma Search_sound_bounded_witness :
  Forall (fun ev =>
            (exists r, getEventByID Sample.late_view r = Ok ev) /\
            0 <= When ev < 100 * Second /\
            (ReqTopic Sample.whole = "" \/ ReqTopic Sample.whole = Topic ev))
    [Sample.ev 12 "a"] /\
  (length [Sample.ev 12 "a"] <= capCount 1)%nat /\
  (true = true <-> length [Sample.ev 12 "a"] = capCount 1).
Proof.
  apply (Search_sound_bounded (fun _ => Sample.late_view) 1 Sample.search_time
           Sample.search_time 3%nat Sample.whole
           {| Events := [Sample.ev 12 "a"]; Truncated := true |}).
  vm_compute. reflexivity.
Defined.

Lemma torn_chain :
  head_chain SampleStores.no_event
    [ (SampleStores.head, SampleStores.head_bucket);
      (SampleStores.sentinel, SampleStores.sentinel_bucket) ].
Proof.
  split.
  - repeat split; vm_compute; reflexivity.
  - eexists _, _, [_]. split; [reflexivity|]. vm_compute. reflexivity.
Qed.

Lemma Search_dangling_reference_witness :
  Search (fun _ => SampleStores.no_event) 10000 Sample.search_time Sample.search_time 3
    Sample.whole
  = Err ErrCorruptChain.
Proof.
  apply (Search_dangling_reference (fun _ => SampleStores.no_event) 10000
           Sample.search_time Sample.search_time 3%nat Sample.whole
           [ (SampleStores.head, SampleStores.head_bucket);
             (SampleStores.sentinel, SampleStores.sentinel_bucket) ]
           [ [Sample.b1; "011"%byte] ] [ [Sample.b1; "010"%byte] ]
           [Sample.b1; "012"%byte] [Sample.ev 12 "a"] ErrCorruptChain).
  - reflexivity.
  - exact torn_chain.
  - simpl. lia.
  - vm_compute. reflexivity.
  - repeat constructor; vm_compute; reflexivity.
  - vm_compute. lia.
  - vm_compute. reflexivity.
Defined.

Lemma Search_stops_at_cap_witness :
  Search (fun _ => SampleStores.no_event) 1 Sample.search_time Sample.search_time 3
    Sample.whole
  = Ok {| Events := [Sample.ev 12 "a"]; Truncated := true |}.
Proof.
  pose proof (Search_stops_at_cap (fun _ => SampleStores.no_event) 1
                Sample.search_time Sample.search_time 3%nat Sample.whole
                [ (SampleStores.head, SampleStores.head_bucket);
                  (SampleStores.sentinel, SampleStores.sentinel_bucket) ]
                [ [Sample.b1; "011"%byte] ]
                [ [Sample.b1; "012"%byte]; [Sample.b1; "010"%byte] ]
                [Sample.ev 12 "a"] eq_refl torn_chain) as W.
  rewrite W.
  - vm_compute. reflexivity.
  - simpl. lia.
  - vm_compute. reflexivity.
  - repeat constructor; vm_compute; reflexivity.
  - vm_compute. lia.
Defined.

Lemma contractFunction_store_failure_witness :
  contractFunction Sample.service (14 * Second) 3 SampleStores.no_sentinel
    SampleStores.older []
  = ([], [], Some ErrCorruptChain) /\
  execute Sample.service 3 SampleStores.no_sentinel (14 * Second) SampleStores.older
  = (SampleStores.no_sentinel, Some ErrCorruptChain).
Proof.
  pose proof (contractFunction_store_failure Sample.service (14 * Second) 3%nat
                SampleStores.no_sentinel SampleStores.older
                {| Spawn.ContractID := contractName;
                   Spawn.Args := [ {| Name := "event";
                                      Value := Sample.encodeEvent (Sample.ev 12 "c") |} ] |}
                [] contractName
                (Sample.encodeEvent (Sample.ev 12 "c")) (Sample.ev 12 "c")) as W.
  destruct W as [_ W]; try reflexivity.
  apply (W [ (SampleStores.head, SampleStores.head_bucket) ]
           SampleStores.head SampleStores.head_bucket
           [VBytes (bytes_of_string contractName)] ErrCorruptChain).
  - vm_compute. reflexivity.
  - repeat split; vm_compute; reflexivity.
  - reflexivity.
  - repeat constructor.
  - simpl. lia.
Defined.

Lemma Search_store_failure_witness :
  Search (fun _ => SampleStores.no_sentinel) 10000 Sample.search_time
    Sample.search_time 3 Sample.whole
  = Err ErrPanic.
Proof.
  pose proof (Search_store_failure (fun _ => SampleStores.no_sentinel) 10000
                Sample.search_time Sample.search_time 3%nat Sample.whole) as W.
  destruct W as [_ W]; [reflexivity|].
  apply (W [ (SampleStores.head, SampleStores.head_bucket) ]
           SampleStores.head SampleStores.head_bucket
           [VBytes (bytes_of_string contractName)] ErrCorruptChain).
  - vm_compute. reflexivity.
  - repeat split; vm_compute; reflexivity.
  - reflexivity.
  - vm_compute. discriminate.
  - repeat constructor; vm_compute; discriminate.
  - simpl. lia.
Defined.

Lemma insertions_chain_shape_witness :
  let c := map fst (log_after Sample.service [] Sample.late_run) in
  head_chain Sample.late_view c /\
  starts_sorted c /\
  Forall (fun x => 0 <= Start x.2) c /\
  (2 <= length c <= S (length Sample.late_run))%nat /\
  NoDup (map fst c) /\
  exists id b, last c = Some (id, b) /\ Start b = 0 /\ Prev b = [].
Proof.
  apply (insertions_chain_shape Sample.service 3%nat Sample.search_time ∅
           Sample.late_view Sample.late_run SampleFacts.sample_roundtrip).
  - vm_compute. discriminate.
  - reflexivity.
  - exact SampleRuns.fresh_late_run.
  - simpl. lia.
  - vm_compute. discriminate.
  - exact SampleRuns.accepted_late_run.
  - discriminate.
Defined.

Lemma insertions_bucket_spans_witness :
  let L := log_after Sample.service [] Sample.late_run in
  represents Sample.late_view L /\
  (forall newer x y older, L = newer ++ x :: y :: older ->
     Forall (fun e => Start (entry_bucket y) <= When e <= Start (entry_bucket x))
       (entry_events y) /\
     (older <> [] ->
      Start (entry_bucket y) + bucketMaxAge Sample.service < Start (entry_bucket x))) /\
  (forall x rest, L = x :: rest ->
     Forall (fun e => Start (entry_bucket x) <= When e
                      <= Start (entry_bucket x) + bucketMaxAge Sample.service /\
                      When e <= Sample.search_time)
       (entry_events x)).
Proof.
  apply (insertions_bucket_spans Sample.service 3%nat Sample.search_time ∅
           Sample.late_view Sample.late_run SampleFacts.sample_roundtrip).
  - vm_compute. discriminate.
  - reflexivity.
  - exact SampleRuns.fresh_late_run.
  - simpl. lia.
  - vm_compute. discriminate.
  - exact SampleRuns.accepted_late_run.
Defined.

Lemma Search_complete_witness :
  exists M,
    Permutation M
      (List.filter (matches 0 (100 * Second) "") (events_sent Sample.late_run)) /\
    Search (fun _ => Sample.late_view) 10000 Sample.search_time Sample.search_time 3
      Sample.whole =
      Ok {| Events := firstn (capCount 10000) M;
            Truncated := (capCount 10000 <=? length M)%nat |} /\
    ((length M < capCount 10000)%nat ->
     forall e, In e (firstn (capCount 10000) M) <->
               In e (events_sent Sample.late_run) /\
               0 <= When e < 100 * Second /\
               (ReqTopic Sample.whole = "" \/ ReqTopic Sample.whole = Topic e)).
Proof.
  apply (Search_complete Sample.service 3%nat ∅ Sample.late_view Sample.late_run
           (fun _ => Sample.late_view) 10000 Sample.search_time Sample.search_time
           Sample.whole SampleFacts.sample_roundtrip).
  - vm_compute. discriminate.
  - reflexivity.
  - exact SampleRuns.fresh_late_run.
  - simpl. lia.
  - vm_compute. discriminate.
  - exact SampleRuns.accepted_late_run.
  - reflexivity.
  - reflexivity.
Defined.

Lemma inserted_events_retrievable_witness :
  Permutation (events_of (log_after Sample.service [] Sample.late_run))
    (events_sent Sample.late_run) /\
  length (events_sent Sample.late_run) = length Sample.late_run /\
  forall now tx, In (now, tx) Sample.late_run ->
    exists e,
      event_of tx = Some e /\
      now - 5 * Second <= When e <= now /\
      getEventByID Sample.late_view (Slice (Instruction.ObjectID tx)) = Ok e /\
      exists id b,
        In (id, b) (map fst (log_after Sample.service [] Sample.late_run)) /\
        getBucketByID Sample.late_view id = Ok b /\
        In (Slice (Instruction.ObjectID tx)) (EventRefs b).
Proof.
  apply (inserted_events_retrievable Sample.service 3%nat Sample.search_time ∅
           Sample.late_view Sample.late_run SampleFacts.sample_roundtrip).
  - vm_compute. discriminate.
  - reflexivity.
  - exact SampleRuns.fresh_late_run.
  - simpl. lia.
  - vm_compute. discriminate.
  - exact SampleRuns.accepted_late_run.
Defined.

Lemma first_view_represents :
  represents Sample.first_view
    (log_after Sample.service [] [(5 * Second, Sample.tx1)]) /\
  fresh_run Sample.service 3 (5 * Second) Sample.search_time Sample.first_view
    (tl Sample.aging_run) /\
  accepted Sample.service 3 Sample.first_view (tl Sample.aging_run)
  = Some SampleStores.aging_view.
Proof.
  pose proof SampleRuns.fresh_aging_run as Hfr.
  unfold Sample.aging_run in Hfr. cbn [fresh_run] in Hfr.
  destruct Hfr as (Hfresh & Hclock & Hfr).
  split; [|split].
  - apply (accepted_represents Sample.service 3%nat (5 * Second) Sample.search_time
             SampleFacts.sample_roundtrip [(5 * Second, Sample.tx1)] ∅ []).
    + reflexivity.
    + cbn [fresh_run]. split; [exact Hfresh|]. split; [exact Hclock | exact I].
    + simpl. lia.
    + vm_compute. reflexivity.
  - exact Hfr.
  - vm_compute. reflexivity.
Qed.

Lemma insertions_append_only_witness :
  (forall id b,
     In (id, b) (map fst (log_after Sample.service [] [(5 * Second, Sample.tx1)])) ->
     getBucketByID Sample.first_view id = Ok b /\
     exists b',
       getBucketByID SampleStores.aging_view id = Ok b' /\
       Start b' = Start b /\ Prev b' = Prev b /\
       exists refs, EventRefs b' = EventRefs b ++ refs) /\
  (forall id b r,
     In (id, b) (map fst (log_after Sample.service [] [(5 * Second, Sample.tx1)])) ->
     In r (EventRefs b) ->
     exists e, getEventByID Sample.first_view r = Ok e /\
               getEventByID SampleStores.aging_view r = Ok e).
Proof.
  apply (insertions_append_only Sample.service 3%nat (5 * Second) Sample.search_time
           Sample.first_view SampleStores.aging_view
           (log_after Sample.service [] [(5 * Second, Sample.tx1)])
           (tl Sample.aging_run) SampleFacts.sample_roundtrip).
  - exact (proj1 first_view_represents).
  - exact (proj1 (proj2 first_view_represents)).
  - simpl. lia.
  - exact (proj2 (proj2 first_view_represents)).
Defined.

Lemma valid_insertions_accepted_witness :
  exists v',
    accepted Sample.service 3 ∅ Sample.aging_run = Some v' /\
    represents v' (log_after Sample.service [] Sample.aging_run).
Proof.
  apply (valid_insertions_accepted Sample.service 3%nat (5 * Second)
           Sample.search_time ∅ [] Sample.aging_run SampleFacts.sample_roundtrip).
  - reflexivity.
  - simpl. lia.
  - exact SampleRuns.fresh_aging_run.
  - repeat constructor;
      [ exists (Sample.ev 5 "a"); exact SampleRuns.valid_tx1
      | exists (Sample.ev 8 "a"); exact SampleRuns.valid_tx2
      | exists (Sample.ev 12 "b"); exact SampleRuns.valid_tx3 ].
Defined.

Lemma GetEvent_values_witness :
  GetEvent (fun _ _ => Ok SampleStores.short)
    {| SkipchainID := [Sample.b1]; Key := [Sample.b1; "010"%byte] |}
  = Err ErrNotEnoughValues.
Proof.
  pose proof (GetEvent_values (fun _ _ => Ok SampleStores.short)
                {| SkipchainID := [Sample.b1]; Key := [Sample.b1; "010"%byte] |}
                SampleStores.short [Sample.encodeEvent (Sample.ev 13 "a")]
                eq_refl eq_refl eq_refl) as W.
  apply (proj1 W). simpl. lia.
Defined.

Lemma GetEvent_after_insert_witness :
  exists e,
    event_of (Sample.tx_of "010" (Sample.ev 13 "a")) = Some e /\
    GetEvent (fun _ _ => Ok SampleStores.inclusion)
      {| SkipchainID := [Sample.b1];
         Key := Slice (Instruction.ObjectID (Sample.tx_of "010" (Sample.ev 13 "a"))) |}
    = Ok {| RespEvent := e |}.
Proof.
  apply (GetEvent_after_insert Sample.service 3%nat Sample.search_time ∅
           Sample.late_view Sample.late_run (13 * Second)
           (Sample.tx_of "010" (Sample.ev 13 "a"))
           (fun _ _ => Ok SampleStores.inclusion) [Sample.b1] SampleStores.inclusion
           [Sample.encodeEvent (Sample.ev 13 "a"); bytes_of_string contractName]
           SampleFacts.sample_roundtrip).
  - vm_compute. discriminate.
  - reflexivity.
  - intros k ws Hk. rewrite lookup_empty in Hk. discriminate.
  - exact SampleRuns.fresh_late_run.
  - simpl. lia.
  - vm_compute. discriminate.
  - exact SampleRuns.accepted_late_run.
  - left. reflexivity.
  - reflexivity.
  - reflexivity.
  - reflexivity.
  - vm_compute. reflexivity.
Defined.

Lemma SignSchnorr_verifies_witness :
  exists sig,
    @Schnorr.SignSchnorr Schnorr.sample_suite 7 5 [Sample.b1] = Ok sig /\
    @Schnorr.Challenge Schnorr.sample_suite sig
      = @Schnorr.CipherPick Schnorr.sample_suite (Sample.encZ 7) [Sample.b1] /\
    @Schnorr.Response Schnorr.sample_suite sig =
      @Schnorr.SecretSub Schnorr.sample_suite 7
        (@Schnorr.SecretMul Schnorr.sample_suite 5
           (@Schnorr.Challenge Schnorr.sample_suite sig)) /\
    @Schnorr.VerifySchnorr Schnorr.sample_suite
      (@Schnorr.PointMul Schnorr.sample_suite None 5) [Sample.b1] sig
    = Schnorr.Valid.
Proof.
  apply (@SignSchnorr_verifies Schnorr.sample_suite 7 5 [Sample.b1] (Sample.encZ 7)).
  - intros k x e. cbn. lia.
  - intros a. apply Z.eqb_refl.
  - reflexivity.
Defined.

Lemma genLocalhostPeerNames_names_witness :
  exists names,
    PeerNames.genLocalhostPeerNames 3 2000 = Some names /\
    length names = Z.to_nat 3 /\
    (forall i : nat, (i < Z.to_nat 3)%nat ->
       names !! i
       = Some (PeerNames.prefix
               ++ PeerNames.Itoa (PeerNames.add64 2000 (Z.of_nat i)))%string) /\
    NoDup names.
Proof.
  apply (genLocalhostPeerNames_names 3 2000). unfold int64_max. lia.
Defined.

Lemma genLocalDiffPeerNames_names_witness :
  exists names,
    (forall p', PeerNames.genLocalDiffPeerNames 3 p' = Some names) /\
    length names = Z.to_nat 3 /\
    (forall i : nat, (i < Z.to_nat 3)%nat ->
       names !! i = Some ("local" ++ PeerNames.Itoa (Z.of_nat i) ++ ":2000")%string) /\
    NoDup names.
Proof.
  apply (genLocalDiffPeerNames_names 3). lia.
Defined.
